(** * proglog: the segmented commit log (internal/log), embedded in Rocq

    The development follows the Go sources bottom-up:
    store.go (length-prefixed frames behind a buffered writer),
    index.go (memory-mapped 12-byte entries), segment.go (a store and an
    index under a base offset) and log.go (the list of segments).

    Go values are embedded as follows.
    - [uint64], [uint32] and [int64] are integers of [Z]; every
      operation that can leave the range is followed by the explicit
      wrap-around ([wrap64], [uint32], [int64]).
    - [[]byte] is [list byte].
    - A Go method with a pointer receiver takes the receiver and returns
      the updated receiver next to its results.
    - [*segment] values are shared between [Log.segments] and
      [Log.activeSegment]; they live in a heap addressed by [nat]. *)

From Stdlib Require Import ZArith Lia List Ascii String.
From Stdlib.Strings Require Import Byte.
From stdpp Require Import gmap strings list fin_maps sorting.

Local Open Scope Z_scope.

(** ** Machine integers *)

Definition wrap64 (z : Z) : Z := z mod 2 ^ 64.
Definition uint32 (z : Z) : Z := z mod 2 ^ 32.

(** [int64(x)] for an [x : uint64]: the two's complement reading. *)
Definition int64 (z : Z) : Z :=
  let w := wrap64 z in if w <? 2 ^ 63 then w else w - 2 ^ 64.

Definition maxUint64 : Z := 2 ^ 64 - 1.

(** ** Bytes and the big-endian codec ([enc = binary.BigEndian]) *)

Definition byte_of_Z (z : Z) : byte :=
  match Byte.of_N (Z.to_N (z mod 256)) with
  | Some b => b
  | None => x00
  end.

Definition Z_of_byte (b : byte) : Z := Z.of_N (Byte.to_N b).

(** [be_bytes n z]: the [n] low-order bytes of [z], most significant
    first; [enc.PutUint32] is [be_bytes 4], [enc.PutUint64] is
    [be_bytes 8]. *)
Fixpoint be_bytes (n : nat) (z : Z) : list byte :=
  match n with
  | O => []
  | S k => byte_of_Z (z / 256 ^ Z.of_nat k) :: be_bytes k z
  end.

(** [enc.Uint32] and [enc.Uint64] on a slice of the right length. *)
Definition be_value (bs : list byte) : Z :=
  fold_left (fun acc b => acc * 256 + Z_of_byte b) bs 0.

Definition len {A} (l : list A) : Z := Z.of_nat (length l).

(** [resize n l]: the content of a file of content [l] after
    [Truncate(n)]: cut, or extended with zero bytes. *)
Definition resize (n : nat) (l : list byte) : list byte :=
  take n l ++ replicate (n - length l)%nat x00.


(** ** Errors

    [io_error] are the errors of the Go runtime and of the operating
    system that the store and the index let through; [error] adds the
    log's own [api.ErrOffsetOutOfRange] (api/v1/error.go) and the errors
    of the codec. *)
Inductive io_error : Type :=
| EOF            (* io.EOF *)
| ErrClosed      (* os.ErrClosed: use of a closed file *)
| ErrNotExist    (* ENOENT *)
| ErrNoSpace     (* ENOSPC *)
| ErrInvalid.    (* EINVAL *)

Inductive error : Type :=
| ErrOffsetOutOfRange (Offset : Z)  (* api.ErrOffsetOutOfRange{Offset} *)
| ErrIO (e : io_error)
| ErrCodec.                         (* proto.Marshal or proto.Unmarshal failed *)

(** A Go call either returns or does not: it panics (an index or a
    slice out of range, a nil dereference) or the run-time system ends
    the program on a fault (a store into a page of a mapping that no
    file backs any more). *)
Inductive outcome (A : Type) : Type :=
| Ret (a : A)
| Panic.
Arguments Ret {A} a.
Arguments Panic {A}.

(** ** Records and configuration *)

(** The generated [api.Record] (log.pb.go) is known by its two fields,
    [record.Value] and [record.Offset]. *)
Record Record_ : Type := mkRecord { Value : list byte; Offset : Z }.

(** Modelled from the spec: config.go is not among the sources; its
    [Config] type has the three options of the spec's section 6,
    [Segment.MaxStoreBytes], [Segment.MaxIndexBytes] and
    [Segment.InitialOffset], all [uint64]. *)
Record SegmentConfig : Type := mkSegmentConfig {
  MaxStoreBytes : Z;
  MaxIndexBytes : Z;
  InitialOffset : Z
}.
Record Config : Type := mkConfig { Segment : SegmentConfig }.

(** ** The directory of the log

    The file system is the content of the log's directory: file names
    are relative to it and [path.Join(dir, name)] is [name].  Creating
    an entry fails with ENOSPC once the directory holds [capacity]
    entries; operations fail for no other cause than the ones visible
    in this state. *)
Record FS : Type := mkFS {
  files : gmap string (list byte);
  capacity : nat
}.

Definition set_file (name : string) (d : list byte) (fs : FS) : FS :=
  mkFS (<[name := d]> (files fs)) (capacity fs).

Definition del_file (name : string) (fs : FS) : FS :=
  mkFS (delete name (files fs)) (capacity fs).

(** [*os.File]: a name and whether [Close] was called. *)
Record File : Type := mkFile { Name : string; closed : bool }.

(** [os.OpenFile(name, O_RDWR|O_CREATE|O_APPEND, 0644)]. *)
Definition OpenFile (name : string) (fs : FS) : (File + io_error) * FS :=
  match files fs !! name with
  | Some _ => (inl (mkFile name false), fs)
  | None =>
      if decide (size (files fs) < capacity fs)%nat
      then (inl (mkFile name false), set_file name [] fs)
      else (inr ErrNoSpace, fs)
  end.

(** [f.Write(p)] on a file opened with O_APPEND: everything or nothing. *)
Definition File_Write (f : File) (p : list byte) (fs : FS)
  : option io_error * FS :=
  if closed f then (Some ErrClosed, fs)
  else match files fs !! Name f with
       | Some d => (None, set_file (Name f) (d ++ p) fs)
       | None => (Some ErrNotExist, fs)
       end.

(** [f.ReadAt(b, off)] with [len(b) = n]: the [n] bytes at [off], or
    the bytes there are and [io.EOF].  A negative offset is refused and
    an empty [b] is filled without touching the file. *)
Definition File_ReadAt (f : File) (n : nat) (off : Z) (fs : FS)
  : list byte * option io_error :=
  if off <? 0 then ([], Some ErrInvalid)
  else if Nat.eqb n 0 then ([], None)
  else if closed f then ([], Some ErrClosed)
  else match files fs !! Name f with
       | Some d =>
           let got := take n (drop (Z.to_nat off) d) in
           if (length got <? n)%nat then (got, Some EOF) else (got, None)
       | None => ([], Some ErrNotExist)
       end.

(** [os.Remove(name)]. *)
Definition os_Remove (name : string) (fs : FS) : option io_error * FS :=
  match files fs !! name with
  | Some _ => (None, del_file name fs)
  | None => (Some ErrNotExist, fs)
  end.

(** [os.ReadDir(dir)], as the names of the entries.  Go returns them
    sorted by file name; [setup] sorts the offsets it parses from them,
    so the order is not observable. *)
Definition ReadDir (fs : FS) : list string := (map_to_list (files fs)).*1.

(** ** store.go *)

Definition lenWidth : Z := 8.

(** [bufio.NewWriter(f)]: a buffer of 4096 bytes. *)
Definition defaultBufSize : Z := 4096.

(** [store]: the file, the buffered writer in front of it ([st_buf] are
    the bytes not flushed yet, [st_err] the error the writer keeps once
    a write to the file has failed) and the logical size. *)
Record store : Type := mkStore {
  st_File : File;
  st_buf : list byte;
  st_err : option io_error;
  st_size : Z
}.

Definition Available (s : store) : Z := defaultBufSize - len (st_buf s).

(** [bufio.Writer.Flush]. *)
Definition bufio_Flush (s : store) (fs : FS) : option io_error * store * FS :=
  match st_err s with
  | Some e => (Some e, s, fs)
  | None =>
      match st_buf s with
      | [] => (None, s, fs)
      | _ :: _ =>
          match File_Write (st_File s) (st_buf s) fs with
          | (None, fs') => (None, mkStore (st_File s) [] None (st_size s), fs')
          | (Some e, fs') =>
              (Some e, mkStore (st_File s) (st_buf s) (Some e) (st_size s), fs')
          end
      end
  end.

(** A write that bypasses the buffer ("large write, empty buffer"). *)
Definition bufio_direct (p : list byte) (s : store) (fs : FS)
  : option io_error * store * FS :=
  match File_Write (st_File s) p fs with
  | (None, fs') => (None, s, fs')
  | (Some e, fs') =>
      (Some e, mkStore (st_File s) (st_buf s) (Some e) (st_size s), fs')
  end.

(** [bufio.Writer.Write(p)].  Go loops while [p] exceeds the free room:
    with an empty buffer it writes [p] straight to the file, otherwise it
    fills the buffer and flushes.  A file write is all or nothing here,
    so the loop runs at most twice; this is its unrolling. *)
Definition bufio_Write (p : list byte) (s : store) (fs : FS)
  : option io_error * store * FS :=
  match st_err s with
  | Some e => (Some e, s, fs)
  | None =>
      if len p <=? Available s
      then (None, mkStore (st_File s) (st_buf s ++ p) None (st_size s), fs)
      else match st_buf s with
           | [] => bufio_direct p s fs
           | _ :: _ =>
               let n := Z.to_nat (Available s) in
               let s1 := mkStore (st_File s) (st_buf s ++ take n p) None
                                 (st_size s) in
               match bufio_Flush s1 fs with
               | (Some e, s2, fs2) => (Some e, s2, fs2)
               | (None, s2, fs2) =>
                   let q := drop n p in
                   if len q <=? defaultBufSize
                   then (None, mkStore (st_File s2) q None (st_size s2), fs2)
                   else bufio_direct q s2 fs2
               end
           end
  end.

(** [newStore(f)]: the size is the size of the file. *)
Definition newStore (f : File) (fs : FS) : store + io_error :=
  match files fs !! Name f with
  | Some d => inl (mkStore f [] None (len d))
  | None => inr ErrNotExist
  end.

(** [store.Append(p)]: returns [(n, pos, err)]. *)
Definition store_Append (p : list byte) (s : store) (fs : FS)
  : (Z * Z * option io_error) * store * FS :=
  let pos := st_size s in
  match bufio_Write (be_bytes 8 (len p)) s fs with
  | (Some e, s1, fs1) => ((0, 0, Some e), s1, fs1)
  | (None, s1, fs1) =>
      match bufio_Write p s1 fs1 with
      | (Some e, s2, fs2) => ((0, 0, Some e), s2, fs2)
      | (None, s2, fs2) =>
          let w := len p + lenWidth in
          ((w, pos, None),
           mkStore (st_File s2) (st_buf s2) (st_err s2)
                   (wrap64 (st_size s2 + w)),
           fs2)
      end
  end.

(** [store.Read(pos)]. *)
Definition store_Read (pos : Z) (s : store) (fs : FS)
  : (list byte * option io_error) * store * FS :=
  match bufio_Flush s fs with
  | (Some e, s1, fs1) => (([], Some e), s1, fs1)
  | (None, s1, fs1) =>
      match File_ReadAt (st_File s1) 8 (int64 pos) fs1 with
      | (_, Some e) => (([], Some e), s1, fs1)
      | (sz, None) =>
          match File_ReadAt (st_File s1) (Z.to_nat (be_value sz))
                            (int64 (pos + lenWidth)) fs1 with
          | (_, Some e) => (([], Some e), s1, fs1)
          | (b, None) => ((b, None), s1, fs1)
          end
      end
  end.

(** [store.Close()]. *)
Definition store_Close (s : store) (fs : FS) : option io_error * store * FS :=
  match bufio_Flush s fs with
  | (Some e, s1, fs1) => (Some e, s1, fs1)
  | (None, s1, fs1) =>
      if closed (st_File s1) then (Some ErrClosed, s1, fs1)
      else (None,
            mkStore (mkFile (Name (st_File s1)) true) (st_buf s1) (st_err s1)
                    (st_size s1),
            fs1)
  end.

(** [store.ReadAt(p, off)] when [p] has room for the rest of the file,
    which is how [io.ReadAll] drains an [originReader]: the buffer is
    flushed, then the whole file comes back. *)
Definition store_ReadAll (s : store) (fs : FS)
  : (list byte * option io_error) * store * FS :=
  match bufio_Flush s fs with
  | (Some e, s1, fs1) => (([], Some e), s1, fs1)
  | (None, s1, fs1) =>
      if closed (st_File s1) then (([], Some ErrClosed), s1, fs1)
      else match files fs1 !! Name (st_File s1) with
           | Some d => ((d, None), s1, fs1)
           | None => (([], Some ErrNotExist), s1, fs1)
           end
  end.

(** ** index.go *)

Definition offWidth : Z := 4.
Definition posWidth : Z := 8.
Definition entWidth : Z := offWidth + posWidth.

(** [index]: the file, the bytes of the mapping and the used size.
    The bytes of the mapping are kept here and reach the file at
    [msync]; the program's shared mapping shows them to a reader of
    the file at once, which only a second mapping of the file of a
    live index would observe. *)
Record index : Type := mkIndex {
  ix_file : File;
  ix_mmap : list byte;
  ix_size : Z
}.

(** [m[lo:hi]]; [None] is Go's panic on bounds out of range. *)
Definition slice (lo hi : Z) (m : list byte) : option (list byte) :=
  if (0 <=? lo) && (lo <=? hi) && (hi <=? len m)
  then Some (take (Z.to_nat (hi - lo)) (drop (Z.to_nat lo) m))
  else None.

(** Writing [bs] over [m[lo:lo+len(bs)]]. *)
Definition overwrite (lo : Z) (bs m : list byte) : list byte :=
  take (Z.to_nat lo) m ++ bs ++ drop (Z.to_nat lo + length bs) m.

(** What [msync] leaves in a file of content [d] under a mapping [m]:
    the mapped bytes, as far as the file reaches. *)
Definition msync (m d : list byte) : list byte :=
  take (length d) m ++ drop (length m) d.

(** [newIndex(f, c)]: stat, truncate to [MaxIndexBytes], map.  Mapping an
    empty file fails. *)
Definition newIndex (f : File) (c : Config) (fs : FS)
  : (index + io_error) * FS :=
  match files fs !! Name f with
  | None => (inr ErrNotExist, fs)
  | Some d =>
      let n := int64 (MaxIndexBytes (Segment c)) in
      if n <? 0 then (inr ErrInvalid, fs)
      else
        let d' := resize (Z.to_nat n) d in
        let fs' := set_file (Name f) d' fs in
        match d' with
        | [] => (inr ErrInvalid, fs')
        | _ :: _ => (inl (mkIndex f d' (len d)), fs')
        end
  end.

(** The page size of the mapping, [os.Getpagesize()]: 4096 bytes on
    linux/amd64. *)
Definition pageSize : Z := 4096.

(** The end of the last page that a file of [n] bytes backs. *)
Definition page_end (n : Z) : Z := (n + pageSize - 1) / pageSize * pageSize.

(** [index.Close] cuts the file to [size] under the mapping and never
    unmaps it: from then on the mapping keeps its length, but only its
    pages up to the end of the file are backed, and a store past them
    is a fault (SIGBUS).  The handle is closed exactly when the file
    was cut, and a write moves [size] within the last backed page
    only, so for an index with a closed handle the backed pages end at
    [page_end (ix_size i)], as long as nothing makes the file longer
    again.  [backed hi i]: the bytes of the mapping below [hi] can be
    written. *)
Definition backed (hi : Z) (i : index) : bool :=
  negb (closed (ix_file i)) || (hi <=? page_end (ix_size i)).

(** [index.Close()]: msync, fsync, truncate to [size], close.  The
    mapping stays in the index; what is left of it is [backed]. *)
Definition index_Close (i : index) (fs : FS) : option io_error * index * FS :=
  let name := Name (ix_file i) in
  let fs1 := match files fs !! name with
             | Some d => set_file name (msync (ix_mmap i) d) fs
             | None => fs
             end in
  if closed (ix_file i) then (Some ErrClosed, i, fs1)
  else match files fs1 !! name with
       | None => (Some ErrNotExist, i, fs1)
       | Some d =>
           if int64 (ix_size i) <? 0 then (Some ErrInvalid, i, fs1)
           else (None,
                 mkIndex (mkFile name true) (ix_mmap i) (ix_size i),
                 set_file name (resize (Z.to_nat (int64 (ix_size i))) d) fs1)
       end.

(** [index.Read(in)]: returns [(out, pos, err)]. *)
Definition index_Read (in_ : Z) (i : index) : outcome (Z * Z * option io_error) :=
  if ix_size i =? 0 then Ret (0, 0, Some EOF)
  else
    let out := if in_ =? -1
               then uint32 (wrap64 (ix_size i / entWidth - 1))
               else uint32 in_ in
    let pos := wrap64 (out * entWidth) in
    if ix_size i <? wrap64 (pos + entWidth) then Ret (0, 0, Some EOF)
    else
      match slice pos (wrap64 (pos + offWidth)) (ix_mmap i),
            slice (wrap64 (pos + offWidth)) (wrap64 (pos + entWidth))
                  (ix_mmap i) with
      | Some a, Some b => Ret (be_value a, be_value b, None)
      | _, _ => Panic
      end.

(** [index.Write(off, pos)]: the length check, the two slices, and the
    stores into the mapping, which fault where the mapping is not
    [backed]. *)
Definition index_Write (off pos : Z) (i : index)
  : outcome (option io_error * index) :=
  if len (ix_mmap i) <? wrap64 (ix_size i + entWidth)
  then Ret (Some EOF, i)
  else
    match slice (ix_size i) (wrap64 (ix_size i + offWidth)) (ix_mmap i),
          slice (wrap64 (ix_size i + offWidth))
                (wrap64 (ix_size i + entWidth)) (ix_mmap i) with
    | Some _, Some _ =>
        if backed (wrap64 (ix_size i + entWidth)) i
        then
          let m1 := overwrite (ix_size i) (be_bytes 4 off) (ix_mmap i) in
          let m2 := overwrite (wrap64 (ix_size i + offWidth))
                              (be_bytes 8 pos) m1 in
          Ret (None, mkIndex (ix_file i) m2 (wrap64 (ix_size i + entWidth)))
        else Panic
    | _, _ => Panic
    end.

(** ** File names *)

Definition digit_char (d : Z) : ascii := ascii_of_nat (48 + Z.to_nat d).

(** The decimal digits of [n] in front of [acc]. *)
Fixpoint itoa_aux (fuel : nat) (n : Z) (acc : string) : string :=
  match fuel with
  | O => acc
  | S k =>
      let acc' := String (digit_char (n mod 10)) acc in
      if n <? 10 then acc' else itoa_aux k (n / 10) acc'
  end.

(** [fmt.Sprintf("%d", n)] for an [n : uint64], which has at most twenty
    digits. *)
Definition itoa (n : Z) : string := itoa_aux 20 n "".

Definition storeName (baseOffset : Z) : string := itoa baseOffset +:+ ".store".
Definition indexName (baseOffset : Z) : string := itoa baseOffset +:+ ".index".

(** The scan of [path.Ext], which walks back from the end of the name to
    the last slash and stops at the first dot it meets. *)
Inductive ext_scan : Type :=
| ExtFound (e : string)   (* the extension *)
| ExtSlash                (* a slash, and no dot after it *)
| ExtNone.                (* neither *)

Fixpoint path_Ext_scan (s : string) : ext_scan :=
  match s with
  | EmptyString => ExtNone
  | String c s' =>
      match path_Ext_scan s' with
      | ExtFound e => ExtFound e
      | ExtSlash => ExtSlash
      | ExtNone =>
          if Ascii.eqb c "." then ExtFound s
          else if Ascii.eqb c "/" then ExtSlash
          else ExtNone
      end
  end.

Definition path_Ext (s : string) : string :=
  match path_Ext_scan s with
  | ExtFound e => e
  | _ => EmptyString
  end.

(** [strings.TrimSuffix(s, suffix)]. *)
Definition strings_TrimSuffix (s suffix : string) : string :=
  let n := (String.length s - String.length suffix)%nat in
  if (String.length suffix <=? String.length s)%nat
     && String.eqb (substring n (String.length suffix) s) suffix
  then substring 0 n s
  else s.

Definition digit_val (c : ascii) : option Z :=
  let n := Z.of_nat (nat_of_ascii c) in
  if (48 <=? n) && (n <=? 57) then Some (n - 48) else None.

(** The loop of [strconv.ParseUint(s, 10, 0)]; the boolean is [err == nil]. *)
Fixpoint ParseUint_loop (s : string) (n : Z) : Z * bool :=
  match s with
  | EmptyString => (n, true)
  | String c s' =>
      match digit_val c with
      | None => (0, false)                         (* syntax error *)
      | Some d =>
          if maxUint64 / 10 + 1 <=? n then (maxUint64, false)  (* range *)
          else
            let n10 := wrap64 (n * 10) in
            let n1 := wrap64 (n10 + d) in
            if (n1 <? n10) || (maxUint64 <? n1) then (maxUint64, false)
            else ParseUint_loop s' n1
      end
  end.

Definition ParseUint (s : string) : Z * bool :=
  match s with
  | EmptyString => (0, false)
  | _ => ParseUint_loop s 0
  end.

(** ** segment.go *)

Record segment : Type := mkSegment {
  seg_store : store;
  seg_index : index;
  baseOffset : Z;
  nextOffset : Z;
  seg_config : Config
}.

(** [newSegment(dir, baseOffset, c)]. *)
Definition newSegment (dir : string) (baseOffset : Z) (c : Config) (fs : FS)
  : outcome ((segment + error) * FS) :=
  match OpenFile (storeName baseOffset) fs with
  | (inr e, fs1) => Ret (inr (ErrIO e), fs1)
  | (inl storeFile, fs1) =>
      match newStore storeFile fs1 with
      | inr e => Ret (inr (ErrIO e), fs1)
      | inl st =>
          match OpenFile (indexName baseOffset) fs1 with
          | (inr e, fs2) => Ret (inr (ErrIO e), fs2)
          | (inl indexFile, fs2) =>
              match newIndex indexFile c fs2 with
              | (inr e, fs3) => Ret (inr (ErrIO e), fs3)
              | (inl ix, fs3) =>
                  match index_Read (-1) ix with
                  | Panic => Panic
                  | Ret (_, _, Some _) =>
                      Ret (inl (mkSegment st ix baseOffset baseOffset c), fs3)
                  | Ret (off, _, None) =>
                      Ret (inl (mkSegment st ix baseOffset
                                   (wrap64 (baseOffset + off + 1)) c), fs3)
                  end
              end
          end
      end
  end.

(** [segment.IsMaxed()]. *)
Definition IsMaxed (s : segment) : bool :=
  (MaxStoreBytes (Segment (seg_config s)) <=? st_size (seg_store s))
  || (MaxIndexBytes (Segment (seg_config s)) <=? ix_size (seg_index s)).

(** [segment.Close()]: the index, then the store. *)
Definition segment_Close (s : segment) (fs : FS)
  : option io_error * segment * FS :=
  match index_Close (seg_index s) fs with
  | (Some e, ix, fs1) =>
      (Some e,
       mkSegment (seg_store s) ix (baseOffset s) (nextOffset s) (seg_config s),
       fs1)
  | (None, ix, fs1) =>
      match store_Close (seg_store s) fs1 with
      | (e, st, fs2) =>
          (e, mkSegment st ix (baseOffset s) (nextOffset s) (seg_config s), fs2)
      end
  end.

(** [segment.Remove()]: close, then delete the index file and the store
    file. *)
Definition segment_Remove (s : segment) (fs : FS)
  : option io_error * segment * FS :=
  match segment_Close s fs with
  | (Some e, s1, fs1) => (Some e, s1, fs1)
  | (None, s1, fs1) =>
      match os_Remove (Name (ix_file (seg_index s1))) fs1 with
      | (Some e, fs2) => (Some e, s1, fs2)
      | (None, fs2) =>
          match os_Remove (Name (st_File (seg_store s1))) fs2 with
          | (e, fs3) => (e, s1, fs3)
          end
      end
  end.

(** ** A codec for the examples

    The log takes its codec from outside ([proto.Marshal] and
    [proto.Unmarshal] on the generated record type).  The development is
    parametric in it; the concrete runs below use this one, in the style
    of the protobuf wire format for a message with a [bytes] field 1 and
    a [uint64] field 2, fields with the zero value left out. *)

Fixpoint varint_aux (fuel : nat) (n : Z) : list byte :=
  match fuel with
  | O => []
  | S k =>
      if n <? 128 then [byte_of_Z n]
      else byte_of_Z (n mod 128 + 128) :: varint_aux k (n / 128)
  end.

Definition varint (n : Z) : list byte := varint_aux 10 n.

(** Reads a varint: the value and the rest of the input. *)
Fixpoint read_varint (fuel : nat) (bs : list byte) : option (Z * list byte) :=
  match fuel, bs with
  | S k, b :: rest =>
      let v := Z_of_byte b in
      if v <? 128 then Some (v, rest)
      else match read_varint k rest with
           | Some (hi, rest') => Some (v - 128 + 128 * hi, rest')
           | None => None
           end
  | _, _ => None
  end.

Definition wire_Marshal (r : Record_) : option (list byte) :=
  Some ((match Value r with
         | [] => []
         | _ :: _ => byte_of_Z 10 :: varint (len (Value r)) ++ Value r
         end)
        ++ (if Offset r =? 0 then [] else byte_of_Z 16 :: varint (Offset r))).

Fixpoint wire_fields (fuel : nat) (bs : list byte) (r : Record_)
  : option Record_ :=
  match fuel, bs with
  | _, [] => Some r
  | O, _ :: _ => None
  | S k, tag :: rest =>
      if Z_of_byte tag =? 10 then
        match read_varint 10 rest with
        | Some (n, rest') =>
            if n <=? len rest'
            then wire_fields k (drop (Z.to_nat n) rest')
                             (mkRecord (take (Z.to_nat n) rest') (Offset r))
            else None
        | None => None
        end
      else if Z_of_byte tag =? 16 then
        match read_varint 10 rest with
        | Some (n, rest') => wire_fields k rest' (mkRecord (Value r) n)
        | None => None
        end
      else None
  end.

Definition wire_Unmarshal (bs : list byte) : option Record_ :=
  wire_fields (length bs) bs (mkRecord [] 0).

(** ** The heap of segments and the state of the world *)

Record World : Type := mkWorld {
  w_fs : FS;
  w_seg : nat -> segment;   (* what each [*segment] points to *)
  w_next : nat              (* the next address to allocate *)
}.

Definition upd (p : nat) (s : segment) (h : nat -> segment) : nat -> segment :=
  fun q => if Nat.eqb q p then s else h q.

(** ** log.go *)

Record Log : Type := mkLog {
  Dir : string;
  Config_ : Config;
  activeSegment : option nat;
  segments : list nat
}.

Section WithCodec.

(** [proto.Marshal] and [proto.Unmarshal]; [None] is an error. *)
Variable Marshal : Record_ -> option (list byte).
Variable Unmarshal : list byte -> option Record_.

(** [segment.Append(record)]: returns [(offset, err)].  The record the
    caller passed has its [Offset] set to the assigned offset before it
    is encoded. *)
Definition segment_Append (record : Record_) (s : segment) (fs : FS)
  : outcome ((Z * option error) * segment * FS) :=
  let cur := nextOffset s in
  let record := mkRecord (Value record) cur in
  match Marshal record with
  | None => Ret ((0, Some ErrCodec), s, fs)
  | Some p =>
      match store_Append p (seg_store s) fs with
      | ((_, _, Some e), st, fs1) =>
          Ret ((0, Some (ErrIO e)),
               mkSegment st (seg_index s) (baseOffset s) (nextOffset s)
                         (seg_config s),
               fs1)
      | ((_, pos, None), st, fs1) =>
          match index_Write (uint32 (wrap64 (nextOffset s - baseOffset s)))
                            pos (seg_index s) with
          | Panic => Panic
          | Ret (Some e, ix) =>
              Ret ((0, Some (ErrIO e)),
                   mkSegment st ix (baseOffset s) (nextOffset s) (seg_config s),
                   fs1)
          | Ret (None, ix) =>
              Ret ((cur, None),
                   mkSegment st ix (baseOffset s) (wrap64 (nextOffset s + 1))
                             (seg_config s),
                   fs1)
          end
      end
  end.

(** [segment.Read(off)]. *)
Definition segment_Read (off : Z) (s : segment) (fs : FS)
  : outcome ((Record_ + error) * segment * FS) :=
  match index_Read (int64 (wrap64 (off - baseOffset s))) (seg_index s) with
  | Panic => Panic
  | Ret (_, _, Some e) => Ret (inr (ErrIO e), s, fs)
  | Ret (_, pos, None) =>
      match store_Read pos (seg_store s) fs with
      | ((_, Some e), st, fs1) =>
          Ret (inr (ErrIO e),
               mkSegment st (seg_index s) (baseOffset s) (nextOffset s)
                         (seg_config s),
               fs1)
      | ((p, None), st, fs1) =>
          Ret (match Unmarshal p with
               | Some record => inl record
               | None => inr ErrCodec
               end,
               mkSegment st (seg_index s) (baseOffset s) (nextOffset s)
                         (seg_config s),
               fs1)
      end
  end.

(** [Log.newSegment(off)]. *)
Definition Log_newSegment (off : Z) (l : Log) (w : World)
  : outcome (option error * Log * World) :=
  match newSegment (Dir l) off (Config_ l) (w_fs w) with
  | Panic => Panic
  | Ret (inr e, fs1) => Ret (Some e, l, mkWorld fs1 (w_seg w) (w_next w))
  | Ret (inl s, fs1) =>
      let p := w_next w in
      Ret (None,
           mkLog (Dir l) (Config_ l) (Some p) (segments l ++ [p]),
           mkWorld fs1 (upd p s (w_seg w)) (S p))
  end.

(** The second loop of [setup]: a segment for every other offset. *)
Fixpoint setup_loop (baseOffsets : list Z) (l : Log) (w : World)
  : outcome (option error * Log * World) :=
  match baseOffsets with
  | [] => Ret (None, l, w)
  | off :: rest =>
      match Log_newSegment off l w with
      | Panic => Panic
      | Ret (Some e, l1, w1) => Ret (Some e, l1, w1)
      | Ret (None, l1, w1) =>
          match rest with
          | [] => Ret (None, l1, w1)
          | _ :: rest' => setup_loop rest' l1 w1
          end
      end
  end.

(** The offset [setup] reads from a file name. *)
Definition name_offset (name : string) : Z :=
  fst (ParseUint (strings_TrimSuffix name (path_Ext name))).

(** [Log.setup()]. *)
Definition Log_setup (l : Log) (w : World)
  : outcome (option error * Log * World) :=
  let baseOffsets := merge_sort Z.le (map name_offset (ReadDir (w_fs w))) in
  match setup_loop baseOffsets l w with
  | Panic => Panic
  | Ret (Some e, l1, w1) => Ret (Some e, l1, w1)
  | Ret (None, l1, w1) =>
      match segments l1 with
      | [] => Log_newSegment (InitialOffset (Segment (Config_ l1))) l1 w1
      | _ :: _ => Ret (None, l1, w1)
      end
  end.

(** [NewLog(dir, c)]. *)
Definition NewLog (dir : string) (c : Config) (w : World)
  : outcome (option error * Log * World) :=
  let ms := if MaxStoreBytes (Segment c) =? 0 then 1024
            else MaxStoreBytes (Segment c) in
  let mi := if MaxIndexBytes (Segment c) =? 0 then 1024
            else MaxIndexBytes (Segment c) in
  let c := mkConfig (mkSegmentConfig ms mi (InitialOffset (Segment c))) in
  Log_setup (mkLog dir c None []) w.

(** [Log.Append(record)]: returns [(off, err)]. *)
Definition Log_Append (record : Record_) (l : Log) (w : World)
  : outcome ((Z * option error) * Log * World) :=
  match activeSegment l with
  | None => Panic
  | Some a =>
      match segment_Append record (w_seg w a) (w_fs w) with
      | Panic => Panic
      | Ret ((_, Some e), s, fs1) =>
          Ret ((0, Some e), l, mkWorld fs1 (upd a s (w_seg w)) (w_next w))
      | Ret ((off, None), s, fs1) =>
          let w1 := mkWorld fs1 (upd a s (w_seg w)) (w_next w) in
          if IsMaxed s then
            match Log_newSegment (wrap64 (off + 1)) l w1 with
            | Panic => Panic
            | Ret (err, l2, w2) => Ret ((off, err), l2, w2)
            end
          else Ret ((off, None), l, w1)
      end
  end.

(** The scan of [Log.Read]: the first segment that covers [off]. *)
Definition covers (off : Z) (s : segment) : bool :=
  (baseOffset s <=? off) && (off <? nextOffset s).

Definition find_segment (off : Z) (l : Log) (w : World) : option nat :=
  List.find (fun p => covers off (w_seg w p)) (segments l).

(** [Log.Read(off)]. *)
Definition Log_Read (off : Z) (l : Log) (w : World)
  : outcome ((Record_ + error) * World) :=
  match find_segment off l w with
  | None => Ret (inr (ErrOffsetOutOfRange off), w)
  | Some p =>
      match segment_Read off (w_seg w p) (w_fs w) with
      | Panic => Panic
      | Ret (r, s, fs1) => Ret (r, mkWorld fs1 (upd p s (w_seg w)) (w_next w))
      end
  end.

(** [Log.Close()]. *)
Fixpoint Log_Close_loop (ps : list nat) (w : World)
  : option io_error * World :=
  match ps with
  | [] => (None, w)
  | p :: rest =>
      match segment_Close (w_seg w p) (w_fs w) with
      | (Some e, s, fs1) => (Some e, mkWorld fs1 (upd p s (w_seg w)) (w_next w))
      | (None, s, fs1) =>
          Log_Close_loop rest (mkWorld fs1 (upd p s (w_seg w)) (w_next w))
      end
  end.

Definition Log_Close (l : Log) (w : World) : option io_error * World :=
  Log_Close_loop (segments l) w.

(** The loop of [Log.Truncate(lowest)]: the segments kept so far are
    [kept]; the result is the error or the list to install. *)
Fixpoint Log_Truncate_loop (lowest : Z) (ps kept : list nat) (w : World)
  : (io_error + list nat) * World :=
  match ps with
  | [] => (inr kept, w)
  | p :: rest =>
      if nextOffset (w_seg w p) <=? wrap64 (lowest + 1) then
        match segment_Remove (w_seg w p) (w_fs w) with
        | (Some e, s, fs1) =>
            (inl e, mkWorld fs1 (upd p s (w_seg w)) (w_next w))
        | (None, s, fs1) =>
            Log_Truncate_loop lowest rest kept
              (mkWorld fs1 (upd p s (w_seg w)) (w_next w))
        end
      else Log_Truncate_loop lowest rest (kept ++ [p]) w
  end.

(** [Log.Truncate(lowest)]. *)
Definition Log_Truncate (lowest : Z) (l : Log) (w : World)
  : option io_error * Log * World :=
  match Log_Truncate_loop lowest (segments l) [] w with
  | (inl e, w1) => (Some e, l, w1)
  | (inr kept, w1) =>
      (None, mkLog (Dir l) (Config_ l) (activeSegment l) kept, w1)
  end.

(** [io.ReadAll(l.Reader())]: the stores of the segments, in order, each
    from its first byte.  A reader that fails ends the stream; the bytes
    read so far are returned with the error. *)
Fixpoint Reader_loop (ps : list nat) (acc : list byte) (w : World)
  : (list byte * option io_error) * World :=
  match ps with
  | [] => ((acc, None), w)
  | p :: rest =>
      let s := w_seg w p in
      match store_ReadAll (seg_store s) (w_fs w) with
      | ((_, Some e), st, fs1) =>
          ((acc, Some e),
           mkWorld fs1
             (upd p (mkSegment st (seg_index s) (baseOffset s) (nextOffset s)
                               (seg_config s)) (w_seg w))
             (w_next w))
      | ((d, None), st, fs1) =>
          Reader_loop rest (acc ++ d)
            (mkWorld fs1
               (upd p (mkSegment st (seg_index s) (baseOffset s) (nextOffset s)
                                 (seg_config s)) (w_seg w))
               (w_next w))
      end
  end.

Definition Log_Reader_ReadAll (l : Log) (w : World)
  : (list byte * option io_error) * World :=
  Reader_loop (segments l) [] w.

(** [Log.LowestOffset()]: [l.segments[0]] panics on an empty list. *)
Definition LowestOffset (l : Log) (w : World) : outcome Z :=
  match segments l with
  | [] => Panic
  | p :: _ => Ret (baseOffset (w_seg w p))
  end.

(** [Log.HighestOffset()]. *)
Definition HighestOffset (l : Log) (w : World) : outcome Z :=
  match last (segments l) with
  | None => Panic
  | Some p =>
      let off := nextOffset (w_seg w p) in
      if off =? 0 then Ret 0 else Ret (wrap64 (off - 1))
  end.

End WithCodec.

(** ** Runs and observations used in the statements *)

(** A sequence of [Log.Append] calls, with everything they return. *)
Fixpoint Log_Appends (Marshal : Record_ -> option (list byte))
    (rs : list Record_) (l : Log) (w : World)
  : outcome (list (Z * option error) * Log * World) :=
  match rs with
  | [] => Ret ([], l, w)
  | r :: rest =>
      match Log_Append Marshal r l w with
      | Panic => Panic
      | Ret (o, l1, w1) =>
          match Log_Appends Marshal rest l1 w1 with
          | Panic => Panic
          | Ret (os, l2, w2) => Ret (o :: os, l2, w2)
          end
      end
  end.

(** What a [Log.Read] returned, whatever it did to the buffers. *)
Definition read_result (o : outcome ((Record_ + error) * World))
  : option (Record_ + error) :=
  match o with
  | Ret (r, _) => Some r
  | Panic => None
  end.

(** ** Invariants and observations used in the statements *)

(** [absent n fs]: no entry of that name. *)
Definition absent (n : string) (fs : FS) : Prop := files fs !! n = None.

(** A segment after a successful [Remove]: both handles closed, both
    files gone, the write buffer flushed. *)
Definition removed (s : segment) (fs : FS) : Prop :=
  closed (st_File (seg_store s)) = true
  /\ closed (ix_file (seg_index s)) = true
  /\ absent (Name (st_File (seg_store s))) fs
  /\ absent (Name (ix_file (seg_index s))) fs
  /\ st_buf (seg_store s) = [] /\ st_err (seg_store s) = None.

(** [Close] and [Remove] touch the handles and the buffer of a segment
    and nothing else of it. *)
Definition same_data (s s' : segment) : Prop :=
  Name (st_File (seg_store s')) = Name (st_File (seg_store s))
  /\ Name (ix_file (seg_index s')) = Name (ix_file (seg_index s))
  /\ baseOffset s' = baseOffset s /\ nextOffset s' = nextOffset s
  /\ seg_config s' = seg_config s
  /\ st_size (seg_store s') = st_size (seg_store s)
  /\ ix_size (seg_index s') = ix_size (seg_index s)
  /\ ix_mmap (seg_index s') = ix_mmap (seg_index s).

(** The bytes of a file, and the bytes a store holds: the file and then
    what is still in the buffer. *)
Definition file_data (fs : FS) (name : string) : list byte :=
  default [] (files fs !! name).

Definition store_content (fs : FS) (s : store) : list byte :=
  file_data fs (Name (st_File s)) ++ st_buf s.

(** Strings of decimal digits, as [strconv.ParseUint] accepts them. *)
Definition is_digit (c : ascii) : Prop := exists d, digit_val c = Some d.

Fixpoint all_digits (s : string) : Prop :=
  match s with
  | EmptyString => True
  | String c s' => is_digit c /\ all_digits s'
  end.

(** The value of a string of digits read after [acc]. *)
Fixpoint digits_value (s : string) (acc : Z) : Z :=
  match s with
  | EmptyString => acc
  | String c s' =>
      digits_value s' (acc * 10 + default 0 (digit_val c))
  end.

(** The mapping after [index.Write] at byte [at_]. *)
Definition put_entry (at_ off pos : Z) (m : list byte) : list byte :=
  overwrite (wrap64 (at_ + offWidth)) (be_bytes 8 pos)
            (overwrite at_ (be_bytes 4 off) m).

(** The entry that starts at byte [at_], as [index.Read] decodes it. *)
Definition get_entry (at_ : Z) (m : list byte) : Z * Z :=
  (be_value (take 4 (drop (Z.to_nat at_) m)),
   be_value (take 8 (drop (Z.to_nat (at_ + offWidth)) m))).

(** The offset after the last entry of an index, as [newSegment]
    computes it. *)
Definition next_after (baseOffset : Z) (ix : index) : option Z :=
  match index_Read (-1) ix with
  | Panic => None
  | Ret (_, _, Some _) => Some baseOffset
  | Ret (off, _, None) => Some (wrap64 (baseOffset + off + 1))
  end.

(** A well-formed segment: open handles on the two files named after
    its base offset, no pending write error, a store size that is the
    size of what the store holds, one index entry per offset of
    [baseOffset .. nextOffset - 1]. *)
Definition seg_wf (fs : FS) (s : segment) : Prop :=
  st_File (seg_store s) = mkFile (storeName (baseOffset s)) false
  /\ ix_file (seg_index s) = mkFile (indexName (baseOffset s)) false
  /\ st_err (seg_store s) = None
  /\ is_Some (files fs !! storeName (baseOffset s))
  /\ st_size (seg_store s) = len (store_content fs (seg_store s))
  /\ st_size (seg_store s) + lenWidth < 2 ^ 63
  /\ 0 <= baseOffset s <= nextOffset s /\ nextOffset s < 2 ^ 64
  /\ ix_size (seg_index s) = entWidth * (nextOffset s - baseOffset s)
  /\ ix_size (seg_index s) <= len (ix_mmap (seg_index s))
  /\ len (ix_mmap (seg_index s)) <= entWidth * 2 ^ 32.

(** [before s t]: segment [s] ends where or before [t] starts. *)
Definition before (s t : segment) : Prop :=
  nextOffset s <= baseOffset t /\ baseOffset s < baseOffset t.

(** A well-formed log: it appends to its last segment, and its
    segments are allocated, well formed and in ascending order without
    overlap. *)
Definition log_wf (l : Log) (w : World) : Prop :=
  activeSegment l = last (segments l)
  /\ segments l <> []
  /\ Forall (fun p => (p < w_next w)%nat) (segments l)
  /\ Forall (fun p => seg_wf (w_fs w) (w_seg w p)) (segments l)
  /\ StronglySorted before (map (w_seg w) (segments l)).

(** The codec round-trips a record, and its payload is a Go slice. *)
Definition codec_ok (Marshal : Record_ -> option (list byte))
    (Unmarshal : list byte -> option Record_) (r : Record_) : Prop :=
  forall p, Marshal r = Some p ->
    len p < 2 ^ 63
    /\ exists r', Unmarshal p = Some r'
                  /\ Value r' = Value r /\ Offset r' = Offset r.

(** Every file of the directory belongs to a base offset in
    [0 .. hi]. *)
Definition names_below (fs : FS) (hi : Z) : Prop :=
  forall name, is_Some (files fs !! name) ->
    exists b, 0 <= b <= hi /\ (name = storeName b \/ name = indexName b).

(** The state of a log that was opened on an empty directory with
    [InitialOffset = i0] and has seen [k] successful appends and no
    failed one: the active segment is about to assign [i0 + k], it is
    not maxed, and no file of a later base offset exists. *)
Definition fresh_inv (i0 k : Z) (l : Log) (w : World) : Prop :=
  exists a,
    activeSegment l = Some a
    /\ nextOffset (w_seg w a) = i0 + k
    /\ IsMaxed (w_seg w a) = false
    /\ seg_config (w_seg w a) = Config_ l
    /\ 0 < MaxStoreBytes (Segment (Config_ l))
    /\ 0 < MaxIndexBytes (Segment (Config_ l))
    /\ names_below (w_fs w) (i0 + k).

(** The configuration [NewLog] installs. *)
Definition withDefaults (c : Config) : Config :=
  mkConfig (mkSegmentConfig
              (if MaxStoreBytes (Segment c) =? 0 then 1024
               else MaxStoreBytes (Segment c))
              (if MaxIndexBytes (Segment c) =? 0 then 1024
               else MaxIndexBytes (Segment c))
              (InitialOffset (Segment c))).

(** The options of a configuration are [uint64] values. *)
Definition Config_typed (c : Config) : Prop :=
  0 <= MaxStoreBytes (Segment c) < 2 ^ 64
  /\ 0 <= MaxIndexBytes (Segment c) < 2 ^ 64
  /\ 0 <= InitialOffset (Segment c) < 2 ^ 64.

(** Every append of a run returned without error. *)
Definition all_ok (outs : list (Z * option error)) : Prop :=
  Forall (fun o => o.2 = None) outs.

(** An open store with no pending error. *)
Definition store_open (fs : FS) (s : store) : Prop :=
  st_err s = None /\ closed (st_File s) = false
  /\ is_Some (files fs !! Name (st_File s)).

(** Every entry of the index points at a frame header inside the
    store. *)
Definition index_points_inside (s : segment) : Prop :=
  Forall (fun k => snd (get_entry (entWidth * k) (ix_mmap (seg_index s)))
                   + lenWidth <= st_size (seg_store s))
         (seqZ 0 (nextOffset s - baseOffset s)).

(** The stores of the segments of a list can all be read, and no two
    of them share a file. *)
Definition stores_readable (ps : list nat) (w : World) : Prop :=
  Forall (fun p => store_open (w_fs w) (seg_store (w_seg w p))) ps
  /\ NoDup (map (fun p => Name (st_File (seg_store (w_seg w p)))) ps).

(** What a read of a segment returned, whatever it did to the buffer. *)
Definition segment_read_result (o : outcome ((Record_ + error) * segment * FS))
  : option (Record_ + error) :=
  match o with
  | Ret (r, _, _) => Some r
  | Panic => None
  end.

(** The directory holds the two files of every base offset of [B], and
    nothing else. *)
Definition segment_files (B : list Z) (fs : FS) : Prop :=
  forall name, is_Some (files fs !! name)
    <-> exists b, b ∈ B /\ (name = storeName b \/ name = indexName b).

(** The base offsets of the segments of a log, in the order of the
    list. *)
Definition bases (l : Log) (w : World) : list Z :=
  map (fun p => baseOffset (w_seg w p)) (segments l).

(** Every element twice. *)
Fixpoint dup (l : list Z) : list Z :=
  match l with
  | [] => []
  | x :: l' => x :: x :: dup l'
  end.

(** What a segment of a log that only saw successful appends looks
    like, for the configuration [c] of the log: open handles on its two
    files, no pending write error, one index entry per offset, the
    index file as long as the mapping, and the last entry holding the
    last relative offset. *)
Definition seg_durable (c : Config) (fs : FS) (s : segment) : Prop :=
  st_File (seg_store s) = mkFile (storeName (baseOffset s)) false
  /\ ix_file (seg_index s) = mkFile (indexName (baseOffset s)) false
  /\ st_err (seg_store s) = None
  /\ is_Some (files fs !! storeName (baseOffset s))
  /\ 0 <= st_size (seg_store s) < 2 ^ 64
  /\ 0 <= baseOffset s <= nextOffset s /\ nextOffset s < 2 ^ 64
  /\ ix_size (seg_index s) = entWidth * (nextOffset s - baseOffset s)
  /\ ix_size (seg_index s) <= len (ix_mmap (seg_index s))
  /\ len (ix_mmap (seg_index s)) = MaxIndexBytes (Segment c)
  /\ (exists d, files fs !! indexName (baseOffset s) = Some d
                /\ len d = len (ix_mmap (seg_index s)))
  /\ (baseOffset s < nextOffset s ->
      fst (get_entry (ix_size (seg_index s) - entWidth) (ix_mmap (seg_index s)))
      = nextOffset s - baseOffset s - 1)
  /\ seg_config s = c.

Definition durable (c : Config) (l : Log) (w : World) : Prop :=
  activeSegment l = last (segments l) /\ segments l <> []
  /\ Config_ l = c
  /\ 0 < MaxIndexBytes (Segment c) <= entWidth * 2 ^ 32
  /\ Forall (fun p => (p < w_next w)%nat) (segments l)
  /\ Forall (fun p => seg_durable c (w_fs w) (w_seg w p)) (segments l)
  /\ StronglySorted before (map (w_seg w) (segments l))
  /\ segment_files (bases l w) (w_fs w).

(** A segment [s2] over [fs2] holds what the segment [s] over [fs]
    held: the same offsets, the same store content, the same index
    entries. *)
Definition same_segment (fs : FS) (s : segment) (fs2 : FS) (s2 : segment)
  : Prop :=
  baseOffset s2 = baseOffset s /\ nextOffset s2 = nextOffset s
  /\ st_err (seg_store s) = None /\ st_err (seg_store s2) = None
  /\ closed (st_File (seg_store s)) = false
  /\ closed (st_File (seg_store s2)) = false
  /\ is_Some (files fs !! Name (st_File (seg_store s)))
  /\ is_Some (files fs2 !! Name (st_File (seg_store s2)))
  /\ store_content fs2 (seg_store s2) = store_content fs (seg_store s)
  /\ ix_size (seg_index s2) = ix_size (seg_index s)
  /\ ix_size (seg_index s) <= len (ix_mmap (seg_index s))
  /\ ix_size (seg_index s2) <= len (ix_mmap (seg_index s2))
  /\ take (Z.to_nat (ix_size (seg_index s))) (ix_mmap (seg_index s2))
     = take (Z.to_nat (ix_size (seg_index s))) (ix_mmap (seg_index s)).

(** What [newSegment] builds for the base offset [b] from the files of
    [fs]. *)
Definition opened (c : Config) (fs : FS) (b : Z) (s2 : segment) : Prop :=
  seg_store s2 = mkStore (mkFile (storeName b) false) [] None
                         (len (file_data fs (storeName b)))
  /\ seg_index s2
     = mkIndex (mkFile (indexName b) false)
               (resize (Z.to_nat (int64 (MaxIndexBytes (Segment c))))
                       (file_data fs (indexName b)))
               (len (file_data fs (indexName b)))
  /\ baseOffset s2 = b
  /\ next_after b (seg_index s2) = Some (nextOffset s2).

(** ** More of store.go and log.go: reading a store directly *)

(** [store.ReadAt(p, off)] with [len(p) = n]: the buffer is flushed,
    then the file is read. *)
Definition store_ReadAt (n : nat) (off : Z) (s : store) (fs : FS)
  : (list byte * option io_error) * store * FS :=
  match bufio_Flush s fs with
  | (Some e, s1, fs1) => (([], Some e), s1, fs1)
  | (None, s1, fs1) => (File_ReadAt (st_File s1) n off fs1, s1, fs1)
  end.

(** [originReader]: a store and the offset of its next read. *)
Record originReader : Type := mkOriginReader { or_store : store; or_off : Z }.

(** [originReader.Read(p)] with [len(p) = n]. *)
Definition originReader_Read (n : nat) (o : originReader) (fs : FS)
  : (list byte * option io_error) * originReader * FS :=
  let '((bs, e), s1, fs1) := store_ReadAt n (or_off o) (or_store o) fs in
  ((bs, e), mkOriginReader s1 (int64 (or_off o + len bs)), fs1).

(** The store of the examples after a flush of one frame. *)
Definition sample_store_after : store :=
  mkStore (mkFile "0.store" false) [] None 19.

(** A store on an empty file named [name], as [newStore] returns it,
    and an index of [n] mapped zero bytes without entries. *)
Definition sample_fs (name : string) : FS := mkFS {[ name := [] ]} 8.

Definition sample_store (name : string) : store :=
  mkStore (mkFile name false) [] None 0.

Definition sample_index (n : nat) : index :=
  mkIndex (mkFile "0.index" false) (replicate n x00) 0.

(** Every other element of a list, from the first one on: the
    offsets the loop of [setup] opens a segment for. *)
Fixpoint every_other (l : list Z) : list Z :=
  match l with
  | [] => []
  | x :: rest =>
      x :: match rest with
           | [] => []
           | _ :: rest' => every_other rest'
           end
  end.

(** A segment after a successful [Close]: both handles closed, the
    write buffer flushed. *)
Definition seg_closed (s : segment) : Prop :=
  closed (st_File (seg_store s)) = true
  /\ closed (ix_file (seg_index s)) = true
  /\ st_buf (seg_store s) = [] /\ st_err (seg_store s) = None.

(** The frame [store.Append] writes for a payload, and the frames of
    the records [rs] appended from the offset [o] on. *)
Definition frame (p : list byte) : list byte := be_bytes 8 (len p) ++ p.

Fixpoint frames (Marshal : Record_ -> option (list byte)) (o : Z)
    (rs : list Record_) : list byte :=
  match rs with
  | [] => []
  | r :: rest =>
      match Marshal (mkRecord (Value r) o) with
      | Some p => frame p
      | None => []
      end ++ frames Marshal (o + 1) rest
  end.

(** What the stores of the segments of a log hold, in the order of the
    list. *)
Definition stream (l : Log) (w : World) : list byte :=
  concat (map (fun p => store_content (w_fs w) (seg_store (w_seg w p)))
              (segments l)).

(** The first segment of the log starts at [i0]. *)
Definition starts_at (i0 : Z) (l : Log) (w : World) : Prop :=
  exists p rest, segments l = p :: rest /\ baseOffset (w_seg w p) = i0.

(** The encoding of the record that was given the offset [o], when
    the records [done] were appended from [i0] on. *)
Definition payload_at (Marshal : Record_ -> option (list byte)) (i0 : Z)
    (done : list Record_) (o : Z) : option (list byte) :=
  match done !! Z.to_nat (o - i0) with
  | Some r => Marshal (mkRecord (Value r) o)
  | None => None
  end.

(** A segment holds its part of that history: the store size is the
    size of its content, its offsets are offsets of the history, and
    the index entry of each of them points at the frame of its
    record. *)
Definition seg_holds (Marshal : Record_ -> option (list byte)) (i0 : Z)
    (done : list Record_) (fs : FS) (s : segment) : Prop :=
  st_size (seg_store s) = len (store_content fs (seg_store s))
  /\ i0 <= baseOffset s /\ nextOffset s <= i0 + len done
  /\ forall o, baseOffset s <= o < nextOffset s ->
       exists pl pre post,
         payload_at Marshal i0 done o = Some pl
         /\ store_content fs (seg_store s)
            = pre ++ be_bytes 8 (len pl) ++ pl ++ post
         /\ get_entry (entWidth * (o - baseOffset s)) (ix_mmap (seg_index s))
            = (o - baseOffset s, len pre)
         /\ len pre + lenWidth < 2 ^ 63 /\ len pl < 2 ^ 63.

(** A log holds the history: every segment holds its part, and every
    offset of the history is covered by a segment. *)
Definition log_holds (Marshal : Record_ -> option (list byte)) (i0 : Z)
    (done : list Record_) (l : Log) (w : World) : Prop :=
  Forall (fun p => seg_holds Marshal i0 done (w_fs w) (w_seg w p)) (segments l)
  /\ forall o, i0 <= o < i0 + len done ->
       exists p, p ∈ segments l /\ covers o (w_seg w p) = true.

(** ** internal/server: the in-memory log of the HTTP server

    [server.Log] keeps its records in a slice; [server.Record] has the
    fields of [api.Record], so [Record_] stands for both. *)

Module server.

Inductive error : Type := ErrOffsetNotFound.

Record Log : Type := mkLog { records : list Record_ }.

(** [NewLog()]. *)
Definition NewLog : Log := mkLog [].

(** [Log.Append(record)]: returns [(offset, nil)]. *)
Definition Append (record : Record_) (c : Log) : (Z * option error) * Log :=
  let record := mkRecord (Value record) (wrap64 (len (records c))) in
  ((Offset record, None), mkLog (records c ++ [record])).

(** [Log.Read(offset)]; [Panic] is an index out of range. *)
Definition Read (offset : Z) (c : Log) : outcome (Record_ + error) :=
  if wrap64 (len (records c)) <=? offset then Ret (inr ErrOffsetNotFound)
  else match records c !! Z.to_nat offset with
       | Some r => Ret (inl r)
       | None => Panic
       end.

(** A sequence of [Append] calls, with the offsets they returned. *)
Fixpoint Appends (rs : list Record_) (c : Log) : list Z * Log :=
  match rs with
  | [] => ([], c)
  | r :: rest =>
      let '((o, _), c1) := Append r c in
      let '(os, c2) := Appends rest c1 in
      (o :: os, c2)
  end.

End server.

(** ** Deciding the invariants on concrete states *)

#[global] Instance File_eq_dec : EqDecision File.
Proof. solve_decision. Defined.

#[global] Instance io_error_eq_dec : EqDecision io_error.
Proof. solve_decision. Defined.

#[global] Instance seg_wf_dec fs s : Decision (seg_wf fs s).
Proof. unfold seg_wf. apply _. Defined.

#[global] Instance before_dec s t : Decision (before s t).
Proof. unfold before. apply _. Defined.

#[global] Instance log_wf_dec l w : Decision (log_wf l w).
Proof. unfold log_wf. apply _. Defined.

#[global] Instance index_points_inside_dec s : Decision (index_points_inside s).
Proof. unfold index_points_inside. apply _. Defined.

(** ** Sample runs

    Concrete logs for the closed statements: a log opened in an empty
    directory that has room for [cap] files, the states a sequence of
    appends leaves, and what the calls returned. *)

Definition bytes_of_string (s : string) : list byte :=
  map byte_of_ascii (list_ascii_of_string s).

Definition hello : Record_ := mkRecord (bytes_of_string "hello world") 0.

Definition sample_config (ms mi i0 : Z) : Config :=
  mkConfig (mkSegmentConfig ms mi i0).

(** What the heap holds where no segment was allocated. *)
Definition no_segment : segment :=
  mkSegment (mkStore (mkFile "" true) [] None 0)
            (mkIndex (mkFile "" true) [] 0) 0 0 (sample_config 0 0 0).

Definition empty_world (cap : nat) : World :=
  mkWorld (mkFS ∅ cap) (fun _ => no_segment) 0.

Definition no_log : Log := mkLog "" (sample_config 0 0 0) None [].

(** The log and the world a call left, whatever else it returned. *)
Definition state_of {A} (o : outcome (A * Log * World)) : Log * World :=
  match o with
  | Ret (_, l, w) => (l, w)
  | Panic => (no_log, empty_world 0)
  end.

Definition opened_log (c : Config) (cap : nat) : Log * World :=
  state_of (NewLog "log" c (empty_world cap)).

Definition appended (rs : list Record_) (st : Log * World) : Log * World :=
  state_of (Log_Appends wire_Marshal rs st.1 st.2).

Definition closed_log (st : Log * World) : World := (Log_Close st.1 st.2).2.

Definition reopened_log (c : Config) (st : Log * World) : Log * World :=
  state_of (NewLog "log" c (closed_log st)).

(** What the appends returned, and the offsets among it. *)
Definition appended_outs (rs : list Record_) (st : Log * World)
  : list (Z * option error) :=
  match Log_Appends wire_Marshal rs st.1 st.2 with
  | Ret (outs, _, _) => outs
  | Panic => []
  end.

Definition appended_offsets (rs : list Record_) (st : Log * World) : list Z :=
  (appended_outs rs st).*1.

Definition truncated (k : Z) (st : Log * World) : Log * World :=
  let '(_, l, w) := Log_Truncate k st.1 st.2 in (l, w).

(** A log on an empty directory with the default limits, and that log
    after one record. *)
Definition no_record : Log * World := opened_log (sample_config 1024 0 0) 8.

Definition one_record : Log * World := appended [hello] no_record.

(** A log that starts two offsets before the last [uint64] and rolls
    over after every record. *)
Definition wrapped_log : Log * World :=
  opened_log (sample_config 1 1024 (2 ^ 64 - 2)) 16.

(** ** Lemmas on the codec *)

Lemma Z_of_byte_range b : 0 <= Z_of_byte b < 256.
Proof.
  unfold Z_of_byte. pose proof (Byte.to_N_bounded b). lia.
Qed.

Lemma Z_of_byte_of_Z z : Z_of_byte (byte_of_Z z) = z mod 256.
Proof.
  unfold Z_of_byte, byte_of_Z.
  assert (Hr : 0 <= z mod 256 < 256) by (apply Z.mod_pos_bound; lia).
  destruct (Byte.of_N (Z.to_N (z mod 256))) as [b|] eqn:E.
  - apply Byte.to_of_N in E. rewrite E. lia.
  - apply Byte.of_N_None_iff in E. lia.
Qed.

Lemma be_bytes_length n z : length (be_bytes n z) = n.
Proof. induction n; simpl; congruence. Qed.

Lemma be_value_app bs cs :
  be_value (bs ++ cs)
  = fold_left (fun acc b => acc * 256 + Z_of_byte b) cs (be_value bs).
Proof. unfold be_value. apply fold_left_app. Qed.

Lemma be_fold_bytes n : forall z acc,
  fold_left (fun a b => a * 256 + Z_of_byte b) (be_bytes n z) acc
  = acc * 256 ^ Z.of_nat n + z mod 256 ^ Z.of_nat n.
Proof.
  induction n as [|k IH]; intros z acc.
  - simpl. rewrite Z.mod_1_r. lia.
  - cbn [be_bytes fold_left]. rewrite IH, Z_of_byte_of_Z.
    rewrite Nat2Z.inj_succ, Z.pow_succ_r by lia.
    set (P := 256 ^ Z.of_nat k).
    assert (HP : 0 < P) by (apply Z.pow_pos_nonneg; lia).
    rewrite (Z.mul_comm 256 P).
    rewrite (Z.rem_mul_r z P 256) by lia.
    lia.
Qed.

Lemma be_value_bytes n z :
  0 <= z < 256 ^ Z.of_nat n -> be_value (be_bytes n z) = z.
Proof.
  intros Hz. unfold be_value. rewrite be_fold_bytes.
  rewrite Z.mod_small by lia. lia.
Qed.

Lemma be_value_bytes8 z : 0 <= z < 2 ^ 64 -> be_value (be_bytes 8 z) = z.
Proof. intros Hz. apply be_value_bytes. exact Hz. Qed.

Lemma be_value_bytes4 z : 0 <= z < 2 ^ 32 -> be_value (be_bytes 4 z) = z.
Proof. intros Hz. apply be_value_bytes. exact Hz. Qed.

Arguments be_bytes : simpl never.
Arguments be_value : simpl never.

(** ** Offset routing in [Log.Read] *)

Section Routing.

Variable Unmarshal : list byte -> option Record_.

Lemma segment_Read_not_out_of_range off s fs r s' fs' off' :
  segment_Read Unmarshal off s fs = Ret (r, s', fs') ->
  r <> inr (ErrOffsetOutOfRange off').
Proof.
  unfold segment_Read.
  destruct (index_Read _ _) as [[[o pos] [e|]]|]; try discriminate.
  - intros [= <- <- <-]. discriminate.
  - destruct (store_Read pos (seg_store s) fs) as [[[p [e|]] st] fs1].
    + intros [= <- <- <-]. discriminate.
    + intros [= <- <- <-]. destruct (Unmarshal p); discriminate.
Qed.

Lemma find_segment_None off l w :
  find_segment off l w = None <->
  Forall (fun p => covers off (w_seg w p) = false) (segments l).
Proof.
  unfold find_segment. induction (segments l) as [|p ps IH]; simpl.
  - split; [constructor | reflexivity].
  - destruct (covers off (w_seg w p)) eqn:E.
    + split; [discriminate|]. intros H. inversion H; congruence.
    + rewrite IH. split; intros H.
      * constructor; assumption.
      * inversion H; assumption.
Qed.

Lemma find_segment_Some off l w p :
  find_segment off l w = Some p ->
  exists before after,
    segments l = before ++ p :: after
    /\ covers off (w_seg w p) = true
    /\ Forall (fun q => covers off (w_seg w q) = false) before.
Proof.
  unfold find_segment. induction (segments l) as [|q ps IH]; simpl.
  - discriminate.
  - destruct (covers off (w_seg w q)) eqn:E.
    + intros [= ->]. exists [], ps. repeat split; [assumption | constructor].
    + intros H. destruct (IH H) as (b & a & -> & Hc & Hb).
      exists (q :: b), a. repeat split; [assumption|].
      constructor; assumption.
Qed.

(** C4. [Log.Read(off)] returns [ErrOffsetOutOfRange{off}] exactly when
    no segment of the list has [baseOffset <= off < nextOffset]; when
    some segment does, the read is the read of the first such segment,
    and whatever that returns is not an [ErrOffsetOutOfRange]. *)
Theorem C4_read_out_of_range_iff_uncovered (off : Z) (l : Log) (w : World) :
  (read_result (Log_Read Unmarshal off l w)
     = Some (inr (ErrOffsetOutOfRange off))
   <-> Forall (fun p => negb ((baseOffset (w_seg w p) <=? off)
                              && (off <? nextOffset (w_seg w p))) = true)
              (segments l))
  /\ (forall p before after,
        segments l = before ++ p :: after ->
        (baseOffset (w_seg w p) <= off < nextOffset (w_seg w p)) ->
        Forall (fun q => ~ (baseOffset (w_seg w q) <= off
                            < nextOffset (w_seg w q))) before ->
        Log_Read Unmarshal off l w
        = match segment_Read Unmarshal off (w_seg w p) (w_fs w) with
          | Panic => Panic
          | Ret (r, s, fs1) =>
              Ret (r, mkWorld fs1 (upd p s (w_seg w)) (w_next w))
          end
        /\ forall off',
             read_result (Log_Read Unmarshal off l w)
             <> Some (inr (ErrOffsetOutOfRange off'))).
Proof.
  split.
  - unfold Log_Read. destruct (find_segment off l w) as [p|] eqn:F.
    + split.
      * intros H. exfalso.
        destruct (segment_Read Unmarshal off (w_seg w p) (w_fs w))
          as [[[r s] fs1]|] eqn:R; simpl in H; [|discriminate].
        injection H as ->.
        eapply segment_Read_not_out_of_range; [exact R | reflexivity].
      * intros H. exfalso.
        destruct (find_segment_Some _ _ _ _ F) as (b & a & Hs & Hc & _).
        rewrite Hs in H. apply Forall_app in H as [_ H].
        inversion H as [|? ? Hp _]; subst. unfold covers in Hc.
        rewrite Hc in Hp. discriminate.
    + split; [|reflexivity]. intros _.
      apply find_segment_None in F.
      eapply Forall_impl; [exact F|]. intros q Hq. unfold covers in Hq.
      simpl in Hq. rewrite Hq. reflexivity.
  - intros p before after Hs Hp Hb.
    assert (F : find_segment off l w = Some p).
    { unfold find_segment. rewrite Hs. clear Hs.
      induction before as [|q qs IH]; simpl.
      - unfold covers.
        replace (baseOffset (w_seg w p) <=? off) with true
          by (symmetry; apply Z.leb_le; lia).
        replace (off <? nextOffset (w_seg w p)) with true
          by (symmetry; apply Z.ltb_lt; lia).
        reflexivity.
      - inversion Hb as [|? ? Hq Hqs]; subst.
        destruct (covers off (w_seg w q)) eqn:E.
        + exfalso. apply Hq. unfold covers in E.
          apply andb_prop in E as [E1 E2].
          apply Z.leb_le in E1. apply Z.ltb_lt in E2. lia.
        + apply IH. assumption. }
    unfold Log_Read. rewrite F. split; [reflexivity|].
    intros off'.
    destruct (segment_Read Unmarshal off (w_seg w p) (w_fs w))
      as [[[r s] fs1]|] eqn:R; simpl; [|discriminate].
    intros [= ->].
    eapply segment_Read_not_out_of_range; [exact R | reflexivity].
Qed.

End Routing.

(** ** The file system and the buffered writer *)

Ltac break_match_hyp H :=
  match type of H with
  | context [match ?x with _ => _ end] => destruct x eqn:?
  | context [if ?x then _ else _] => destruct x eqn:?
  end.

Ltac splits := repeat match goal with |- _ /\ _ => split end.

Ltac widths :=
  unfold entWidth, offWidth, posWidth, lenWidth, defaultBufSize, maxUint64 in *.

Ltac plia := widths; lia.

Ltac break_match_goal :=
  match goal with
  | |- context [match ?x with _ => _ end] => destruct x eqn:?
  | |- context [if ?x then _ else _] => destruct x eqn:?
  end.

Lemma files_set_file name d fs n :
  files (set_file name d fs) !! n
  = if decide (name = n) then Some d else files fs !! n.
Proof. unfold set_file. cbn. apply lookup_insert. Qed.

Lemma files_set_file_eq name d fs : files (set_file name d fs) !! name = Some d.
Proof. rewrite files_set_file. destruct (decide _); congruence. Qed.

Lemma files_set_file_ne name d fs n :
  name <> n -> files (set_file name d fs) !! n = files fs !! n.
Proof. intros H. rewrite files_set_file. destruct (decide _); congruence. Qed.

Lemma files_del_file name fs n :
  files (del_file name fs) !! n
  = if decide (name = n) then None else files fs !! n.
Proof. unfold del_file. cbn. apply lookup_delete. Qed.

Lemma absent_set_file_existing name d d0 fs n :
  files fs !! name = Some d0 -> absent n fs -> absent n (set_file name d fs).
Proof.
  unfold absent. intros H Hn. rewrite files_set_file.
  destruct (decide _); [congruence | assumption].
Qed.

Lemma absent_del_file name fs n : absent n fs -> absent n (del_file name fs).
Proof.
  unfold absent. intros Hn. rewrite files_del_file.
  destruct (decide _); [reflexivity | assumption].
Qed.

Lemma File_Write_ok f p fs fs' :
  File_Write f p fs = (None, fs') ->
  closed f = false
  /\ exists d, files fs !! Name f = Some d /\ fs' = set_file (Name f) (d ++ p) fs.
Proof.
  unfold File_Write. destruct (closed f); [discriminate|].
  destruct (files fs !! Name f) as [d|] eqn:E; [|discriminate].
  intros [= <-]. eauto.
Qed.

Lemma File_Write_absent f p fs e fs' n :
  File_Write f p fs = (e, fs') -> absent n fs -> absent n fs'.
Proof.
  unfold File_Write. destruct (closed f); [intros [= <- <-]; auto|].
  destruct (files fs !! Name f) as [d|] eqn:E; intros [= <- <-]; auto.
  intros. eapply absent_set_file_existing; eauto.
Qed.

Lemma bufio_Flush_ok s fs s' fs' :
  bufio_Flush s fs = (None, s', fs') ->
  st_err s = None
  /\ s' = mkStore (st_File s) [] None (st_size s)
  /\ (st_buf s = [] -> fs' = fs)
  /\ (st_buf s <> [] ->
      closed (st_File s) = false
      /\ exists d, files fs !! Name (st_File s) = Some d
                   /\ fs' = set_file (Name (st_File s)) (d ++ st_buf s) fs).
Proof.
  unfold bufio_Flush. destruct s as [f b e sz]; simpl.
  destruct e; [discriminate|].
  destruct b as [|x b].
  - intros [= <- <-]. split; [|split; [|split]]; congruence.
  - destruct (File_Write f (x :: b) fs) as [[e|] fs1] eqn:W; [discriminate|].
    intros [= <- <-]. apply File_Write_ok in W as (Hc & d & Hd & ->).
    split; [|split; [|split]]; try congruence. intros _. eauto.
Qed.

Lemma bufio_Flush_absent s fs e s' fs' n :
  bufio_Flush s fs = (e, s', fs') -> absent n fs -> absent n fs'.
Proof.
  unfold bufio_Flush. destruct (st_err s); [intros [= <- <- <-]; auto|].
  destruct (st_buf s); [intros [= <- <- <-]; auto|].
  destruct (File_Write _ _ _) as [[e1|] fs1] eqn:W; intros [= <- <- <-];
    eapply File_Write_absent; eauto.
Qed.

Lemma store_Close_ok s fs s' fs' :
  store_Close s fs = (None, s', fs') ->
  closed (st_File s) = false
  /\ s' = mkStore (mkFile (Name (st_File s)) true) [] None (st_size s)
  /\ bufio_Flush s fs = (None, mkStore (st_File s) [] None (st_size s), fs').
Proof.
  unfold store_Close.
  destruct (bufio_Flush s fs) as [[[e|] s1] fs1] eqn:F; [discriminate|].
  pose proof (bufio_Flush_ok _ _ _ _ F) as (_ & -> & _). simpl.
  destruct (closed (st_File s)); [discriminate|].
  intros [= <- <-]. auto.
Qed.

Lemma store_Close_absent s fs e s' fs' n :
  store_Close s fs = (e, s', fs') -> absent n fs -> absent n fs'.
Proof.
  unfold store_Close.
  destruct (bufio_Flush s fs) as [[[e1|] s1] fs1] eqn:F.
  - intros [= <- <- <-]. eapply bufio_Flush_absent; eauto.
  - destruct (closed _); intros [= <- <- <-];
      eapply bufio_Flush_absent; eauto.
Qed.

Lemma index_Close_ok i fs i' fs' :
  index_Close i fs = (None, i', fs') ->
  closed (ix_file i) = false
  /\ 0 <= int64 (ix_size i)
  /\ i' = mkIndex (mkFile (Name (ix_file i)) true) (ix_mmap i) (ix_size i)
  /\ exists d, files fs !! Name (ix_file i) = Some d
     /\ fs' = set_file (Name (ix_file i))
                (resize (Z.to_nat (int64 (ix_size i))) (msync (ix_mmap i) d)) fs.
Proof.
  unfold index_Close.
  destruct (files fs !! Name (ix_file i)) as [d|] eqn:E.
  - destruct (closed (ix_file i)); [discriminate|].
    rewrite files_set_file_eq.
    destruct (int64 (ix_size i) <? 0) eqn:Hs; [discriminate|].
    intros [= <- <-]. apply Z.ltb_ge in Hs.
    repeat split; try assumption. exists d. split; [reflexivity|].
    unfold set_file. cbn. rewrite insert_insert_eq. reflexivity.
  - destruct (closed (ix_file i)); [discriminate|]. rewrite E. discriminate.
Qed.

Lemma index_Close_absent i fs e i' fs' n :
  index_Close i fs = (e, i', fs') -> absent n fs -> absent n fs'.
Proof.
  unfold index_Close. intros H Hn.
  assert (H1 : absent n
            match files fs !! Name (ix_file i) with
            | Some d => set_file (Name (ix_file i)) (msync (ix_mmap i) d) fs
            | None => fs
            end).
  { destruct (files fs !! Name (ix_file i)) eqn:E; [|assumption].
    eapply absent_set_file_existing; eauto. }
  revert H H1.
  generalize (match files fs !! Name (ix_file i) with
              | Some d => set_file (Name (ix_file i)) (msync (ix_mmap i) d) fs
              | None => fs
              end).
  intros fs1 H H1.
  destruct (closed (ix_file i)); [injection H as <- <- <-; assumption|].
  destruct (files fs1 !! Name (ix_file i)) eqn:E;
    [|injection H as <- <- <-; assumption].
  destruct (int64 (ix_size i) <? 0); injection H as <- <- <-; [assumption|].
  eapply absent_set_file_existing; eauto.
Qed.

Lemma segment_Close_ok s fs s' fs' :
  segment_Close s fs = (None, s', fs') ->
  exists ix st fs1,
    index_Close (seg_index s) fs = (None, ix, fs1)
    /\ store_Close (seg_store s) fs1 = (None, st, fs')
    /\ s' = mkSegment st ix (baseOffset s) (nextOffset s) (seg_config s).
Proof.
  unfold segment_Close.
  destruct (index_Close (seg_index s) fs) as [[[e|] ix] fs1] eqn:I;
    [discriminate|].
  destruct (store_Close (seg_store s) fs1) as [[e st] fs2] eqn:C.
  intros [= -> <- <-]. eauto 8.
Qed.

Lemma segment_Close_absent s fs e s' fs' n :
  segment_Close s fs = (e, s', fs') -> absent n fs -> absent n fs'.
Proof.
  unfold segment_Close.
  destruct (index_Close (seg_index s) fs) as [[[e1|] ix] fs1] eqn:I.
  - intros [= <- <- <-]. eapply index_Close_absent; eauto.
  - destruct (store_Close (seg_store s) fs1) as [[e2 st] fs2] eqn:C.
    intros [= <- <- <-] Hn.
    eapply store_Close_absent; [exact C|].
    eapply index_Close_absent; eauto.
Qed.

Lemma os_Remove_ok name fs fs' :
  os_Remove name fs = (None, fs') -> fs' = del_file name fs.
Proof.
  unfold os_Remove. destruct (files fs !! name); [|discriminate].
  intros [= <-]. reflexivity.
Qed.

Lemma os_Remove_absent name fs e fs' n :
  os_Remove name fs = (e, fs') -> absent n fs -> absent n fs'.
Proof.
  unfold os_Remove. destruct (files fs !! name); intros [= <- <-]; auto.
  apply absent_del_file.
Qed.

Lemma segment_Remove_ok s fs s' fs' :
  segment_Remove s fs = (None, s', fs') ->
  removed s' fs'
  /\ baseOffset s' = baseOffset s /\ nextOffset s' = nextOffset s
  /\ closed (ix_file (seg_index s)) = false.
Proof.
  unfold segment_Remove.
  destruct (segment_Close s fs) as [[[e|] s1] fs1] eqn:C; [discriminate|].
  destruct (os_Remove (Name (ix_file (seg_index s1))) fs1)
    as [[e|] fs2] eqn:R1; [discriminate|].
  destruct (os_Remove (Name (st_File (seg_store s1))) fs2)
    as [e fs3] eqn:R2.
  intros [= -> <- <-].
  apply segment_Close_ok in C as (ix & st & fs0 & Hi & Hs & ->).
  apply index_Close_ok in Hi as (Hic & _ & -> & _).
  apply store_Close_ok in Hs as (Hsc & -> & _).
  apply os_Remove_ok in R1 as ->. apply os_Remove_ok in R2 as ->.
  simpl. unfold removed, absent. simpl.
  repeat split; try assumption.
  - rewrite lookup_delete_eq. reflexivity.
  - rewrite lookup_delete. destruct (decide _); [reflexivity|].
    rewrite lookup_delete_eq. reflexivity.
Qed.

Lemma segment_Remove_absent s fs e s' fs' n :
  segment_Remove s fs = (e, s', fs') -> absent n fs -> absent n fs'.
Proof.
  unfold segment_Remove.
  destruct (segment_Close s fs) as [[[e1|] s1] fs1] eqn:C.
  - intros [= <- <- <-]. eapply segment_Close_absent; eauto.
  - destruct (os_Remove (Name (ix_file (seg_index s1))) fs1)
      as [[e2|] fs2] eqn:R1.
    + intros [= <- <- <-] Hn. eapply os_Remove_absent; [exact R1|].
      eapply segment_Close_absent; eauto.
    + destruct (os_Remove (Name (st_File (seg_store s1))) fs2)
        as [e3 fs3] eqn:R2.
      intros [= <- <- <-] Hn. eapply os_Remove_absent; [exact R2|].
      eapply os_Remove_absent; [exact R1|].
      eapply segment_Close_absent; eauto.
Qed.

Lemma bufio_Flush_File s fs e s' fs' :
  bufio_Flush s fs = (e, s', fs') ->
  st_File s' = st_File s /\ st_size s' = st_size s.
Proof.
  unfold bufio_Flush. destruct (st_err s); [intros [= <- <- <-]; auto|].
  destruct (st_buf s); [intros [= <- <- <-]; auto|].
  destruct (File_Write _ _ _) as [[e1|] fs1]; intros [= <- <- <-]; auto.
Qed.

Lemma store_Close_name s fs e s' fs' :
  store_Close s fs = (e, s', fs') ->
  Name (st_File s') = Name (st_File s) /\ st_size s' = st_size s.
Proof.
  unfold store_Close.
  destruct (bufio_Flush s fs) as [[[e1|] s1] fs1] eqn:F;
    apply bufio_Flush_File in F as [F1 F2].
  - intros [= <- <- <-]. rewrite F1, F2. auto.
  - destruct (closed (st_File s1)); intros [= <- <- <-]; simpl;
      rewrite ?F1, ?F2; auto.
Qed.

Lemma index_Close_name i fs e i' fs' :
  index_Close i fs = (e, i', fs') ->
  Name (ix_file i') = Name (ix_file i)
  /\ ix_size i' = ix_size i /\ ix_mmap i' = ix_mmap i.
Proof.
  unfold index_Close.
  destruct (closed (ix_file i)); [intros [= <- <- <-]; auto|].
  destruct (files _ !! Name (ix_file i)); [|intros [= <- <- <-]; auto].
  destruct (int64 (ix_size i) <? 0); intros [= <- <- <-]; auto.
Qed.

Lemma same_data_refl s : same_data s s.
Proof. unfold same_data. repeat split. Qed.

Lemma same_data_trans s1 s2 s3 :
  same_data s1 s2 -> same_data s2 s3 -> same_data s1 s3.
Proof.
  unfold same_data. intros (A1 & A2 & A3 & A4 & A5 & A6 & A7 & A8)
    (B1 & B2 & B3 & B4 & B5 & B6 & B7 & B8).
  repeat split; congruence.
Qed.

Lemma segment_Close_names s fs e s' fs' :
  segment_Close s fs = (e, s', fs') -> same_data s s'.
Proof.
  unfold segment_Close, same_data.
  destruct (index_Close (seg_index s) fs) as [[[e1|] ix] fs1] eqn:I;
    apply index_Close_name in I as (I1 & I2 & I3).
  - intros [= <- <- <-]. simpl. repeat split; assumption.
  - destruct (store_Close (seg_store s) fs1) as [[e2 st] fs2] eqn:C.
    apply store_Close_name in C as (C1 & C2).
    intros [= <- <- <-]. simpl. repeat split; assumption.
Qed.

Lemma segment_Remove_names s fs e s' fs' :
  segment_Remove s fs = (e, s', fs') -> same_data s s'.
Proof.
  unfold segment_Remove.
  destruct (segment_Close s fs) as [[[e1|] s1] fs1] eqn:C;
    apply segment_Close_names in C.
  - intros [= <- <- <-]. assumption.
  - destruct (os_Remove (Name (ix_file (seg_index s1))) fs1) as [[e2|] fs2].
    + intros [= <- <- <-]. assumption.
    + destruct (os_Remove (Name (st_File (seg_store s1))) fs2) as [e3 fs3].
      intros [= <- <- <-]. assumption.
Qed.

Lemma File_Write_other f p fs e fs' n :
  File_Write f p fs = (e, fs') -> n <> Name f ->
  files fs' !! n = files fs !! n.
Proof.
  unfold File_Write. destruct (closed f); [intros [= <- <-]; auto|].
  destruct (files fs !! Name f); intros [= <- <-]; auto.
  intros. apply files_set_file_ne. congruence.
Qed.

Lemma bufio_Flush_other s fs e s' fs' n :
  bufio_Flush s fs = (e, s', fs') -> n <> Name (st_File s) ->
  files fs' !! n = files fs !! n.
Proof.
  unfold bufio_Flush. destruct (st_err s); [intros [= <- <- <-]; auto|].
  destruct (st_buf s); [intros [= <- <- <-]; auto|].
  destruct (File_Write _ _ _) as [[e1|] fs1] eqn:W; intros [= <- <- <-];
    eapply File_Write_other; eauto.
Qed.

Lemma store_Close_other s fs e s' fs' n :
  store_Close s fs = (e, s', fs') -> n <> Name (st_File s) ->
  files fs' !! n = files fs !! n.
Proof.
  unfold store_Close.
  destruct (bufio_Flush s fs) as [[[e1|] s1] fs1] eqn:F.
  - intros [= <- <- <-]. eapply bufio_Flush_other; eauto.
  - destruct (closed _); intros [= <- <- <-];
      eapply bufio_Flush_other; eauto.
Qed.

Lemma index_Close_other i fs e i' fs' n :
  index_Close i fs = (e, i', fs') -> n <> Name (ix_file i) ->
  files fs' !! n = files fs !! n.
Proof.
  unfold index_Close. intros H Hn.
  assert (H1 : files
            match files fs !! Name (ix_file i) with
            | Some d => set_file (Name (ix_file i)) (msync (ix_mmap i) d) fs
            | None => fs
            end !! n = files fs !! n).
  { destruct (files fs !! Name (ix_file i)) eqn:E; [|reflexivity].
    apply files_set_file_ne. congruence. }
  revert H H1.
  generalize (match files fs !! Name (ix_file i) with
              | Some d => set_file (Name (ix_file i)) (msync (ix_mmap i) d) fs
              | None => fs
              end).
  intros fs1 H H1.
  destruct (closed (ix_file i)); [injection H as <- <- <-; assumption|].
  destruct (files fs1 !! Name (ix_file i)) eqn:E;
    [|injection H as <- <- <-; assumption].
  destruct (int64 (ix_size i) <? 0); injection H as <- <- <-; [assumption|].
  rewrite files_set_file_ne by congruence. assumption.
Qed.

Lemma segment_Close_other s fs e s' fs' n :
  segment_Close s fs = (e, s', fs') ->
  n <> Name (st_File (seg_store s)) -> n <> Name (ix_file (seg_index s)) ->
  files fs' !! n = files fs !! n.
Proof.
  unfold segment_Close.
  destruct (index_Close (seg_index s) fs) as [[[e1|] ix] fs1] eqn:I.
  - intros [= <- <- <-] _ Hn. eapply index_Close_other; eauto.
  - destruct (store_Close (seg_store s) fs1) as [[e2 st] fs2] eqn:C.
    intros [= <- <- <-] Hn1 Hn2.
    erewrite store_Close_other by eauto.
    eapply index_Close_other; eauto.
Qed.

Lemma os_Remove_other name fs e fs' n :
  os_Remove name fs = (e, fs') -> n <> name ->
  files fs' !! n = files fs !! n.
Proof.
  unfold os_Remove. destruct (files fs !! name); intros [= <- <-]; auto.
  intros. rewrite files_del_file. destruct (decide _); congruence.
Qed.

Lemma segment_Remove_other s fs e s' fs' n :
  segment_Remove s fs = (e, s', fs') ->
  n <> Name (st_File (seg_store s)) -> n <> Name (ix_file (seg_index s)) ->
  files fs' !! n = files fs !! n.
Proof.
  unfold segment_Remove.
  destruct (segment_Close s fs) as [[[e1|] s1] fs1] eqn:C.
  - intros [= <- <- <-]. eapply segment_Close_other; eauto.
  - pose proof (segment_Close_names _ _ _ _ _ C) as (N1 & N2 & _).
    destruct (os_Remove (Name (ix_file (seg_index s1))) fs1)
      as [[e2|] fs2] eqn:R1.
    + intros [= <- <- <-] Hn1 Hn2.
      erewrite os_Remove_other by (eauto; congruence).
      eapply segment_Close_other; eauto.
    + destruct (os_Remove (Name (st_File (seg_store s1))) fs2)
        as [e3 fs3] eqn:R2.
      intros [= <- <- <-] Hn1 Hn2.
      erewrite os_Remove_other by (eauto; congruence).
      erewrite os_Remove_other by (eauto; congruence).
      eapply segment_Close_other; eauto.
Qed.

(** ** [Log.Truncate] *)

Lemma upd_eq p s h : upd p s h p = s.
Proof. unfold upd. rewrite Nat.eqb_refl. reflexivity. Qed.

Lemma upd_ne p s h q : q <> p -> upd p s h q = h q.
Proof.
  unfold upd. intros H. destruct (Nat.eqb_spec q p); congruence.
Qed.

(** What no step of the loop changes: the allocator, the data of every
    segment, the segments outside the list, absent files. *)
Lemma Truncate_loop_frame k : forall ps kept w r w',
  Log_Truncate_loop k ps kept w = (r, w') ->
  w_next w' = w_next w
  /\ (forall q, q ∉ ps -> w_seg w' q = w_seg w q)
  /\ (forall q, same_data (w_seg w q) (w_seg w' q))
  /\ (forall n, absent n (w_fs w) -> absent n (w_fs w')).
Proof.
  induction ps as [|p ps IH]; intros kept w r w'; simpl.
  - intros [= <- <-]. repeat split; auto using same_data_refl.
  - destruct (nextOffset (w_seg w p) <=? wrap64 (k + 1)) eqn:E.
    + destruct (segment_Remove (w_seg w p) (w_fs w)) as [[[e|] s] fs1] eqn:R.
      * intros [= <- <-]. simpl.
        pose proof (segment_Remove_names _ _ _ _ _ R) as HN.
        split; [reflexivity|]. split; [|split].
        -- intros q Hq. apply upd_ne. intros ->. apply Hq. left.
        -- intros q. destruct (Nat.eq_dec q p) as [->|Hqp].
           ++ rewrite upd_eq. exact HN.
           ++ rewrite upd_ne by assumption. apply same_data_refl.
        -- intros n. eapply segment_Remove_absent; eauto.
      * intros H. apply IH in H as (H1 & H2 & H3 & H4). simpl in *.
        pose proof (segment_Remove_names _ _ _ _ _ R) as HN.
        split; [assumption|]. split; [|split].
        -- intros q Hq. rewrite H2.
           ++ apply upd_ne. intros ->. apply Hq. left.
           ++ intros Hin. apply Hq. right. assumption.
        -- intros q. eapply same_data_trans; [|apply H3].
           destruct (Nat.eq_dec q p) as [->|Hqp].
           ++ rewrite upd_eq. exact HN.
           ++ rewrite upd_ne by assumption. apply same_data_refl.
        -- intros n Hn. apply H4. eapply segment_Remove_absent; eauto.
    + intros H. apply IH in H as (H1 & H2 & H3 & H4).
      split; [assumption|]. split; [|split]; auto.
      intros q Hq. apply H2. intros Hin. apply Hq. right. assumption.
Qed.

(** A successful loop keeps the segments that end above the bound, in
    their order, and has removed the others. *)
Lemma Truncate_loop_ok k : forall ps kept w kept' w',
  Log_Truncate_loop k ps kept w = (inr kept', w') ->
  kept' = kept ++ filter (fun p => wrap64 (k + 1) < nextOffset (w_seg w p)) ps
  /\ (forall p, p ∈ ps -> nextOffset (w_seg w p) <= wrap64 (k + 1) ->
                removed (w_seg w' p) (w_fs w'))
  /\ (forall p, wrap64 (k + 1) < nextOffset (w_seg w p) ->
                w_seg w' p = w_seg w p).
Proof.
  induction ps as [|p ps IH]; intros kept w kept' w'; simpl.
  - intros [= <- <-]. rewrite app_nil_r. split; [reflexivity|].
    split; [|auto]. intros p Hp. inversion Hp.
  - destruct (nextOffset (w_seg w p) <=? wrap64 (k + 1)) eqn:E.
    + apply Z.leb_le in E.
      destruct (segment_Remove (w_seg w p) (w_fs w)) as [[[e|] s] fs1] eqn:R;
        [discriminate|].
      intros H.
      pose proof (Truncate_loop_frame _ _ _ _ _ _ H) as (F1 & F2 & F3 & F4).
      pose proof (segment_Remove_names _ _ _ _ _ R) as (N1 & N2 & N3 & N4 & _).
      pose proof (segment_Remove_ok _ _ _ _ R) as (Hrem & _ & _ & Hopen).
      apply IH in H as (H1 & H2 & H3). simpl in *.
      assert (Hnext : forall q,
                nextOffset (upd p s (w_seg w) q) = nextOffset (w_seg w q)).
      { intros q. destruct (Nat.eq_dec q p) as [->|Hqp].
        - rewrite upd_eq. assumption.
        - rewrite upd_ne by assumption. reflexivity. }
      split; [|split].
      * rewrite H1. f_equal. rewrite filter_cons_False by lia.
        apply list_filter_iff. intros q. rewrite Hnext. reflexivity.
      * intros q Hq Hle. apply elem_of_cons in Hq as [->|Hq].
        -- destruct (decide (p ∈ ps)) as [Hin|Hnin].
           ++ apply H2; [assumption|]. rewrite Hnext. assumption.
           ++ rewrite F2 by assumption. simpl. rewrite upd_eq.
              destruct Hrem as (R1 & R2 & R3 & R4 & R5 & R6).
              repeat split; try assumption; apply F4; assumption.
        -- apply H2; [assumption|]. rewrite Hnext. assumption.
      * intros q Hq. rewrite H3 by (rewrite Hnext; assumption).
        apply upd_ne. intros ->. lia.
    + apply Z.leb_gt in E. intros H.
      apply IH in H as (H1 & H2 & H3).
      split; [|split].
      * rewrite H1, <- app_assoc. simpl.
        rewrite filter_cons_True by assumption. reflexivity.
      * intros q Hq Hle. apply elem_of_cons in Hq as [->|Hq]; [lia|].
        apply H2; assumption.
      * assumption.
Qed.

(** ** Appending to the store *)

Lemma len_app {A} (l k : list A) : len (l ++ k) = len l + len k.
Proof. unfold len. rewrite length_app. lia. Qed.

Lemma len_nonneg {A} (l : list A) : 0 <= len l.
Proof. unfold len. lia. Qed.

Lemma file_data_set_file_eq name d fs : file_data (set_file name d fs) name = d.
Proof. unfold file_data. rewrite files_set_file_eq. reflexivity. Qed.

Lemma bufio_direct_ok p s fs s' fs' :
  bufio_direct p s fs = (None, s', fs') ->
  s' = s /\ closed (st_File s) = false
  /\ exists d, files fs !! Name (st_File s) = Some d
               /\ fs' = set_file (Name (st_File s)) (d ++ p) fs.
Proof.
  unfold bufio_direct.
  destruct (File_Write (st_File s) p fs) as [[e|] fs1] eqn:W; [discriminate|].
  intros [= <- <-]. apply File_Write_ok in W as (Hc & d & Hd & ->). eauto.
Qed.

(** A write that fits in the buffer touches nothing else. *)
Lemma bufio_Write_fits p s fs :
  st_err s = None -> len p <= Available s ->
  bufio_Write p s fs
  = (None, mkStore (st_File s) (st_buf s ++ p) None (st_size s), fs).
Proof.
  intros He Hp. unfold bufio_Write. rewrite He.
  replace (len p <=? Available s) with true
    by (symmetry; apply Z.leb_le; assumption).
  reflexivity.
Qed.

(** A successful write adds [p] to the content of the store, whichever
    way it took. *)
Lemma file_data_Some fs n d : files fs !! n = Some d -> file_data fs n = d.
Proof. unfold file_data. intros ->. reflexivity. Qed.

Lemma app_take_drop_assoc {A} (l k p : list A) n :
  (l ++ k ++ take n p) ++ drop n p = (l ++ k) ++ p.
Proof.
  rewrite <- !app_assoc. rewrite take_drop. reflexivity.
Qed.

Lemma bufio_Write_ok p s fs s' fs' :
  bufio_Write p s fs = (None, s', fs') ->
  st_err s = None /\ st_err s' = None
  /\ st_File s' = st_File s /\ st_size s' = st_size s
  /\ store_content fs' s' = store_content fs s ++ p
  /\ (forall n, n <> Name (st_File s) -> files fs' !! n = files fs !! n)
  /\ (is_Some (files fs !! Name (st_File s)) ->
      is_Some (files fs' !! Name (st_File s))).
Proof.
  unfold bufio_Write. destruct s as [f b e sz]. cbn [st_err st_buf st_File].
  destruct e; [discriminate|].
  destruct (len p <=? Available (mkStore f b None sz)) eqn:Hfit.
  - intros [= <- <-]. unfold store_content. cbn [st_File st_buf st_err st_size].
    rewrite app_assoc. splits; auto.
  - destruct b as [|x b].
    + intros H. apply bufio_direct_ok in H as (-> & Hc & d & Hd & ->).
      cbn [st_File st_buf st_err st_size] in *.
      unfold store_content. cbn [st_File st_buf].
      rewrite file_data_set_file_eq, (file_data_Some _ _ _ Hd).
      rewrite !app_nil_r, files_set_file_eq.
      splits; auto; try (intros _; eauto).
      intros n Hn. apply files_set_file_ne. congruence.
    + set (n := Z.to_nat (Available (mkStore f (x :: b) None sz))).
      destruct (bufio_Flush _ fs) as [[[e|] s2] fs2] eqn:F; [discriminate|].
      apply bufio_Flush_ok in F as (_ & -> & _ & F).
      cbn [st_File st_buf st_err st_size] in F.
      destruct F as (Hc & d & Hd & ->); [discriminate|].
      cbn [st_File st_buf st_err st_size].
      destruct (len (drop n p) <=? defaultBufSize).
      * intros [= <- <-]. unfold store_content.
        cbn [st_File st_buf st_err st_size].
        rewrite file_data_set_file_eq, (file_data_Some _ _ _ Hd).
        rewrite files_set_file_eq.
        splits; auto; try (intros _; eauto).
        -- exact (app_take_drop_assoc d (x :: b) p n).
        -- intros m Hm. apply files_set_file_ne. congruence.
      * intros H. apply bufio_direct_ok in H as (-> & _ & d2 & Hd2 & ->).
        cbn [st_File st_buf st_err st_size] in *.
        rewrite files_set_file_eq in Hd2. injection Hd2 as <-.
        unfold store_content. cbn [st_File st_buf].
        rewrite file_data_set_file_eq, (file_data_Some _ _ _ Hd).
        rewrite files_set_file_eq, app_nil_r.
        splits; auto; try (intros _; eauto).
        -- exact (app_take_drop_assoc d (x :: b) p n).
        -- intros m Hm. rewrite !files_set_file_ne by congruence.
           reflexivity.
Qed.

(** A write, successful or not, leaves the file and size fields of the
    store and the other files alone. *)
Lemma bufio_Write_frame p s fs e s' fs' :
  bufio_Write p s fs = (e, s', fs') ->
  st_File s' = st_File s /\ st_size s' = st_size s
  /\ (forall n, n <> Name (st_File s) -> files fs' !! n = files fs !! n)
  /\ (forall n, absent n fs -> absent n fs').
Proof.
  unfold bufio_Write. destruct s as [f b e0 sz]. simpl.
  destruct e0; [intros [= <- <- <-]; auto|].
  destruct (len p <=? _); [intros [= <- <- <-]; auto|].
  assert (D : forall q s1 fs1 e1 s2 fs2,
             bufio_direct q s1 fs1 = (e1, s2, fs2) ->
             st_File s2 = st_File s1 /\ st_size s2 = st_size s1
             /\ (forall n, n <> Name (st_File s1) ->
                           files fs2 !! n = files fs1 !! n)
             /\ (forall n, absent n fs1 -> absent n fs2)).
  { intros q s1 fs1 e1 s2 fs2. unfold bufio_direct.
    destruct (File_Write (st_File s1) q fs1) as [[e2|] fs3] eqn:W;
      intros [= <- <- <-]; simpl; splits; auto;
      intros n Hn;
      first [eapply File_Write_other; eassumption
            | eapply File_Write_absent; eassumption]. }
  destruct b as [|x b].
  - intros H. apply D in H. exact H.
  - destruct (bufio_Flush _ fs) as [[[e1|] s2] fs2] eqn:F.
    + intros [= <- <- <-].
      pose proof (bufio_Flush_File _ _ _ _ _ F) as [F1 F2]. simpl in *.
      splits; auto.
      * intros n Hn. eapply bufio_Flush_other in F; eauto.
      * intros n Hn. eapply bufio_Flush_absent in F; eauto.
    + pose proof (bufio_Flush_File _ _ _ _ _ F) as [F1 F2]. simpl in *.
      destruct (len _ <=? defaultBufSize).
      * intros [= <- <- <-]. simpl. splits; auto.
        -- intros n Hn. eapply bufio_Flush_other in F; eauto.
        -- intros n Hn. eapply bufio_Flush_absent in F; eauto.
      * intros H. apply D in H as (D1 & D2 & D3 & D4).
        splits; try congruence.
        -- intros n Hn. rewrite D3 by congruence.
           eapply bufio_Flush_other in F; eauto.
        -- intros n Hn. apply D4. eapply bufio_Flush_absent in F; eauto.
Qed.

(** [store.Append]: on success the frame is added to the content, the
    position returned is the old size and the size grows by the frame. *)
Lemma store_Append_ok p s fs n pos s' fs' :
  store_Append p s fs = ((n, pos, None), s', fs') ->
  n = len p + lenWidth /\ pos = st_size s
  /\ st_err s = None /\ st_err s' = None
  /\ st_File s' = st_File s
  /\ st_size s' = wrap64 (st_size s + (len p + lenWidth))
  /\ store_content fs' s' = store_content fs s ++ be_bytes 8 (len p) ++ p
  /\ (forall m, m <> Name (st_File s) -> files fs' !! m = files fs !! m)
  /\ (is_Some (files fs !! Name (st_File s)) ->
      is_Some (files fs' !! Name (st_File s))).
Proof.
  unfold store_Append.
  destruct (bufio_Write (be_bytes 8 (len p)) s fs) as [[[e|] s1] fs1] eqn:W1;
    [discriminate|].
  destruct (bufio_Write p s1 fs1) as [[[e|] s2] fs2] eqn:W2; [discriminate|].
  intros [= <- <- <- <-].
  apply bufio_Write_ok in W1 as (A1 & A2 & A3 & A4 & A5 & A6 & A7).
  apply bufio_Write_ok in W2 as (B1 & B2 & B3 & B4 & B5 & B6 & B7).
  cbn [st_File st_buf st_err st_size]. rewrite B3, A3 in *. rewrite B4, A4.
  splits; auto.
  - replace (store_content fs2 _) with (store_content fs2 s2)
      by (unfold store_content; cbn [st_File st_buf]; rewrite B3; reflexivity).
    rewrite B5, A5, <- app_assoc. reflexivity.
  - intros m Hm. rewrite B6, A6 by congruence. reflexivity.
Qed.

(** A failed [store.Append] leaves the size as it was. *)
Lemma store_Append_frame p s fs r s' fs' :
  store_Append p s fs = (r, s', fs') ->
  st_File s' = st_File s
  /\ (forall m, m <> Name (st_File s) -> files fs' !! m = files fs !! m)
  /\ (forall m, absent m fs -> absent m fs')
  /\ (forall e, r.2 = Some e -> st_size s' = st_size s).
Proof.
  unfold store_Append.
  destruct (bufio_Write (be_bytes 8 (len p)) s fs) as [[[e|] s1] fs1] eqn:W1.
  - intros [= <- <- <-].
    apply bufio_Write_frame in W1 as (A1 & A2 & A3 & A4). splits; auto.
  - apply bufio_Write_frame in W1 as (A1 & A2 & A3 & A4).
    destruct (bufio_Write p s1 fs1) as [[[e|] s2] fs2] eqn:W2;
      apply bufio_Write_frame in W2 as (B1 & B2 & B3 & B4).
    + intros [= <- <- <-]. splits; try congruence; auto.
      intros m Hm. rewrite B3, A3 by congruence. reflexivity.
    + intros [= <- <- <-]. simpl. splits; try congruence; auto.
      intros m Hm. rewrite B3, A3 by congruence. reflexivity.
Qed.

(** With an empty error and room in the buffer for the whole frame,
    [store.Append] succeeds without touching the file, open or not. *)
Lemma store_Append_buffered p s fs :
  st_err s = None ->
  len (st_buf s) + lenWidth + len p <= defaultBufSize ->
  store_Append p s fs
  = ((len p + lenWidth, st_size s, None),
     mkStore (st_File s) ((st_buf s ++ be_bytes 8 (len p)) ++ p) None
             (wrap64 (st_size s + (len p + lenWidth))),
     fs).
Proof.
  intros He Hroom. unfold store_Append.
  pose proof (len_nonneg p). pose proof (len_nonneg (st_buf s)).
  assert (L8 : len (be_bytes 8 (len p)) = 8).
  { unfold len. rewrite be_bytes_length. reflexivity. }
  unfold lenWidth in *.
  rewrite bufio_Write_fits; [|assumption|unfold Available; lia].
  rewrite bufio_Write_fits; simpl; [reflexivity|reflexivity|].
  unfold Available. simpl. rewrite len_app. lia.
Qed.

(** ** Machine arithmetic *)

Lemma wrap64_small z : 0 <= z < 2 ^ 64 -> wrap64 z = z.
Proof. intros H. unfold wrap64. apply Z.mod_small. exact H. Qed.

Lemma wrap64_range z : 0 <= wrap64 z < 2 ^ 64.
Proof. unfold wrap64. apply Z.mod_pos_bound. lia. Qed.

Lemma wrap64_over z : 2 ^ 64 <= z < 2 ^ 65 -> wrap64 z = z - 2 ^ 64.
Proof.
  intros H. unfold wrap64.
  replace z with ((z - 2 ^ 64) + 1 * 2 ^ 64) at 1 by lia.
  rewrite Z.mod_add by lia. apply Z.mod_small. lia.
Qed.

Lemma uint32_small z : 0 <= z < 2 ^ 32 -> uint32 z = z.
Proof. intros H. unfold uint32. apply Z.mod_small. exact H. Qed.

Lemma uint32_range z : 0 <= uint32 z < 2 ^ 32.
Proof. unfold uint32. apply Z.mod_pos_bound. lia. Qed.

Lemma int64_small z : 0 <= z < 2 ^ 63 -> int64 z = z.
Proof.
  intros H. unfold int64. rewrite wrap64_small by lia.
  destruct (z <? 2 ^ 63) eqn:E; [reflexivity|]. apply Z.ltb_ge in E. lia.
Qed.

(** ** File names: printing and parsing offsets *)

Lemma digit_val_char d : 0 <= d < 10 -> digit_val (digit_char d) = Some d.
Proof.
  intros H. unfold digit_val, digit_char.
  rewrite nat_ascii_embedding by lia.
  replace (Z.of_nat (48 + Z.to_nat d)) with (48 + d) by lia.
  replace (48 <=? 48 + d) with true by (symmetry; apply Z.leb_le; lia).
  replace (48 + d <=? 57) with true by (symmetry; apply Z.leb_le; lia).
  simpl. f_equal. lia.
Qed.

Lemma digit_val_range c d : digit_val c = Some d -> 0 <= d < 10.
Proof.
  unfold digit_val.
  destruct (48 <=? Z.of_nat (nat_of_ascii c)) eqn:E1; [|discriminate].
  destruct (Z.of_nat (nat_of_ascii c) <=? 57) eqn:E2; [|discriminate].
  simpl. intros [= <-]. apply Z.leb_le in E1, E2. lia.
Qed.

Lemma digit_not_dot c : is_digit c -> Ascii.eqb c "." = false.
Proof.
  intros [d H]. destruct (Ascii.eqb_spec c "."); [|reflexivity].
  subst. discriminate.
Qed.

Lemma digit_not_slash c : is_digit c -> Ascii.eqb c "/" = false.
Proof.
  intros [d H]. destruct (Ascii.eqb_spec c "/"); [|reflexivity].
  subst. discriminate.
Qed.

Lemma digits_value_mono s : forall acc acc',
  acc <= acc' -> digits_value s acc <= digits_value s acc'.
Proof.
  induction s as [|c s IH]; intros acc acc' H; simpl; [assumption|].
  apply IH. lia.
Qed.

Lemma digits_value_ge s : forall acc,
  0 <= acc -> all_digits s -> acc <= digits_value s acc.
Proof.
  induction s as [|c s IH]; intros acc H Hd; simpl; [lia|].
  destruct Hd as [[d Hc] Hs]. rewrite Hc. simpl.
  pose proof (digit_val_range _ _ Hc).
  etransitivity; [|apply IH; [lia | assumption]]. lia.
Qed.

(** On digits whose value fits, the loop of [ParseUint] computes that
    value without raising its range error. *)
Lemma ParseUint_loop_digits s : forall acc,
  all_digits s -> 0 <= acc -> digits_value s acc < 2 ^ 64 ->
  ParseUint_loop s acc = (digits_value s acc, true).
Proof.
  induction s as [|c s IH]; intros acc Hd Hacc Hv; simpl; [reflexivity|].
  destruct Hd as [[d Hc] Hs]. rewrite Hc. simpl in Hv. rewrite Hc in Hv.
  simpl in Hv. pose proof (digit_val_range _ _ Hc) as Hr.
  assert (Hge : acc * 10 + d <= digits_value s (acc * 10 + d))
    by (apply digits_value_ge; [lia | assumption]).
  unfold maxUint64.
  destruct (_ <=? acc) eqn:E1.
  { apply Z.leb_le in E1.
    change ((2 ^ 64 - 1) / 10 + 1) with 1844674407370955162 in E1. lia. }
  rewrite (wrap64_small (acc * 10)) by lia.
  rewrite (wrap64_small (acc * 10 + d)) by lia.
  destruct (acc * 10 + d <? acc * 10) eqn:E2.
  { apply Z.ltb_lt in E2. lia. }
  destruct (2 ^ 64 - 1 <? acc * 10 + d) eqn:E3.
  { apply Z.ltb_lt in E3. lia. }
  simpl. apply IH; [assumption | lia | assumption].
Qed.

Lemma itoa_aux_digits fuel : forall n acc,
  all_digits acc -> all_digits (itoa_aux fuel n acc).
Proof.
  induction fuel as [|k IH]; intros n acc Hacc; simpl; [assumption|].
  assert (Hd : is_digit (digit_char (n mod 10))).
  { exists (n mod 10). apply digit_val_char. apply Z.mod_pos_bound. lia. }
  destruct (n <? 10).
  - simpl. auto.
  - apply IH. simpl. auto.
Qed.

Lemma string_app_cons c (s t : string) : String c s +:+ t = String c (s +:+ t).
Proof. reflexivity. Qed.

Lemma string_app_nil (t : string) : "" +:+ t = t.
Proof. reflexivity. Qed.

Lemma string_app_assoc (s t u : string) : (s +:+ t) +:+ u = s +:+ (t +:+ u).
Proof.
  induction s as [|c s IH]; [reflexivity|].
  rewrite !string_app_cons, IH. reflexivity.
Qed.

Lemma digits_value_app s t : forall a,
  digits_value (s +:+ t) a = digits_value t (digits_value s a).
Proof.
  induction s as [|c s IH]; intros a.
  - reflexivity.
  - rewrite string_app_cons. cbn [digits_value]. apply IH.
Qed.

Lemma itoa_aux_app fuel : forall n acc,
  itoa_aux fuel n acc = itoa_aux fuel n "" +:+ acc.
Proof.
  induction fuel as [|k IH]; intros n acc; cbn [itoa_aux].
  - reflexivity.
  - destruct (n <? 10); [reflexivity|].
    rewrite (IH _ (String _ acc)), (IH _ (String _ "")).
    rewrite string_app_assoc. reflexivity.
Qed.

Lemma pow10_succ k : 10 ^ Z.of_nat (S k) = 10 * 10 ^ Z.of_nat k.
Proof. rewrite Nat2Z.inj_succ. apply Z.pow_succ_r. lia. Qed.

Lemma itoa_aux_value0 fuel : forall n,
  0 <= n < 10 ^ Z.of_nat fuel ->
  digits_value (itoa_aux fuel n "") 0 = n.
Proof.
  induction fuel as [|k IH]; intros n Hn.
  - change (10 ^ Z.of_nat 0) with 1 in Hn. cbn [itoa_aux digits_value]. lia.
  - cbn [itoa_aux].
    assert (Hm : 0 <= n mod 10 < 10) by (apply Z.mod_pos_bound; lia).
    destruct (n <? 10) eqn:E.
    + apply Z.ltb_lt in E. cbn [digits_value].
      rewrite digit_val_char by assumption. cbn [default from_option id].
      rewrite Z.mod_small by lia. lia.
    + apply Z.ltb_ge in E.
      assert (Hq : 0 <= n / 10 < 10 ^ Z.of_nat k).
      { split; [apply Z.div_pos; lia|].
        apply Z.div_lt_upper_bound; [lia|].
        rewrite pow10_succ in Hn. lia. }
      rewrite itoa_aux_app, digits_value_app, IH by assumption.
      cbn [digits_value]. rewrite digit_val_char by assumption.
      cbn [default from_option id].
      pose proof (Z.div_mod n 10). lia.
Qed.

Lemma itoa_digits n : all_digits (itoa n).
Proof. apply itoa_aux_digits. exact I. Qed.

Lemma itoa_value n : 0 <= n < 2 ^ 64 -> digits_value (itoa n) 0 = n.
Proof.
  intros H. apply itoa_aux_value0.
  change (10 ^ Z.of_nat 20) with 100000000000000000000.
  change (2 ^ 64) with 18446744073709551616 in H. lia.
Qed.

Lemma itoa_aux_nonempty fuel : forall n acc,
  acc <> EmptyString -> itoa_aux fuel n acc <> EmptyString.
Proof.
  induction fuel as [|k IH]; intros n acc Hacc; cbn [itoa_aux].
  - assumption.
  - destruct (n <? 10); [discriminate|]. apply IH. discriminate.
Qed.

Lemma itoa_aux_S_nonempty k n acc : itoa_aux (S k) n acc <> EmptyString.
Proof.
  cbn [itoa_aux].
  destruct (n <? 10); [discriminate|]. apply itoa_aux_nonempty. discriminate.
Qed.

Lemma itoa_nonempty n : itoa n <> EmptyString.
Proof. exact (itoa_aux_S_nonempty 19 n EmptyString). Qed.

(** [ParseUint] reads back what [itoa] printed. *)
Lemma ParseUint_itoa n : 0 <= n < 2 ^ 64 -> ParseUint (itoa n) = (n, true).
Proof.
  intros H. unfold ParseUint.
  destruct (itoa n) eqn:E; [exfalso; eapply itoa_nonempty; eauto|].
  rewrite <- E. rewrite ParseUint_loop_digits.
  - rewrite itoa_value by assumption. reflexivity.
  - apply itoa_digits.
  - lia.
  - rewrite itoa_value by assumption. lia.
Qed.

Lemma string_length_app (s t : string) :
  String.length (s +:+ t) = (String.length s + String.length t)%nat.
Proof.
  induction s as [|c s IH]; [reflexivity|].
  rewrite string_app_cons. cbn [String.length]. rewrite IH. reflexivity.
Qed.

Lemma substring_all (s : string) : substring 0 (String.length s) s = s.
Proof.
  induction s as [|c s IH]; [reflexivity|].
  cbn [String.length substring]. rewrite IH. reflexivity.
Qed.

Lemma substring_suffix (s t : string) :
  substring (String.length s) (String.length t) (s +:+ t) = t.
Proof.
  induction s as [|c s IH].
  - apply substring_all.
  - rewrite string_app_cons. cbn [String.length substring]. exact IH.
Qed.

Lemma substring_prefix (s t : string) :
  substring 0 (String.length s) (s +:+ t) = s.
Proof.
  induction s as [|c s IH].
  - cbn [String.length]. destruct t; reflexivity.
  - rewrite string_app_cons. cbn [String.length substring]. rewrite IH.
    reflexivity.
Qed.

Lemma strings_TrimSuffix_app (s t : string) : strings_TrimSuffix (s +:+ t) t = s.
Proof.
  unfold strings_TrimSuffix. rewrite string_length_app.
  replace (String.length s + String.length t - String.length t)%nat
    with (String.length s) by lia.
  rewrite substring_suffix, String.eqb_refl.
  replace (String.length t <=? String.length s + String.length t)%nat
    with true by (symmetry; apply Nat.leb_le; lia).
  cbn [andb]. apply substring_prefix.
Qed.

(** A name made of digits and an extension that starts with its only
    dot has that extension. *)
Lemma path_Ext_digits (ds e : string) :
  all_digits ds -> path_Ext_scan e = ExtNone ->
  path_Ext (ds +:+ String "." e) = String "." e.
Proof.
  intros Hd He. unfold path_Ext.
  assert (H : path_Ext_scan (ds +:+ String "." e) = ExtFound (String "." e)).
  { induction ds as [|c ds IH].
    - rewrite string_app_nil. cbn [path_Ext_scan]. rewrite He. reflexivity.
    - destruct Hd as [Hc Hd]. rewrite string_app_cons. cbn [path_Ext_scan].
      rewrite (IH Hd). reflexivity. }
  rewrite H. reflexivity.
Qed.

Lemma name_offset_digits (ds e : string) :
  all_digits ds -> path_Ext_scan e = ExtNone ->
  name_offset (ds +:+ String "." e) = fst (ParseUint ds).
Proof.
  intros Hd He. unfold name_offset.
  rewrite path_Ext_digits, strings_TrimSuffix_app by assumption.
  reflexivity.
Qed.

(** [setup] reads back the base offset from both file names of a
    segment. *)
Lemma name_offset_storeName b :
  0 <= b < 2 ^ 64 -> name_offset (storeName b) = b.
Proof.
  intros H. unfold storeName.
  change ".store"%string with (String "." "store").
  rewrite name_offset_digits; [|apply itoa_digits|reflexivity].
  rewrite ParseUint_itoa by assumption. reflexivity.
Qed.

Lemma name_offset_indexName b :
  0 <= b < 2 ^ 64 -> name_offset (indexName b) = b.
Proof.
  intros H. unfold indexName.
  change ".index"%string with (String "." "index").
  rewrite name_offset_digits; [|apply itoa_digits|reflexivity].
  rewrite ParseUint_itoa by assumption. reflexivity.
Qed.

Lemma path_Ext_storeName b : path_Ext (storeName b) = ".store"%string.
Proof.
  unfold storeName. change ".store"%string with (String "." "store").
  apply path_Ext_digits; [apply itoa_digits | reflexivity].
Qed.

Lemma path_Ext_indexName b : path_Ext (indexName b) = ".index"%string.
Proof.
  unfold indexName. change ".index"%string with (String "." "index").
  apply path_Ext_digits; [apply itoa_digits | reflexivity].
Qed.

Lemma storeName_inj b b' :
  0 <= b < 2 ^ 64 -> 0 <= b' < 2 ^ 64 -> storeName b = storeName b' -> b = b'.
Proof.
  intros H H' E. apply (f_equal name_offset) in E.
  rewrite !name_offset_storeName in E by assumption. exact E.
Qed.

Lemma indexName_inj b b' :
  0 <= b < 2 ^ 64 -> 0 <= b' < 2 ^ 64 -> indexName b = indexName b' -> b = b'.
Proof.
  intros H H' E. apply (f_equal name_offset) in E.
  rewrite !name_offset_indexName in E by assumption. exact E.
Qed.

Lemma storeName_indexName b b' : storeName b <> indexName b'.
Proof.
  intros E. apply (f_equal path_Ext) in E.
  rewrite path_Ext_storeName, path_Ext_indexName in E. discriminate.
Qed.

(** ** The index *)

Lemma slice_ok lo hi m :
  0 <= lo <= hi -> hi <= len m ->
  slice lo hi m = Some (take (Z.to_nat (hi - lo)) (drop (Z.to_nat lo) m)).
Proof.
  intros H1 H2. unfold slice.
  replace (0 <=? lo) with true by (symmetry; apply Z.leb_le; lia).
  replace (lo <=? hi) with true by (symmetry; apply Z.leb_le; lia).
  replace (hi <=? len m) with true by (symmetry; apply Z.leb_le; lia).
  reflexivity.
Qed.

Lemma slice_Some lo hi m bs :
  slice lo hi m = Some bs -> 0 <= lo <= hi /\ hi <= len m.
Proof.
  unfold slice.
  destruct (0 <=? lo) eqn:E1; [|discriminate].
  destruct (lo <=? hi) eqn:E2; [|discriminate].
  destruct (hi <=? len m) eqn:E3; [|discriminate].
  intros _. apply Z.leb_le in E1, E2, E3. lia.
Qed.

Lemma put_entry_eq at_ off pos m :
  0 <= at_ -> at_ + entWidth <= len m -> at_ + entWidth < 2 ^ 64 ->
  put_entry at_ off pos m
  = take (Z.to_nat at_) m ++ be_bytes 4 off ++ be_bytes 8 pos
    ++ drop (Z.to_nat at_ + 12) m.
Proof.
  unfold entWidth, offWidth, posWidth, len. intros H0 H1 H2.
  unfold put_entry, overwrite, offWidth.
  rewrite wrap64_small by lia. rewrite !be_bytes_length.
  set (a := Z.to_nat at_).
  assert (Ha : (a + 12 <= length m)%nat) by lia.
  replace (Z.to_nat (at_ + 4)) with (a + 4)%nat by lia.
  assert (L1 : length (take a m) = a) by (rewrite length_take; lia).
  rewrite (app_assoc (take a m) (be_bytes 4 off)).
  assert (L2 : length (take a m ++ be_bytes 4 off) = (a + 4)%nat)
    by (rewrite length_app, L1, be_bytes_length; reflexivity).
  rewrite take_app_length' by (symmetry; exact L2).
  replace (a + 4 + 8)%nat with ((a + 4) + 8)%nat by lia.
  rewrite <- drop_drop.
  rewrite drop_app_length' by (symmetry; exact L2).
  rewrite drop_drop. rewrite <- app_assoc.
  replace (a + 4 + 8)%nat with (a + 12)%nat by lia.
  reflexivity.
Qed.

Lemma put_entry_length at_ off pos m :
  0 <= at_ -> at_ + entWidth <= len m -> at_ + entWidth < 2 ^ 64 ->
  length (put_entry at_ off pos m) = length m.
Proof.
  intros H0 H1 H2. rewrite put_entry_eq by assumption.
  unfold entWidth, offWidth, posWidth, len in *.
  rewrite !length_app, !be_bytes_length, length_take, length_drop. lia.
Qed.

Lemma put_entry_take at_ off pos m :
  0 <= at_ -> at_ + entWidth <= len m -> at_ + entWidth < 2 ^ 64 ->
  take (Z.to_nat at_) (put_entry at_ off pos m) = take (Z.to_nat at_) m.
Proof.
  intros H0 H1 H2. rewrite put_entry_eq by assumption.
  unfold entWidth, offWidth, posWidth, len in *.
  rewrite take_app_length'; [reflexivity|]. rewrite length_take. lia.
Qed.

Lemma get_put_entry at_ off pos m :
  0 <= at_ -> at_ + entWidth <= len m -> at_ + entWidth < 2 ^ 64 ->
  0 <= off < 2 ^ 32 -> 0 <= pos < 2 ^ 64 ->
  get_entry at_ (put_entry at_ off pos m) = (off, pos).
Proof.
  intros H0 H1 H2 Ho Hp. rewrite put_entry_eq by assumption.
  unfold get_entry, entWidth, offWidth, posWidth, len in *.
  set (a := Z.to_nat at_).
  assert (L1 : length (take a m) = a) by (rewrite length_take; lia).
  f_equal.
  - rewrite drop_app_length' by (symmetry; exact L1).
    rewrite take_app_length' by (symmetry; apply be_bytes_length).
    apply be_value_bytes4. assumption.
  - replace (Z.to_nat (at_ + 4)) with (a + 4)%nat by lia.
    rewrite (app_assoc (take a m)).
    rewrite drop_app_length'
        by (rewrite length_app, L1, be_bytes_length; reflexivity).
    rewrite take_app_length' by (symmetry; apply be_bytes_length).
    apply be_value_bytes8. assumption.
Qed.

(** [index.Write] with room left, by what backs the mapping. *)
Lemma index_Write_room off pos i :
  0 <= ix_size i -> ix_size i + entWidth <= len (ix_mmap i) ->
  ix_size i + entWidth < 2 ^ 64 ->
  index_Write off pos i
  = if backed (ix_size i + entWidth) i
    then Ret (None,
              mkIndex (ix_file i) (put_entry (ix_size i) off pos (ix_mmap i))
                      (ix_size i + entWidth))
    else Panic.
Proof.
  intros H0 H1 H2. unfold index_Write, put_entry.
  unfold entWidth, offWidth, posWidth in *.
  rewrite !wrap64_small by lia.
  replace (len (ix_mmap i) <? ix_size i + (4 + 8)) with false
    by (symmetry; apply Z.ltb_ge; lia).
  rewrite !slice_ok by lia. reflexivity.
Qed.

Lemma backed_open hi i : closed (ix_file i) = false -> backed hi i = true.
Proof. intros H. unfold backed. rewrite H. reflexivity. Qed.

(** [index.Write] with room left in a mapping that is backed. *)
Lemma index_Write_ok off pos i :
  0 <= ix_size i -> ix_size i + entWidth <= len (ix_mmap i) ->
  ix_size i + entWidth < 2 ^ 64 ->
  backed (ix_size i + entWidth) i = true ->
  index_Write off pos i
  = Ret (None, mkIndex (ix_file i) (put_entry (ix_size i) off pos (ix_mmap i))
                       (ix_size i + entWidth)).
Proof.
  intros H0 H1 H2 Hb. rewrite index_Write_room by assumption.
  rewrite Hb. reflexivity.
Qed.

(** What a returning [index.Write] did. *)
Lemma index_Write_inv off pos i e i' :
  index_Write off pos i = Ret (e, i') ->
  (e = Some EOF /\ i' = i /\ len (ix_mmap i) < wrap64 (ix_size i + entWidth))
  \/ (e = None /\ 0 <= ix_size i /\ ix_size i + entWidth <= len (ix_mmap i)
      /\ ix_size i + entWidth < 2 ^ 64
      /\ i' = mkIndex (ix_file i) (put_entry (ix_size i) off pos (ix_mmap i))
                      (ix_size i + entWidth)).
Proof.
  unfold index_Write.
  destruct (len (ix_mmap i) <? wrap64 (ix_size i + entWidth)) eqn:E.
  - intros [= <- <-]. left. apply Z.ltb_lt in E. auto.
  - apply Z.ltb_ge in E.
    destruct (slice (ix_size i) _ _) as [a|] eqn:S1; [|discriminate].
    destruct (slice (wrap64 (ix_size i + offWidth)) _ _) as [b|] eqn:S2;
      [|discriminate].
    apply slice_Some in S1 as [S1 S1']. apply slice_Some in S2 as [S2 S2'].
    unfold entWidth, offWidth, posWidth in *.
    pose proof (wrap64_range (ix_size i + 4)) as R1.
    pose proof (wrap64_range (ix_size i + (4 + 8))) as R2.
    assert (B : ix_size i + (4 + 8) < 2 ^ 64).
    { destruct (Z_lt_ge_dec (ix_size i + 4) (2 ^ 64)) as [L|G].
      - rewrite (wrap64_small (ix_size i + 4)) in * by lia.
        destruct (Z_lt_ge_dec (ix_size i + (4 + 8)) (2 ^ 64)) as [L'|G'];
          [assumption|].
        rewrite (wrap64_over (ix_size i + (4 + 8))) in * by lia. lia.
      - rewrite (wrap64_over (ix_size i + 4)) in * by lia. lia. }
    destruct (backed _ i); [|discriminate].
    intros H. right.
    rewrite (wrap64_small (ix_size i + (4 + 8))) in * by lia.
    injection H as <- <-. splits; try lia; reflexivity.
Qed.

(** [index.Read(k)] for an entry inside the used part. *)
Lemma index_Read_at k i :
  0 <= k < 2 ^ 32 -> entWidth * k + entWidth <= ix_size i ->
  ix_size i <= len (ix_mmap i) ->
  index_Read k i
  = Ret (fst (get_entry (entWidth * k) (ix_mmap i)),
         snd (get_entry (entWidth * k) (ix_mmap i)), None).
Proof.
  unfold entWidth, offWidth, posWidth. intros Hk Hs Hl.
  unfold index_Read, get_entry, entWidth, offWidth, posWidth.
  replace (ix_size i =? 0) with false by (symmetry; apply Z.eqb_neq; lia).
  replace (k =? -1) with false by (symmetry; apply Z.eqb_neq; lia).
  rewrite uint32_small by assumption.
  change (2 ^ 32) with 4294967296 in Hk.
  change (2 ^ 64) with 18446744073709551616.
  assert (W : forall z, 0 <= z < 18446744073709551616 -> wrap64 z = z)
    by (intros; apply wrap64_small; assumption).
  rewrite (W (k * (4 + 8))) by lia.
  rewrite !W by lia.
  replace (ix_size i <? k * (4 + 8) + (4 + 8)) with false
    by (symmetry; apply Z.ltb_ge; lia).
  rewrite !slice_ok by lia. cbn [fst snd].
  replace (k * (4 + 8) + 4 - k * (4 + 8)) with 4 by lia.
  replace (k * (4 + 8) + (4 + 8) - (k * (4 + 8) + 4)) with 8 by lia.
  replace ((4 + 8) * k) with (k * (4 + 8)) by lia.
  reflexivity.
Qed.

(** [index.Read(-1)] is the read of the last entry. *)
Lemma index_Read_last n i :
  0 < n <= 2 ^ 32 -> ix_size i = entWidth * n ->
  ix_size i <= len (ix_mmap i) ->
  index_Read (-1) i = index_Read (n - 1) i.
Proof.
  unfold entWidth, offWidth, posWidth. intros Hn Hs Hl.
  unfold index_Read, entWidth, offWidth, posWidth.
  replace (ix_size i =? 0) with false by (symmetry; apply Z.eqb_neq; lia).
  replace (-1 =? -1) with true by reflexivity.
  replace (n - 1 =? -1) with false by (symmetry; apply Z.eqb_neq; lia).
  rewrite Hs. replace ((4 + 8) * n) with (n * 12) by lia.
  rewrite Z.div_mul by lia.
  change (2 ^ 32) with 4294967296 in Hn.
  rewrite (wrap64_small (n - 1))
    by (change (2 ^ 64) with 18446744073709551616; lia).
  reflexivity.
Qed.

(** ** Reading from the store *)

Lemma File_ReadAt_ok f fs pre x post :
  closed f = false -> files fs !! Name f = Some (pre ++ x ++ post) ->
  File_ReadAt f (length x) (len pre) fs = (x, None).
Proof.
  intros Hc Hf. unfold File_ReadAt.
  replace (len pre <? 0) with false
    by (symmetry; apply Z.ltb_ge; apply len_nonneg).
  destruct (Nat.eqb_spec (length x) 0) as [E|E].
  - destruct x; [reflexivity | discriminate].
  - rewrite Hc, Hf. unfold len. rewrite Nat2Z.id.
    rewrite drop_app_length, take_app_length.
    replace (length x <? length x)%nat with false
      by (symmetry; apply Nat.ltb_ge; lia).
    reflexivity.
Qed.

(** After a flush on an open store the file holds the whole content. *)
Lemma bufio_Flush_open s fs d :
  st_err s = None -> closed (st_File s) = false ->
  files fs !! Name (st_File s) = Some d ->
  exists fs',
    bufio_Flush s fs = (None, mkStore (st_File s) [] None (st_size s), fs')
    /\ files fs' !! Name (st_File s) = Some (store_content fs s)
    /\ (forall n, n <> Name (st_File s) -> files fs' !! n = files fs !! n).
Proof.
  destruct s as [f b e sz]. cbn [st_err st_File st_buf st_size].
  intros -> Hc Hf. unfold bufio_Flush, store_content.
  cbn [st_err st_File st_buf st_size].
  rewrite (file_data_Some _ _ _ Hf).
  destruct b as [|x b].
  - exists fs. rewrite app_nil_r. splits; auto.
  - unfold File_Write. cbn [st_File]. rewrite Hc, Hf.
    exists (set_file (Name f) (d ++ x :: b) fs).
    splits; [reflexivity | apply files_set_file_eq |].
    intros n Hn. apply files_set_file_ne. congruence.
Qed.

(** [store.Read(pos)] at the start of a frame returns its payload. *)
Lemma store_Read_frame pos s fs d pre p post :
  st_err s = None -> closed (st_File s) = false ->
  files fs !! Name (st_File s) = Some d ->
  store_content fs s = pre ++ be_bytes 8 (len p) ++ p ++ post ->
  pos = len pre -> pos + lenWidth < 2 ^ 63 -> len p < 2 ^ 64 ->
  exists fs',
    store_Read pos s fs
    = ((p, None), mkStore (st_File s) [] None (st_size s), fs')
    /\ files fs' !! Name (st_File s) = Some (store_content fs s)
    /\ (forall n, n <> Name (st_File s) -> files fs' !! n = files fs !! n).
Proof.
  intros He Hc Hf Hcont -> Hpos Hp. unfold lenWidth in *.
  destruct (bufio_Flush_open s fs d He Hc Hf) as (fs' & HF & Hf' & Ho).
  exists fs'. split; [|split; assumption].
  unfold store_Read. rewrite HF. cbn [st_File].
  pose proof (len_nonneg pre) as Hn. pose proof (len_nonneg p) as Hn'.
  rewrite int64_small by lia.
  rewrite Hcont in Hf'.
  change 8%nat with (length (be_bytes 8 (len p))) at 1.
  rewrite (File_ReadAt_ok _ _ pre (be_bytes 8 (len p)) (p ++ post) Hc Hf').
  rewrite be_value_bytes8 by lia.
  unfold lenWidth. rewrite int64_small by lia.
  assert (Hf2 : files fs' !! Name (st_File s)
                = Some ((pre ++ be_bytes 8 (len p)) ++ p ++ post))
    by (rewrite Hf', <- app_assoc; reflexivity).
  replace (len pre + 8) with (len (pre ++ be_bytes 8 (len p)))
    by (rewrite len_app; unfold len at 2; rewrite be_bytes_length; lia).
  unfold len at 1. rewrite Nat2Z.id.
  rewrite (File_ReadAt_ok _ _ _ p post Hc Hf2). reflexivity.
Qed.

(** ** [newSegment] *)

Lemma OpenFile_ok name fs f fs' :
  OpenFile name fs = (inl f, fs') ->
  f = mkFile name false
  /\ files fs' !! name = Some (file_data fs name)
  /\ (forall n, n <> name -> files fs' !! n = files fs !! n)
  /\ (is_Some (files fs !! name) -> fs' = fs).
Proof.
  unfold OpenFile, file_data.
  destruct (files fs !! name) as [d|] eqn:E.
  - intros [= <- <-]. splits; auto.
  - destruct (decide _); [|discriminate].
    intros [= <- <-]. splits; auto.
    + apply files_set_file_eq.
    + intros n Hn. apply files_set_file_ne. congruence.
    + intros [x Hx]. discriminate.
Qed.

Lemma OpenFile_other name fs r fs' n :
  OpenFile name fs = (r, fs') -> n <> name ->
  files fs' !! n = files fs !! n.
Proof.
  unfold OpenFile. destruct (files fs !! name); [intros [= <- <-]; auto|].
  destruct (decide _); intros [= <- <-]; auto.
  intros Hn. apply files_set_file_ne. congruence.
Qed.

Lemma newIndex_ok f c fs ix fs' :
  newIndex f c fs = (inl ix, fs') ->
  exists d,
    files fs !! Name f = Some d
    /\ 0 <= int64 (MaxIndexBytes (Segment c))
    /\ ix = mkIndex f (resize (Z.to_nat (int64 (MaxIndexBytes (Segment c)))) d)
                    (len d)
    /\ ix_mmap ix <> []
    /\ fs' = set_file (Name f) (ix_mmap ix) fs.
Proof.
  unfold newIndex. destruct (files fs !! Name f) as [d|]; [|discriminate].
  destruct (int64 _ <? 0) eqn:E; [discriminate|]. apply Z.ltb_ge in E.
  destruct (resize _ d) as [|x m] eqn:R; [discriminate|].
  intros [= <- <-]. exists d. cbn [ix_mmap]. rewrite R.
  splits; auto; try discriminate.
Qed.

Lemma newIndex_other f c fs r fs' n :
  newIndex f c fs = (r, fs') -> n <> Name f ->
  files fs' !! n = files fs !! n.
Proof.
  unfold newIndex. destruct (files fs !! Name f); [|intros [= <- <-]; auto].
  destruct (int64 _ <? 0); [intros [= <- <-]; auto|].
  destruct (resize _ _); intros [= <- <-] Hn;
    apply files_set_file_ne; congruence.
Qed.

(** What a successful [newSegment] returns: handles on the two files
    of the base offset, the store as large as its file, the index as
    large as its file was and mapped at [MaxIndexBytes]. *)
Lemma newSegment_ok dir b c fs s fs' :
  newSegment dir b c fs = Ret (inl s, fs') ->
  let m := resize (Z.to_nat (int64 (MaxIndexBytes (Segment c))))
                  (file_data fs (indexName b)) in
  seg_store s = mkStore (mkFile (storeName b) false) [] None
                        (len (file_data fs (storeName b)))
  /\ seg_index s = mkIndex (mkFile (indexName b) false) m
                           (len (file_data fs (indexName b)))
  /\ baseOffset s = b /\ seg_config s = c
  /\ next_after b (seg_index s) = Some (nextOffset s)
  /\ m <> [] /\ 0 <= int64 (MaxIndexBytes (Segment c))
  /\ files fs' !! storeName b = Some (file_data fs (storeName b))
  /\ files fs' !! indexName b = Some m
  /\ (forall n, n <> storeName b -> n <> indexName b ->
                files fs' !! n = files fs !! n).
Proof.
  intros H m. unfold newSegment in H.
  destruct (OpenFile (storeName b) fs) as [[sf|e] fs1] eqn:O1; [|discriminate].
  apply OpenFile_ok in O1 as (-> & O1a & O1b & _).
  unfold newStore in H. cbn [Name] in H. rewrite O1a in H.
  destruct (OpenFile (indexName b) fs1) as [[xf|e] fs2] eqn:O2; [|discriminate].
  apply OpenFile_ok in O2 as (-> & O2a & O2b & _).
  destruct (newIndex _ c fs2) as [[ix|e] fs3] eqn:N; [|discriminate].
  apply newIndex_ok in N as (d & Nd & Nmax & -> & Nne & ->).
  cbn [Name ix_mmap] in *. rewrite O2a in Nd. injection Nd as <-.
  assert (Hsi : storeName b <> indexName b) by apply storeName_indexName.
  assert (Hfd : file_data fs1 (indexName b) = file_data fs (indexName b)).
  { unfold file_data. rewrite O1b by congruence. reflexivity. }
  rewrite Hfd in *. fold m in H, Nne |- *.
  assert (Hfiles :
    files (set_file (indexName b) m fs2) !! storeName b
      = Some (file_data fs (storeName b))
    /\ files (set_file (indexName b) m fs2) !! indexName b = Some m
    /\ (forall n, n <> storeName b -> n <> indexName b ->
          files (set_file (indexName b) m fs2) !! n = files fs !! n)).
  { splits.
    - rewrite files_set_file_ne by congruence.
      rewrite O2b by congruence. exact O1a.
    - apply files_set_file_eq.
    - intros n H1 H2. rewrite files_set_file_ne by congruence.
      rewrite O2b, O1b by congruence. reflexivity. }
  destruct Hfiles as (F1 & F2 & F3).
  unfold next_after.
  destruct (index_Read (-1) _) as [[[off pos] [e|]]|] eqn:R; [| |discriminate];
    injection H as <- <-; cbn [seg_store seg_index baseOffset nextOffset
                                 seg_config]; rewrite ?R; splits; auto.
Qed.

Lemma newSegment_other dir b c fs r fs' n :
  newSegment dir b c fs = Ret (r, fs') ->
  n <> storeName b -> n <> indexName b ->
  files fs' !! n = files fs !! n.
Proof.
  unfold newSegment. intros H H1 H2.
  destruct (OpenFile (storeName b) fs) as [[sf|e] fs1] eqn:O1;
    pose proof (OpenFile_other _ _ _ _ n O1 H1) as E1;
    [|injection H as <- <-; assumption].
  destruct (newStore sf fs1); [|injection H as <- <-; assumption].
  destruct (OpenFile (indexName b) fs1) as [[xf|e] fs2] eqn:O2;
    pose proof (OpenFile_other _ _ _ _ n O2 H2) as E2;
    [|injection H as <- <-; congruence].
  assert (Hxf : Name xf = indexName b).
  { apply OpenFile_ok in O2 as (-> & _). reflexivity. }
  destruct (newIndex xf c fs2) as [[ix|e] fs3] eqn:N;
    pose proof (newIndex_other _ _ _ _ _ n N ltac:(congruence)) as E3;
    [|injection H as <- <-; congruence].
  destruct (index_Read (-1) ix) as [[[off pos] [e|]]|]; [| |discriminate];
    injection H as <- <-; congruence.
Qed.

(** ** Well-formed segments and logs

    The invariants of the data model: a segment holds handles on the
    two open files named after its base offset, its store size is the
    size of what the store holds, its index has one entry per offset of
    [baseOffset .. nextOffset - 1]; a log lists its segments in
    ascending, non-overlapping order and appends to the last one. *)

Section Segments.

Variable Marshal : Record_ -> option (list byte).
Variable Unmarshal : list byte -> option Record_.

(** What a successful [segment.Append] did. *)
Lemma segment_Append_ok r s fs o s' fs' :
  segment_Append Marshal r s fs = Ret ((o, None), s', fs') ->
  exists p,
    Marshal (mkRecord (Value r) (nextOffset s)) = Some p
    /\ o = nextOffset s
    /\ baseOffset s' = baseOffset s
    /\ nextOffset s' = wrap64 (nextOffset s + 1)
    /\ seg_config s' = seg_config s
    /\ store_Append p (seg_store s) fs
       = ((len p + lenWidth, st_size (seg_store s), None), seg_store s', fs')
    /\ 0 <= ix_size (seg_index s)
    /\ ix_size (seg_index s) + entWidth <= len (ix_mmap (seg_index s))
    /\ ix_size (seg_index s) + entWidth < 2 ^ 64
    /\ seg_index s'
       = mkIndex (ix_file (seg_index s))
           (put_entry (ix_size (seg_index s))
              (uint32 (wrap64 (nextOffset s - baseOffset s)))
              (st_size (seg_store s)) (ix_mmap (seg_index s)))
           (ix_size (seg_index s) + entWidth).
Proof.
  unfold segment_Append.
  destruct (Marshal _) as [p|] eqn:M; [|discriminate].
  destruct (store_Append p (seg_store s) fs) as [[[[n pos] [e|]] st] fs1] eqn:A;
    [discriminate|].
  pose proof (store_Append_ok _ _ _ _ _ _ _ A) as (-> & -> & _).
  destruct (index_Write _ _ _) as [[[e|] ix]|] eqn:W; try discriminate.
  intros [= <- <- <-]. exists p.
  apply index_Write_inv in W as [(E & _)|(_ & W1 & W2 & W3 & ->)];
    [discriminate|].
  cbn [seg_store seg_index baseOffset nextOffset seg_config].
  splits; auto.
Qed.



End Segments.

(** ** [Log.Append] and the round trip *)

Section LogAppend.

Variable Marshal : Record_ -> option (list byte).
Variable Unmarshal : list byte -> option Record_.

Lemma Log_newSegment_ok off l w l' w' :
  Log_newSegment off l w = Ret (None, l', w') ->
  exists s fs',
    newSegment (Dir l) off (Config_ l) (w_fs w) = Ret (inl s, fs')
    /\ l' = mkLog (Dir l) (Config_ l) (Some (w_next w))
                  (segments l ++ [w_next w])
    /\ w' = mkWorld fs' (upd (w_next w) s (w_seg w)) (S (w_next w)).
Proof.
  unfold Log_newSegment.
  destruct (newSegment _ _ _ _) as [[[s|e] fs1]|]; try discriminate.
  intros [= <- <-]. eauto.
Qed.

Lemma Log_newSegment_err off l w e l' w' :
  Log_newSegment off l w = Ret (Some e, l', w') ->
  l' = l /\ w_seg w' = w_seg w /\ w_next w' = w_next w.
Proof.
  unfold Log_newSegment.
  destruct (newSegment _ _ _ _) as [[[s|e1] fs1]|]; try discriminate.
  intros [= <- <- <-]. auto.
Qed.

(** The two ways a [Log.Append] succeeds: in place, or with a rollover
    after the append. *)
Lemma Log_Append_ok r l w o l' w' :
  Log_Append Marshal r l w = Ret ((o, None), l', w') ->
  exists a s fs1,
    activeSegment l = Some a
    /\ segment_Append Marshal r (w_seg w a) (w_fs w) = Ret ((o, None), s, fs1)
    /\ let w1 := mkWorld fs1 (upd a s (w_seg w)) (w_next w) in
       (IsMaxed s = false /\ l' = l /\ w' = w1)
       \/ (IsMaxed s = true
           /\ Log_newSegment (wrap64 (o + 1)) l w1 = Ret (None, l', w')).
Proof.
  unfold Log_Append. destruct (activeSegment l) as [a|]; [|discriminate].
  destruct (segment_Append Marshal r (w_seg w a) (w_fs w))
    as [[[[o1 [e|]] s] fs1]|] eqn:A; try discriminate.
  destruct (IsMaxed s) eqn:M.
  - destruct (Log_newSegment _ _ _) as [[[e l2] w2]|] eqn:N; [|discriminate].
    intros [= <- -> <- <-]. exists a, s, fs1. splits; auto.
  - intros [= <- <- <-]. exists a, s, fs1. splits; auto.
Qed.



End LogAppend.

(** ** Logs opened on an empty directory *)

Lemma absent_is_Some fs fs' :
  (forall m, absent m fs -> absent m fs') ->
  forall m, is_Some (files fs' !! m) -> is_Some (files fs !! m).
Proof.
  intros H m [d Hd]. destruct (files fs !! m) eqn:E; [eauto|].
  apply H in E. unfold absent in E. congruence.
Qed.

Lemma names_below_mono fs hi hi' :
  names_below fs hi -> hi <= hi' -> names_below fs hi'.
Proof.
  intros H Hle name Hn. destruct (H name Hn) as (b & Hb & Hname).
  exists b. split; [lia | assumption].
Qed.

Lemma names_below_absent fs hi b :
  names_below fs hi -> hi < b < 2 ^ 64 ->
  absent (storeName b) fs /\ absent (indexName b) fs.
Proof.
  intros H Hb. unfold absent. split.
  - destruct (files fs !! storeName b) eqn:E; [|reflexivity].
    destruct (H (storeName b)) as (b' & Hb' & [E'|E']); [eauto| |].
    + apply storeName_inj in E'; lia.
    + exfalso. eapply storeName_indexName; eauto.
  - destruct (files fs !! indexName b) eqn:E; [|reflexivity].
    destruct (H (indexName b)) as (b' & Hb' & [E'|E']); [eauto| |].
    + exfalso. eapply storeName_indexName; eauto.
    + apply indexName_inj in E'; lia.
Qed.

(** A segment created on two absent files is empty and starts at its
    base offset. *)
Lemma newSegment_fresh dir b c fs s fs' :
  newSegment dir b c fs = Ret (inl s, fs') ->
  absent (storeName b) fs -> absent (indexName b) fs ->
  baseOffset s = b /\ nextOffset s = b /\ seg_config s = c
  /\ st_size (seg_store s) = 0 /\ ix_size (seg_index s) = 0
  /\ (forall name, is_Some (files fs' !! name) ->
        is_Some (files fs !! name)
        \/ name = storeName b \/ name = indexName b).
Proof.
  intros H As Ai. apply newSegment_ok in H.
  cbv zeta in H. destruct H as (Hst & Hix & Hb & Hc & Hn & _ & _ & _ & _ & Ho).
  unfold file_data in *. unfold absent in *. rewrite As in Hst. rewrite Ai in Hix.
  cbn [default from_option id] in *.
  unfold next_after, index_Read in Hn. rewrite Hix in Hn.
  cbn [ix_size] in Hn. change (len (@nil byte) =? 0) with true in Hn.
  cbn iota in Hn. injection Hn as Hn.
  rewrite Hst, Hix. cbn [st_size ix_size]. splits; auto.
  intros name Hname.
  destruct (decide (name = storeName b)) as [->|N1]; [auto|].
  destruct (decide (name = indexName b)) as [->|N2]; [auto|].
  left. rewrite <- Ho by assumption. exact Hname.
Qed.

Section FreshLogs.

Variable Marshal : Record_ -> option (list byte).

Lemma segment_Append_names r s fs res s' fs' :
  segment_Append Marshal r s fs = Ret (res, s', fs') ->
  forall m, absent m fs -> absent m fs'.
Proof.
  unfold segment_Append.
  destruct (Marshal _) as [p|]; [|intros [= <- <- <-]; auto].
  destruct (store_Append p (seg_store s) fs) as [[[[n pos] e] st] fs1] eqn:A.
  apply store_Append_frame in A as (_ & _ & A & _).
  destruct e as [e|]; [intros [= <- <- <-]; auto|].
  destruct (index_Write _ _ _) as [[[e|] ix]|]; try discriminate;
    intros [= <- <- <-]; auto.
Qed.

(** One successful append on such a log returns [i0 + k] and, unless
    the counter wraps, leaves a log of the same kind with [k + 1]. *)
Lemma fresh_inv_step i0 k r l w o l' w' :
  fresh_inv i0 k l w -> 0 <= i0 -> 0 <= k ->
  Log_Append Marshal r l w = Ret ((o, None), l', w') ->
  o = i0 + k /\ (i0 + k + 1 < 2 ^ 64 -> fresh_inv i0 (k + 1) l' w').
Proof.
  intros (a & Ha & Hn & Hm & Hc & Hms & Hmi & Hnames) Hi0 Hk HA.
  apply Log_Append_ok in HA as (a' & s & fs1 & Ha' & HS & HA).
  rewrite Ha in Ha'. injection Ha' as <-.
  pose proof (segment_Append_ok _ _ _ _ _ _ _ HS)
    as (p & _ & -> & Hb & Hn' & Hc' & _).
  split; [assumption|]. intros Hlim.
  rewrite Hn in Hn'. rewrite wrap64_small in Hn' by lia.
  assert (Hnames1 : names_below fs1 (i0 + k)).
  { intros name Hname. apply Hnames.
    eapply absent_is_Some; [|exact Hname].
    eapply segment_Append_names; eauto. }
  cbv zeta in HA. destruct HA as [(HM & -> & ->)|(HM & HN)].
  - exists a. cbn [w_seg w_fs]. rewrite upd_eq.
    splits; auto; try congruence.
    + lia.
    + eapply names_below_mono; [exact Hnames1 | lia].
  - apply Log_newSegment_ok in HN as (sn & fs2 & HNS & -> & ->).
    cbn [w_fs w_seg w_next Dir Config_ activeSegment] in *.
    rewrite Hn, wrap64_small in HNS by lia.
    destruct (names_below_absent fs1 (i0 + k) (i0 + k + 1) Hnames1)
      as [As Ai]; [lia|].
    apply newSegment_fresh in HNS as (B1 & B2 & B3 & B4 & B5 & B6);
      try assumption.
    exists (w_next w). cbn [w_seg w_fs activeSegment Config_]. rewrite upd_eq.
    splits; auto.
    + lia.
    + unfold IsMaxed. rewrite B3, B4, B5.
      replace (MaxStoreBytes (Segment (Config_ l)) <=? 0) with false
        by (symmetry; apply Z.leb_gt; lia).
      replace (MaxIndexBytes (Segment (Config_ l)) <=? 0) with false
        by (symmetry; apply Z.leb_gt; lia).
      reflexivity.
    + intros name Hname. destruct (B6 name Hname) as [H|[->| ->]].
      * destruct (Hnames1 name H) as (b & Hb' & Hnm). exists b.
        split; [lia | assumption].
      * exists (i0 + k + 1). split; [lia | auto].
      * exists (i0 + k + 1). split; [lia | auto].
Qed.

(** [NewLog] on an empty directory gives such a log, with [k = 0]. *)
Lemma NewLog_fresh dir c w0 l w :
  files (w_fs w0) = ∅ ->
  0 <= InitialOffset (Segment c) < 2 ^ 64 ->
  0 <= MaxStoreBytes (Segment c) -> 0 <= MaxIndexBytes (Segment c) ->
  NewLog dir c w0 = Ret (None, l, w) ->
  fresh_inv (InitialOffset (Segment c)) 0 l w
  /\ segments l = [w_next w0] /\ Config_ l = withDefaults c
  /\ baseOffset (w_seg w (w_next w0)) = InitialOffset (Segment c).
Proof.
  intros Hempty Hi0 Hms Hmi. unfold NewLog. fold (withDefaults c).
  unfold Log_setup, ReadDir. rewrite Hempty, map_to_list_empty.
  change (merge_sort Z.le (map name_offset ([] : list (string * list byte)).*1))
    with (@nil Z).
  cbn [setup_loop segments InitialOffset Segment Config_ withDefaults].
  intros H. apply Log_newSegment_ok in H as (s & fs' & HNS & -> & ->).
  cbn [Dir Config_ segments app w_fs w_seg w_next activeSegment] in *.
  assert (Hab : forall n, absent n (w_fs w0))
    by (intros n; unfold absent; rewrite Hempty; apply lookup_empty).
  apply newSegment_fresh in HNS as (B1 & B2 & B3 & B4 & B5 & B6); auto.
  cbn [InitialOffset Segment withDefaults] in *.
  split; [|rewrite upd_eq; auto].
  exists (w_next w0). cbn [activeSegment w_seg w_fs Config_]. rewrite upd_eq.
  assert (D1 : 0 < MaxStoreBytes (Segment (withDefaults c))).
  { unfold withDefaults. cbn [MaxStoreBytes Segment].
    destruct (MaxStoreBytes (Segment c) =? 0) eqn:E; [lia|].
    apply Z.eqb_neq in E. lia. }
  assert (D2 : 0 < MaxIndexBytes (Segment (withDefaults c))).
  { unfold withDefaults. cbn [MaxIndexBytes Segment].
    destruct (MaxIndexBytes (Segment c) =? 0) eqn:E; [lia|].
    apply Z.eqb_neq in E. lia. }
  splits; auto.
  - lia.
  - unfold IsMaxed. rewrite B3, B4, B5.
    replace (MaxStoreBytes (Segment (withDefaults c)) <=? 0) with false
      by (symmetry; apply Z.leb_gt; lia).
    replace (MaxIndexBytes (Segment (withDefaults c)) <=? 0) with false
      by (symmetry; apply Z.leb_gt; lia).
    reflexivity.
  - intros name Hname. destruct (B6 name Hname) as [H|[->| ->]].
    + destruct H as [d Hd]. rewrite (Hab name) in Hd. discriminate.
    + exists (InitialOffset (Segment c)). split; [lia | auto].
    + exists (InitialOffset (Segment c)). split; [lia | auto].
Qed.

End FreshLogs.

Lemma StronglySorted_seqZ m n : StronglySorted Z.lt (seqZ m n).
Proof.
  destruct (Z_le_gt_dec n 0) as [H|H].
  - rewrite seqZ_nil by assumption. constructor.
  - rewrite <- (Z2Nat.id n) by lia. generalize (Z.to_nat n). clear H n.
    intros n. revert m. induction n as [|n IH]; intros m.
    + rewrite seqZ_nil by lia. constructor.
    + rewrite seqZ_cons by lia. constructor.
      * replace (Z.pred (Z.of_nat (S n))) with (Z.of_nat n) by lia. apply IH.
      * apply Forall_seqZ. intros. lia.
Qed.

Section Offsets.

Variable Marshal : Record_ -> option (list byte).

Lemma fresh_inv_appends rs : forall i0 k l w outs l' w',
  fresh_inv i0 k l w -> 0 <= i0 -> 0 <= k ->
  i0 + k + len rs <= 2 ^ 64 ->
  Log_Appends Marshal rs l w = Ret (outs, l', w') ->
  all_ok outs ->
  outs.*1 = seqZ (i0 + k) (len rs)
  /\ (i0 + k + len rs < 2 ^ 64 -> fresh_inv i0 (k + len rs) l' w').
Proof.
  induction rs as [|r rs IH]; intros i0 k l w outs l' w' Hinv Hi0 Hk Hlim.
  - cbn [Log_Appends]. intros [= <- <- <-] _. split; [reflexivity|].
    intros _. change (len (@nil Record_)) with 0.
    replace (k + 0) with k by lia. assumption.
  - cbn [Log_Appends].
    destruct (Log_Append Marshal r l w) as [[[[o e] l1] w1]|] eqn:A;
      [|discriminate].
    destruct (Log_Appends Marshal rs l1 w1) as [[[os l2] w2]|] eqn:As;
      [|discriminate].
    intros [= <- <- <-] Hok. inversion Hok as [|? ? He Hok']; subst.
    cbn [snd] in He. subst e.
    destruct (fresh_inv_step Marshal _ _ _ _ _ _ _ _ Hinv Hi0 Hk A)
      as [-> Hnext].
    assert (Hlen : len (r :: rs) = 1 + len rs)
      by (unfold len; cbn [length]; lia).
    pose proof (len_nonneg rs) as Hrs.
    rewrite Hlen in *. rewrite fmap_cons. cbn [fst].
    rewrite seqZ_cons by lia.
    replace (Z.pred (1 + len rs)) with (len rs) by lia.
    destruct rs as [|r2 rs'].
    + cbn [Log_Appends] in As. injection As as <- <- <-.
      change (len (@nil Record_)) with 0 in *.
      rewrite seqZ_nil by lia. split; [reflexivity|].
      intros H. replace (k + (1 + 0)) with (k + 1) by lia. apply Hnext. lia.
    + assert (Hpos : 0 < len (r2 :: rs'))
        by (unfold len; cbn [length]; lia).
      specialize (Hnext ltac:(lia)).
      destruct (IH i0 (k + 1) l1 w1 os l2 w2 Hnext Hi0 ltac:(lia)
                  ltac:(lia) As Hok') as [E Hinv'].
      split.
      * rewrite E. f_equal. f_equal. lia.
      * intros H. replace (k + (1 + len (r2 :: rs')))
          with (k + 1 + len (r2 :: rs')) by lia.
        apply Hinv'. lia.
Qed.

(** C2, as amended.  On a log opened against an empty directory, as
    long as the 64-bit counter does not wrap ([i0 + n <= 2^64] for [n]
    appends), the offsets returned by successful appends are
    [i0, i0 + 1, ..., i0 + n - 1] in call order, hence strictly
    increasing. *)
Theorem C2_offsets_consecutive (dir : string) (c : Config) (w0 : World)
    (rs : list Record_) (l0 : Log) (w1 : World)
    (outs : list (Z * option error)) (l : Log) (w : World) :
  files (w_fs w0) = ∅ ->
  Config_typed c ->
  InitialOffset (Segment c) + len rs <= 2 ^ 64 ->
  NewLog dir c w0 = Ret (None, l0, w1) ->
  Log_Appends Marshal rs l0 w1 = Ret (outs, l, w) ->
  all_ok outs ->
  outs.*1 = seqZ (InitialOffset (Segment c)) (len rs)
  /\ StronglySorted Z.lt (outs.*1).
Proof.
  intros Hempty (Hms & Hmi & Hi0) Hlim HN HA Hok.
  destruct (NewLog_fresh dir c w0 l0 w1 Hempty Hi0 ltac:(lia) ltac:(lia) HN)
    as (Hinv & _).
  destruct (fresh_inv_appends rs _ 0 _ _ _ _ _ Hinv ltac:(lia) ltac:(lia)
              ltac:(lia) HA Hok) as [E _].
  rewrite Z.add_0_r in E. rewrite E.
  split; [reflexivity | apply StronglySorted_seqZ].
Qed.

(** C6, as amended.  After a successful append, a maxed active segment
    is followed by a new segment at [o + 1] (in 64-bit arithmetic),
    added to the list and made active; a segment that is not maxed
    stays active.  On a log opened against an empty directory whose
    appends all succeeded, the active segment is therefore never maxed
    when the next append is delegated to it.  (After a failed append
    the log keeps delegating to the same segment, maxed or not.) *)
Theorem C6_rollover_after_append :
  (forall r l w o l' w',
     Log_Append Marshal r l w = Ret ((o, None), l', w') ->
     exists a s fs1,
       activeSegment l = Some a
       /\ segment_Append Marshal r (w_seg w a) (w_fs w)
          = Ret ((o, None), s, fs1)
       /\ if IsMaxed s
          then segments l' = segments l ++ [w_next w]
               /\ activeSegment l' = Some (w_next w)
               /\ baseOffset (w_seg w' (w_next w)) = wrap64 (o + 1)
               /\ w_next w' = S (w_next w)
          else l' = l /\ w_seg w' a = s)
  /\ (forall dir c w0 rs l0 w1 outs l w,
        files (w_fs w0) = ∅ ->
        Config_typed c ->
        InitialOffset (Segment c) + len rs < 2 ^ 64 ->
        NewLog dir c w0 = Ret (None, l0, w1) ->
        Log_Appends Marshal rs l0 w1 = Ret (outs, l, w) ->
        all_ok outs ->
        exists a, activeSegment l = Some a /\ IsMaxed (w_seg w a) = false).
Proof.
  split.
  - intros r l w o l' w' HA.
    apply Log_Append_ok in HA as (a & s & fs1 & Ha & HS & HA).
    exists a, s, fs1. split; [assumption|]. split; [assumption|].
    cbv zeta in HA. destruct HA as [(HM & -> & ->)|(HM & HN)]; rewrite HM.
    + cbn [w_seg]. rewrite upd_eq. auto.
    + apply Log_newSegment_ok in HN as (sn & fs2 & HNS & -> & ->).
      cbn [segments activeSegment w_seg w_next]. rewrite upd_eq.
      apply newSegment_ok in HNS. cbv zeta in HNS.
      destruct HNS as (_ & _ & Hb & _). auto.
  - intros dir c w0 rs l0 w1 outs l w Hempty (Hms & Hmi & Hi0) Hlim HN HA Hok.
    destruct (NewLog_fresh dir c w0 l0 w1 Hempty Hi0 ltac:(lia) ltac:(lia) HN)
      as (Hinv & _).
    destruct (fresh_inv_appends rs _ 0 _ _ _ _ _ Hinv ltac:(lia) ltac:(lia)
                ltac:(lia) HA Hok) as [_ Hinv'].
    destruct (Hinv' ltac:(lia)) as (a & Ha & _ & Hm & _). eauto.
Qed.

End Offsets.

(** ** Errors of [Log.Append] *)

Section AppendErrors.

Variable Marshal : Record_ -> option (list byte).
Variable Unmarshal : list byte -> option Record_.

Lemma Log_Read_out_of_range off l w :
  read_result (Log_Read Unmarshal off l w)
    = Some (inr (ErrOffsetOutOfRange off))
  <-> find_segment off l w = None.
Proof.
  unfold Log_Read. destruct (find_segment off l w) as [p|].
  - split; [|discriminate]. intros H. exfalso.
    destruct (segment_Read Unmarshal off (w_seg w p) (w_fs w))
      as [[[r s] fs1]|] eqn:R; cbn [read_result] in H; [|discriminate].
    injection H as ->.
    eapply segment_Read_not_out_of_range; [exact R | reflexivity].
  - split; reflexivity.
Qed.

Lemma find_segment_ext off l w w' :
  (forall p, baseOffset (w_seg w' p) = baseOffset (w_seg w p)
             /\ nextOffset (w_seg w' p) = nextOffset (w_seg w p)) ->
  find_segment off l w' = find_segment off l w.
Proof.
  intros H. unfold find_segment.
  induction (segments l) as [|p ps IH]; [reflexivity|].
  cbn [List.find]. unfold covers at 1 3.
  destruct (H p) as [-> ->]. rewrite IH. reflexivity.
Qed.

End AppendErrors.

(** ** The orphan frame of a full index *)



Lemma store_ReadAll_open s fs :
  store_open fs s ->
  exists fs',
    store_ReadAll s fs
    = ((store_content fs s, None), mkStore (st_File s) [] None (st_size s), fs')
    /\ files fs' !! Name (st_File s) = Some (store_content fs s)
    /\ (forall n, n <> Name (st_File s) -> files fs' !! n = files fs !! n).
Proof.
  intros (He & Hc & [d Hd]).
  destruct (bufio_Flush_open s fs d He Hc Hd) as (fs' & F & Hf & Ho).
  exists fs'. unfold store_ReadAll. rewrite F. cbn [st_File].
  rewrite Hc, Hf. auto.
Qed.

(** The stream of [Reader] is the concatenation of what the stores
    hold, in the order of the list. *)
Lemma Reader_loop_ok : forall ps acc w,
  stores_readable ps w ->
  exists w',
    Reader_loop ps acc w
    = ((acc ++ concat (map (fun p => store_content (w_fs w)
                                       (seg_store (w_seg w p))) ps),
        None), w').
Proof.
  induction ps as [|p ps IH]; intros acc w [Hopen Hnd].
  - exists w. cbn [Reader_loop map concat]. rewrite app_nil_r. reflexivity.
  - inversion Hopen as [|? ? Hp Hps]; subst.
    cbn [map] in Hnd. apply NoDup_cons in Hnd as [Hnin Hnd].
    cbn [Reader_loop].
    destruct (store_ReadAll_open _ _ Hp) as (fs' & R & Hf & Ho).
    rewrite R. cbn [st_File].
    set (s' := mkSegment _ _ _ _ _).
    set (w1 := mkWorld fs' (upd p s' (w_seg w)) (w_next w)).
    assert (Hq : forall q, q ∈ ps ->
              q <> p
              /\ Name (st_File (seg_store (w_seg w q)))
                 <> Name (st_File (seg_store (w_seg w p)))).
    { intros q Hq.
      assert (N : Name (st_File (seg_store (w_seg w q)))
                  <> Name (st_File (seg_store (w_seg w p)))).
      { intros E. apply Hnin. rewrite <- E.
        apply (list_elem_of_fmap_2
                 (fun p => Name (st_File (seg_store (w_seg w p))))).
        exact Hq. }
      split; [|exact N]. intros ->. apply N. reflexivity. }
    assert (Hsame : forall q, q ∈ ps ->
              w_seg w1 q = w_seg w q
              /\ store_content (w_fs w1) (seg_store (w_seg w1 q))
                 = store_content (w_fs w) (seg_store (w_seg w q))).
    { intros q Hqin. destruct (Hq q Hqin) as [N1 N2].
      assert (E : w_seg w1 q = w_seg w q) by (apply upd_ne; exact N1).
      split; [exact E|]. rewrite E. unfold store_content, file_data.
      cbn [w_fs w1]. rewrite Ho by exact N2. reflexivity. }
    destruct (IH (acc ++ store_content (w_fs w) (seg_store (w_seg w p))) w1)
      as (w' & HR).
    { split.
      - apply Forall_forall. intros q Hqin.
        destruct (Hsame q Hqin) as [E _]. rewrite E.
        rewrite Forall_forall in Hps. destruct (Hps q Hqin) as (A & B & C).
        destruct (Hq q Hqin) as [_ N2].
        unfold store_open. cbn [w_fs w1]. rewrite Ho by exact N2. auto.
      - erewrite map_ext_in; [exact Hnd|].
        intros q Hqin. apply list_elem_of_In in Hqin.
        destruct (Hsame q Hqin) as [E _]. rewrite E. reflexivity. }
    exists w'. rewrite HR. f_equal. f_equal.
    cbn [map concat]. rewrite <- app_assoc. f_equal. f_equal. f_equal.
    apply map_ext_in. intros q Hqin. apply list_elem_of_In in Hqin.
    destruct (Hsame q Hqin) as [_ E]. exact E.
Qed.

Lemma NoDup_map_inj {A B} (f : A -> B) (l : list A) x y :
  NoDup (map f l) -> x ∈ l -> y ∈ l -> f x = f y -> x = y.
Proof.
  induction l as [|z l IH]; intros Hnd Hx Hy E.
  - inversion Hx.
  - cbn [map] in Hnd. apply NoDup_cons in Hnd as [Hnin Hnd].
    apply elem_of_cons in Hx as [->|Hx]; apply elem_of_cons in Hy as [->|Hy].
    + reflexivity.
    + exfalso. apply Hnin. rewrite E.
      apply (list_elem_of_fmap_2 f). exact Hy.
    + exfalso. apply Hnin. rewrite <- E.
      apply (list_elem_of_fmap_2 f). exact Hx.
    + apply IH; assumption.
Qed.




Section OrphanFrame.

Variable Marshal : Record_ -> option (list byte).



End OrphanFrame.

(** ** Truncating the whole log *)

Section TruncateAll.

Variable Marshal : Record_ -> option (list byte).
Variable Unmarshal : list byte -> option Record_.

Lemma filter_none (P : nat -> Prop) `{forall x, Decision (P x)} (l : list nat) :
  Forall (fun x => ~ P x) l -> filter P l = [].
Proof.
  induction l as [|x l IH]; intros Hl; [reflexivity|].
  inversion Hl; subst. rewrite filter_cons_False by assumption. auto.
Qed.

(** A new segment never covers the offset before its base. *)
Lemma newSegment_not_covering dir o c fs s fs' :
  newSegment dir (wrap64 (o + 1)) c fs = Ret (inl s, fs') ->
  covers o s = false.
Proof.
  intros H. apply newSegment_ok in H. cbv zeta in H.
  destruct H as (_ & _ & Hb & _ & Hn & _).
  unfold covers. rewrite Hb.
  pose proof (wrap64_range (o + 1)) as Rb.
  unfold next_after in Hn.
  destruct (index_Read (-1) (seg_index s)) as [[[off pos] [e|]]|];
    [| |discriminate]; injection Hn as Hn; rewrite <- Hn.
  - destruct (wrap64 (o + 1) <=? o) eqn:E1; [|reflexivity].
    apply Z.leb_le in E1. cbn [andb]. apply Z.ltb_ge. lia.
  - pose proof (wrap64_range (wrap64 (o + 1) + off + 1)) as Rn.
    destruct (wrap64 (o + 1) <=? o) eqn:E1; [|reflexivity].
    apply Z.leb_le in E1. cbn [andb]. apply Z.ltb_ge.
    destruct (Z_lt_ge_dec o (2 ^ 64 - 1)) as [L|G]; [|lia].
    rewrite (wrap64_small (o + 1)) in E1 by lia. lia.
Qed.

(** C10.  [Log.Truncate] assigns [l.segments] and no other field of the
    log: [activeSegment] is what it was.  When the truncation removes
    every segment, the active segment among them, the list is empty
    and [activeSegment] still points to the removed segment, whose
    files are closed and deleted.  The next [Log.Append] is the append
    of that segment.  With the frame fitting the write buffer and a
    free slot in the index, it returns the segment's next offset when
    the slot lies in the last page of the index file as [Close] cut
    it, and it faults in the mapping when the slot lies past that page
    (as for an index without entries).  After any append that returns
    an offset [o] without error, [Log.Read(o)] is out of range; unless
    the append rolled over, the segment list is still empty. *)
Theorem C10_truncate_keeps_active_segment (k : Z) (l : Log) (w : World)
    (e : option io_error) (l' : Log) (w' : World) :
  Log_Truncate k l w = (e, l', w') ->
  (Dir l' = Dir l /\ Config_ l' = Config_ l
   /\ activeSegment l' = activeSegment l)
  /\ forall a,
       e = None ->
       Forall (fun p => nextOffset (w_seg w p) <= wrap64 (k + 1)) (segments l) ->
       activeSegment l = Some a -> a ∈ segments l ->
       segments l' = []
       /\ removed (w_seg w' a) (w_fs w')
       /\ same_data (w_seg w a) (w_seg w' a)
       /\ (forall r p,
             Marshal (mkRecord (Value r) (nextOffset (w_seg w a))) = Some p ->
             lenWidth + len p <= defaultBufSize ->
             0 <= ix_size (seg_index (w_seg w a)) ->
             ix_size (seg_index (w_seg w a)) + entWidth
               <= len (ix_mmap (seg_index (w_seg w a))) ->
             ix_size (seg_index (w_seg w a)) + entWidth < 2 ^ 64 ->
             if ix_size (seg_index (w_seg w a)) + entWidth
                <=? page_end (ix_size (seg_index (w_seg w a)))
             then
               exists s2,
                 segment_Append Marshal r (w_seg w' a) (w_fs w')
                 = Ret ((nextOffset (w_seg w a), None), s2, w_fs w')
                 /\ (IsMaxed s2 = false ->
                     Log_Append Marshal r l' w'
                     = Ret ((nextOffset (w_seg w a), None), l',
                            mkWorld (w_fs w') (upd a s2 (w_seg w'))
                                    (w_next w')))
             else
               segment_Append Marshal r (w_seg w' a) (w_fs w') = Panic
               /\ Log_Append Marshal r l' w' = Panic)
       /\ (forall r o l2 w2,
             Log_Append Marshal r l' w' = Ret ((o, None), l2, w2) ->
             o = nextOffset (w_seg w a)
             /\ read_result (Log_Read Unmarshal o l2 w2)
                = Some (inr (ErrOffsetOutOfRange o))
             /\ (segments l2 = [] \/ segments l2 = [w_next w'])).
Proof.
  unfold Log_Truncate.
  destruct (Log_Truncate_loop k (segments l) [] w) as [[e1|kept] w1] eqn:HL;
    intros [= <- <- <-].
  - split; [auto|]. intros a He. discriminate.
  - cbn [Dir Config_ activeSegment segments]. split; [auto|].
    intros a _ Hall Ha Hain.
    pose proof (Truncate_loop_frame _ _ _ _ _ _ HL) as (F1 & _ & F3 & _).
    pose proof (Truncate_loop_ok _ _ _ _ _ _ HL) as (K1 & K2 & _).
    rewrite filter_none in K1.
    2: { eapply Forall_impl; [exact Hall|]. intros p Hp. cbv beta in *. lia. }
    cbn [app] in K1. subst kept.
    rewrite Forall_forall in Hall.
    pose proof (K2 a Hain (Hall a Hain)) as Hrem.
    pose proof (F3 a) as Hsame.
    destruct Hsame as (S1 & S2 & S3 & S4 & S5 & S6 & S7 & S8).
    destruct Hrem as (R1 & R2 & R3 & R4 & R5 & R6).
    assert (Hrem : removed (w_seg w1 a) (w_fs w1))
      by (unfold removed; splits; auto).
    assert (Hsame : same_data (w_seg w a) (w_seg w1 a))
      by (unfold same_data; splits; auto).
    split; [reflexivity|]. split; [exact Hrem|]. split; [exact Hsame|].
    split.
    + intros r p HM Hfit I0 I1 I2.
      rewrite <- S4 in HM. rewrite <- S7 in I0, I1, I2 |- *.
      rewrite <- S8 in I1.
      unfold Log_Append. cbn [activeSegment]. rewrite Ha.
      unfold segment_Append. rewrite HM.
      rewrite store_Append_buffered;
        [|assumption|rewrite R5; unfold len in *; cbn [length]; plia].
      rewrite index_Write_room by assumption.
      unfold backed. rewrite R2. cbn [negb orb].
      destruct (_ <=? page_end _); [|split; reflexivity].
      rewrite S4. eexists. split; [reflexivity|].
      intros Hmax. rewrite Hmax. reflexivity.
    + intros r o l2 w2 HA.
      apply Log_Append_ok in HA as (a' & s & fs1 & Ha' & HS & HA).
      cbn [activeSegment] in Ha'. rewrite Ha in Ha'. injection Ha' as <-.
      pose proof (segment_Append_ok _ _ _ _ _ _ _ HS) as (_ & _ & -> & _).
      split; [assumption|]. rewrite S4.
      cbv zeta in HA. destruct HA as [(_ & -> & ->)|(_ & HN)].
      * split; [|left; reflexivity].
        apply Log_Read_out_of_range. reflexivity.
      * apply Log_newSegment_ok in HN as (sn & fs2 & HNS & -> & ->).
        cbn [segments app w_next Dir Config_ w_fs] in *.
        split; [|right; reflexivity].
        apply Log_Read_out_of_range. unfold find_segment.
        cbn [segments List.find w_seg]. rewrite upd_eq.
        rewrite <- S4.
        rewrite (newSegment_not_covering _ _ _ _ _ _ HNS). reflexivity.
Qed.

End TruncateAll.

(** ** Truncating part of the log *)

Lemma File_Write_ext f p fs fs' :
  files fs !! Name f = files fs' !! Name f ->
  (File_Write f p fs).1 = (File_Write f p fs').1
  /\ files (File_Write f p fs).2 !! Name f
     = files (File_Write f p fs').2 !! Name f.
Proof.
  intros E. unfold File_Write. destruct (closed f); [auto|].
  rewrite <- E. destruct (files fs !! Name f) as [d|] eqn:Ef; cbn [fst snd].
  - rewrite !files_set_file_eq. auto.
  - split; congruence.
Qed.

Lemma bufio_Flush_ext s fs fs' :
  files fs !! Name (st_File s) = files fs' !! Name (st_File s) ->
  (bufio_Flush s fs).1 = (bufio_Flush s fs').1
  /\ files (bufio_Flush s fs).2 !! Name (st_File s)
     = files (bufio_Flush s fs').2 !! Name (st_File s).
Proof.
  intros E. unfold bufio_Flush. destruct (st_err s); [auto|].
  destruct (st_buf s) as [|x b]; [auto|].
  destruct (File_Write_ext (st_File s) (x :: b) fs fs' E) as [E1 E2].
  destruct (File_Write (st_File s) (x :: b) fs) as [e1 fs1].
  destruct (File_Write (st_File s) (x :: b) fs') as [e2 fs2].
  cbn [fst snd] in *. subst e2. destruct e1; cbn [fst snd]; auto.
Qed.

Lemma File_ReadAt_ext f n off fs fs' :
  files fs !! Name f = files fs' !! Name f ->
  File_ReadAt f n off fs = File_ReadAt f n off fs'.
Proof. intros E. unfold File_ReadAt. rewrite E. reflexivity. Qed.

(** [store.Read] looks at no file but its own. *)
Lemma store_Read_ext pos s fs fs' :
  files fs !! Name (st_File s) = files fs' !! Name (st_File s) ->
  (store_Read pos s fs).1 = (store_Read pos s fs').1.
Proof.
  intros E. unfold store_Read.
  destruct (bufio_Flush_ext s fs fs' E) as [E1 E2].
  pose proof (bufio_Flush_File s fs) as N1.
  pose proof (bufio_Flush_File s fs') as N2.
  destruct (bufio_Flush s fs) as [[e1 s1] fs1].
  destruct (bufio_Flush s fs') as [[e2 s2] fs2].
  cbn [fst snd] in *. injection E1 as <- <-.
  destruct (N1 _ _ _ eq_refl) as [N _].
  destruct e1; [reflexivity|].
  rewrite <- N in E2.
  rewrite (File_ReadAt_ext _ 8 _ fs1 fs2 E2).
  destruct (File_ReadAt (st_File s1) 8 (int64 pos) fs2) as [sz [e|]];
    [reflexivity|].
  rewrite (File_ReadAt_ext _ _ _ fs1 fs2 E2).
  destruct (File_ReadAt _ _ _ fs2) as [b [e|]]; reflexivity.
Qed.

Lemma segment_Read_ext Unmarshal off s fs fs' :
  files fs !! Name (st_File (seg_store s))
    = files fs' !! Name (st_File (seg_store s)) ->
  segment_read_result (segment_Read Unmarshal off s fs)
  = segment_read_result (segment_Read Unmarshal off s fs').
Proof.
  intros E. unfold segment_Read.
  destruct (index_Read _ _) as [[[o pos] [e|]]|]; try reflexivity.
  pose proof (store_Read_ext pos (seg_store s) fs fs' E) as H.
  destruct (store_Read pos (seg_store s) fs) as [[[p1 e1] st1] fs1].
  destruct (store_Read pos (seg_store s) fs') as [[[p2 e2] st2] fs2].
  cbn [fst] in H. injection H as <- <- <-.
  destruct e1; reflexivity.
Qed.

Lemma Log_Read_result Unmarshal off l w :
  read_result (Log_Read Unmarshal off l w)
  = match find_segment off l w with
    | None => Some (inr (ErrOffsetOutOfRange off))
    | Some p =>
        segment_read_result (segment_Read Unmarshal off (w_seg w p) (w_fs w))
    end.
Proof.
  unfold Log_Read. destruct (find_segment off l w) as [p|]; [|reflexivity].
  destruct (segment_Read _ _ _ _) as [[[r s] fs1]|]; reflexivity.
Qed.

(** The files the loop of [Truncate] leaves alone: all but those of
    the segments it removes. *)
Lemma Truncate_loop_other k n : forall ps kept w r w',
  Log_Truncate_loop k ps kept w = (r, w') ->
  (forall p, p ∈ ps -> nextOffset (w_seg w p) <= wrap64 (k + 1) ->
     n <> Name (st_File (seg_store (w_seg w p)))
     /\ n <> Name (ix_file (seg_index (w_seg w p)))) ->
  files (w_fs w') !! n = files (w_fs w) !! n.
Proof.
  induction ps as [|p ps IH]; intros kept w r w'; cbn [Log_Truncate_loop].
  - intros [= <- <-] _. reflexivity.
  - intros H Hn.
    destruct (nextOffset (w_seg w p) <=? wrap64 (k + 1)) eqn:E.
    + apply Z.leb_le in E.
      destruct (Hn p ltac:(left) E) as [N1 N2].
      destruct (segment_Remove (w_seg w p) (w_fs w)) as [[[e|] s] fs1] eqn:R.
      * injection H as <- <-. cbn [w_fs].
        eapply segment_Remove_other; eauto.
      * pose proof (segment_Remove_names _ _ _ _ _ R)
          as (D1 & D2 & _ & D4 & _).
        apply IH in H.
        -- rewrite H. cbn [w_fs]. eapply segment_Remove_other; eauto.
        -- intros q Hq. cbn [w_seg].
           destruct (Nat.eq_dec q p) as [->|Hqp].
           ++ rewrite upd_eq, D1, D2. auto.
           ++ rewrite upd_ne by assumption. intros Hle.
              apply Hn; [right; assumption | assumption].
    + apply IH in H; [exact H|].
      intros q Hq. apply Hn. right. assumption.
Qed.

Lemma find_filter_kept {A} (f g : A -> bool) (P : A -> Prop)
    `{forall x, Decision (P x)} (l : list A) p :
  List.find f l = Some p -> P p -> (forall x, P x -> g x = f x) ->
  List.find g (filter P l) = Some p.
Proof.
  intros Hf Hp Hg. induction l as [|x l IH]; [discriminate|].
  cbn [List.find] in Hf. destruct (f x) eqn:E.
  - injection Hf as ->. rewrite filter_cons_True by assumption.
    cbn [List.find]. rewrite Hg, E by assumption. reflexivity.
  - destruct (decide (P x)) as [Px|Px].
    + rewrite filter_cons_True by assumption. cbn [List.find].
      rewrite Hg, E by assumption. apply IH. assumption.
    + rewrite filter_cons_False by assumption. apply IH. assumption.
Qed.

Lemma StronglySorted_map_filter {A B} (R : relation B) (f : A -> B)
    (P : A -> Prop) `{forall x, Decision (P x)} (l : list A) :
  StronglySorted R (map f l) -> StronglySorted R (map f (filter P l)).
Proof.
  induction l as [|x l IH]; intros Hs; [constructor|].
  cbn [map] in Hs. apply StronglySorted_cons in Hs as [Hall Hs].
  destruct (decide (P x)) as [Px|Px].
  - rewrite filter_cons_True by assumption. cbn [map].
    apply StronglySorted_cons. split; [|auto].
    rewrite Forall_forall in *. intros y Hy. apply Hall.
    apply list_elem_of_fmap in Hy as (z & -> & Hz).
    apply list_elem_of_filter in Hz as [_ Hz].
    apply list_elem_of_fmap. eauto.
  - rewrite filter_cons_False by assumption. auto.
Qed.

(** Two segments of a sorted list are the same one, or one is before
    the other. *)
Lemma sorted_cases (ws : nat -> segment) ps p q :
  StronglySorted before (map ws ps) -> p ∈ ps -> q ∈ ps ->
  p = q \/ before (ws p) (ws q) \/ before (ws q) (ws p).
Proof.
  induction ps as [|x ps IH]; intros Hs Hp Hq; [inversion Hp|].
  cbn [map] in Hs. apply StronglySorted_cons in Hs as [Hall Hs].
  rewrite Forall_forall in Hall.
  assert (Hx : forall y, y ∈ ps -> before (ws x) (ws y)).
  { intros y Hy. apply Hall. apply list_elem_of_fmap. eauto. }
  apply elem_of_cons in Hp as [->|Hp]; apply elem_of_cons in Hq as [->|Hq];
    auto.
Qed.

Section Truncate.

Variable Unmarshal : list byte -> option Record_.

(** C8, as amended.  A [Truncate(k)] that returns no error has removed
    the segments with [nextOffset <= k + 1] (in 64-bit arithmetic):
    their files are closed and deleted; the other segments are kept,
    in their order and as they were.  On a well-formed log, a read below the new
    [LowestOffset()] is then out of range, and a read at or above it
    that returned a record before the truncation returns the same
    record. *)
Theorem C8_truncate_removes_low_segments (k : Z) (l : Log) (w : World)
    (l' : Log) (w' : World) :
  Log_Truncate k l w = (None, l', w') ->
  segments l'
    = filter (fun p => wrap64 (k + 1) < nextOffset (w_seg w p)) (segments l)
  /\ (forall p, p ∈ segments l -> nextOffset (w_seg w p) <= wrap64 (k + 1) ->
        removed (w_seg w' p) (w_fs w'))
  /\ (forall p, p ∈ segments l' -> w_seg w' p = w_seg w p)
  /\ (log_wf l w ->
      forall lo, LowestOffset l' w' = Ret lo ->
        (forall off, off < lo ->
           read_result (Log_Read Unmarshal off l' w')
           = Some (inr (ErrOffsetOutOfRange off)))
        /\ (forall off rec, lo <= off ->
              read_result (Log_Read Unmarshal off l w) = Some (inl rec) ->
              read_result (Log_Read Unmarshal off l' w') = Some (inl rec))).
Proof.
  unfold Log_Truncate.
  destruct (Log_Truncate_loop k (segments l) [] w) as [[e1|kept] w1] eqn:HL;
    [discriminate|].
  intros [= <- <-]. cbn [segments].
  pose proof (Truncate_loop_ok _ _ _ _ _ _ HL) as (K1 & K2 & K3).
  cbn [app] in K1. subst kept.
  set (P := fun p => wrap64 (k + 1) < nextOffset (w_seg w p)) in *.
  assert (Hkept : forall p, p ∈ filter P (segments l) -> w_seg w1 p = w_seg w p).
  { intros p Hp. apply list_elem_of_filter in Hp as [Hp _]. apply K3. exact Hp. }
  split; [reflexivity|]. split; [exact K2|]. split; [exact Hkept|].
  intros (Hact & Hne & Hlt & Hwf & Hsort) lo Hlo.
  unfold LowestOffset in Hlo. cbn [segments] in Hlo.
  destruct (filter P (segments l)) as [|q0 rest] eqn:Hf; [discriminate|].
  injection Hlo as <-.
  assert (Hq0 : q0 ∈ filter P (segments l)) by (rewrite Hf; left).
  assert (Hkept' : forall p, p ∈ filter P (segments l) -> w_seg w1 p = w_seg w p).
  { rewrite Hf. exact Hkept. }
  rewrite (Hkept' q0 Hq0).
  pose proof (StronglySorted_map_filter before (w_seg w) P (segments l) Hsort)
    as Hsort'.
  rewrite Hf in Hsort'. cbn [map] in Hsort'.
  apply StronglySorted_cons in Hsort' as [Hall _].
  rewrite Forall_forall in Hall. rewrite Forall_forall in Hwf.
  assert (Hrest : forall q, q ∈ rest -> before (w_seg w q0) (w_seg w q)).
  { intros q Hq. apply Hall. apply list_elem_of_fmap. eauto. }
  split.
  - (* below the lowest offset *)
    intros off Hoff. rewrite Log_Read_result.
    replace (find_segment off
               (mkLog (Dir l) (Config_ l) (activeSegment l) (q0 :: rest)) w1)
      with (@None nat); [reflexivity|].
    symmetry. apply find_segment_None. cbn [segments].
    apply Forall_forall. intros q Hq. rewrite (Hkept q Hq).
    unfold covers.
    replace (baseOffset (w_seg w q) <=? off) with false; [reflexivity|].
    symmetry. apply Z.leb_gt.
    apply elem_of_cons in Hq as [->|Hq]; [assumption|].
    destruct (Hrest q Hq). lia.
  - (* at or above it *)
    intros off rec Hoff Hread. rewrite Log_Read_result in Hread |- *.
    destruct (find_segment off l w) as [p|] eqn:Hfind; [|discriminate].
    destruct (find_segment_Some _ _ _ _ Hfind) as (b & a & Hs & Hc & _).
    assert (Hpin : p ∈ segments l).
    { rewrite Hs. apply elem_of_app. right. left. }
    unfold covers in Hc. apply andb_prop in Hc as [Hc1 Hc2].
    apply Z.leb_le in Hc1. apply Z.ltb_lt in Hc2.
    assert (Hq0in : q0 ∈ segments l).
    { apply list_elem_of_filter in Hq0 as [_ H]. exact H. }
    assert (HPq0 : P q0).
    { apply list_elem_of_filter in Hq0 as [H _]. exact H. }
    assert (HPp : P p).
    { unfold P. destruct (Z_lt_ge_dec (wrap64 (k + 1)) (nextOffset (w_seg w p)))
        as [L|G]; [exact L|]. exfalso. unfold P in HPq0.
      destruct (Hwf p Hpin) as (_ & _ & _ & _ & _ & _ & Bp & _).
      destruct (sorted_cases (w_seg w) (segments l) p q0 Hsort Hpin Hq0in)
        as [->|[[H1 H2]|[H1 H2]]]; lia. }
    assert (Hfind' : find_segment off
                       (mkLog (Dir l) (Config_ l) (activeSegment l)
                              (q0 :: rest)) w1 = Some p).
    { rewrite <- Hf. unfold find_segment in *. cbn [segments].
      apply (find_filter_kept (fun q => covers off (w_seg w q))); auto.
      intros x Hx. rewrite K3 by exact Hx. reflexivity. }
    rewrite Hfind'. rewrite (K3 p HPp).
    rewrite <- Hread. symmetry. apply segment_Read_ext.
    symmetry. eapply Truncate_loop_other; [exact HL|].
    intros q Hq Hqle.
    destruct (Hwf p Hpin) as (Fp & _ & _ & _ & _ & _ & Bp & Np & _).
    destruct (Hwf q Hq) as (Fq & Iq & _ & _ & _ & _ & Bq & Nq & _).
    rewrite Fp, Fq, Iq. cbn [Name].
    split; [|apply storeName_indexName].
    intros E. apply storeName_inj in E; [|lia|lia].
    unfold P in HPp.
    destruct (sorted_cases (w_seg w) (segments l) p q Hsort Hpin Hq)
      as [->|[[H1 H2]|[H1 H2]]]; lia.
Qed.

End Truncate.

(** ** Opening a log on a directory of segment files *)

Lemma dup_Permutation l : dup l ≡ₚ l ++ l.
Proof.
  induction l as [|x l IH]; [reflexivity|].
  cbn [dup app]. constructor.
  rewrite IH. apply Permutation_middle.
Qed.

Lemma dup_sorted l : StronglySorted Z.le l -> StronglySorted Z.le (dup l).
Proof.
  induction 1 as [|x l Hl IH Hx]; cbn [dup]; constructor.
  - constructor; [exact IH|].
    rewrite dup_Permutation. apply Forall_app; auto.
  - constructor; [lia|].
    rewrite dup_Permutation. apply Forall_app; auto.
Qed.

#[local] Instance Zle_total : Total Z.le.
Proof. intros x y. lia. Qed.

#[local] Instance Zle_antisymm : AntiSymm eq Z.le.
Proof. intros x y. lia. Qed.

Lemma sort_twice (l B : list Z) :
  l ≡ₚ B ++ B -> merge_sort Z.le l = dup (merge_sort Z.le B).
Proof.
  intros H. apply (StronglySorted_unique Z.le).
  - apply StronglySorted_merge_sort; apply _.
  - apply dup_sorted. apply StronglySorted_merge_sort; apply _.
  - rewrite merge_sort_Permutation, dup_Permutation, H.
    rewrite merge_sort_Permutation. reflexivity.
Qed.

Lemma sorted_le_NoDup_lt l :
  StronglySorted Z.le l -> NoDup l -> StronglySorted Z.lt l.
Proof.
  induction 1 as [|x l Hl IH Hx]; intros Hnd; constructor.
  - apply IH. apply NoDup_cons in Hnd as [_ ?]. assumption.
  - apply NoDup_cons in Hnd as [Hnotin _].
    rewrite Forall_forall in Hx. apply Forall_forall. intros y Hy.
    pose proof (Hx y Hy). assert (x <> y) by (intros ->; auto). lia.
Qed.

(** The names of a directory of segment files, as [ReadDir] lists
    them, are the offsets of [B], each twice. *)
Lemma ReadDir_segment_files B fs :
  segment_files B fs -> NoDup B -> Forall (fun b => 0 <= b < 2 ^ 64) B ->
  map name_offset (ReadDir fs) ≡ₚ B ++ B.
Proof.
  intros Hdir Hnd Hr. rewrite Forall_forall in Hr.
  assert (Hperm : ReadDir fs ≡ₚ map storeName B ++ map indexName B).
  { apply NoDup_Permutation.
    - unfold ReadDir. apply NoDup_fst_map_to_list.
    - apply NoDup_app. splits.
      + apply (NoDup_fmap_2_strong storeName); [|assumption].
        intros x y Hx Hy. apply storeName_inj; auto.
      + intros n H1 H2.
        apply list_elem_of_fmap in H1 as (b1 & -> & _).
        apply list_elem_of_fmap in H2 as (b2 & E & _).
        exact (storeName_indexName _ _ E).
      + apply (NoDup_fmap_2_strong indexName); [|assumption].
        intros x y Hx Hy. apply indexName_inj; auto.
    - intros n. unfold ReadDir.
      rewrite list_elem_of_fmap, elem_of_app, !list_elem_of_fmap.
      split.
      + intros ([n' d] & -> & Hin). apply elem_of_map_to_list in Hin.
        cbn [fst]. destruct (proj1 (Hdir n')) as (b & Hb & [->| ->]); eauto.
      + intros H.
        assert (Hs : is_Some (files fs !! n)).
        { apply Hdir. destruct H as [(b & -> & Hb)|(b & -> & Hb)]; eauto. }
        destruct Hs as [d Hd]. exists (n, d). split; [reflexivity|].
        apply elem_of_map_to_list. exact Hd. }
  rewrite Hperm, map_app. apply Permutation_app.
  - rewrite map_map. erewrite map_ext_in; [rewrite map_id; reflexivity|].
    intros b Hb. apply name_offset_storeName. apply Hr.
    apply list_elem_of_In. exact Hb.
  - rewrite map_map. erewrite map_ext_in; [rewrite map_id; reflexivity|].
    intros b Hb. apply name_offset_indexName. apply Hr.
    apply list_elem_of_In. exact Hb.
Qed.

(** [setup] skips every other offset: on a list that holds every offset
    twice it opens one segment per offset. *)
Lemma setup_loop_dup L : forall l w l1 w1,
  Forall (fun p => (p < w_next w)%nat) (segments l) ->
  setup_loop (dup L) l w = Ret (None, l1, w1) ->
  bases l1 w1 = bases l w ++ L
  /\ Forall (fun p => (p < w_next w1)%nat) (segments l1)
  /\ Config_ l1 = Config_ l /\ Dir l1 = Dir l.
Proof.
  induction L as [|b L IH]; intros l w l1 w1 Hlt H.
  - cbn [dup setup_loop] in H. injection H as <- <-.
    rewrite app_nil_r. auto.
  - cbn [dup setup_loop] in H.
    destruct (Log_newSegment b l w) as [[[[e|] l2] w2]|] eqn:N;
      try discriminate.
    apply Log_newSegment_ok in N as (s & fs' & Hs & -> & ->).
    apply newSegment_ok in Hs as (_ & _ & Hb & _).
    apply IH in H; cbn [segments w_next w_seg].
    + destruct H as (H1 & H2 & H3 & H4). splits; auto.
      rewrite H1. unfold bases. cbn [segments w_seg].
      rewrite map_app, <- app_assoc. cbn [map app].
      rewrite upd_eq, Hb. f_equal.
      apply map_ext_in. intros p Hp. rewrite upd_ne; [reflexivity|].
      rewrite Forall_forall in Hlt. apply list_elem_of_In in Hp.
      apply Hlt in Hp. lia.
    + apply Forall_app. split.
      * eapply Forall_impl; [exact Hlt|]. cbn beta. intros; lia.
      * constructor; [lia|constructor].
Qed.

(** The last entry of an index whose size is within its mapping can
    be read, or there is none. *)
Lemma index_Read_last_returns i :
  0 <= ix_size i <= len (ix_mmap i) -> index_Read (-1) i <> Panic.
Proof.
  intros H. unfold index_Read.
  destruct (ix_size i =? 0); [discriminate|].
  change (-1 =? -1) with true. cbv iota.
  set (out := uint32 (wrap64 (ix_size i / entWidth - 1))).
  assert (Hout : 0 <= out < 2 ^ 32) by apply uint32_range.
  assert (Hpos : wrap64 (out * entWidth) = out * entWidth).
  { apply wrap64_small. plia. }
  rewrite Hpos.
  assert (Hw1 : wrap64 (out * entWidth + entWidth) = out * entWidth + entWidth).
  { apply wrap64_small. plia. }
  assert (Hw2 : wrap64 (out * entWidth + offWidth) = out * entWidth + offWidth).
  { apply wrap64_small. plia. }
  rewrite Hw1, Hw2.
  destruct (ix_size i <? out * entWidth + entWidth) eqn:E; [discriminate|].
  apply Z.ltb_ge in E.
  unfold slice.
  replace ((0 <=? out * entWidth)
           && (out * entWidth <=? out * entWidth + offWidth)
           && (out * entWidth + offWidth <=? len (ix_mmap i))) with true.
  2:{ symmetry. rewrite !andb_true_iff, !Z.leb_le. plia. }
  replace ((0 <=? out * entWidth + offWidth)
           && (out * entWidth + offWidth <=? out * entWidth + entWidth)
           && (out * entWidth + entWidth <=? len (ix_mmap i))) with true.
  2:{ symmetry. rewrite !andb_true_iff, !Z.leb_le. plia. }
  discriminate.
Qed.

Lemma length_resize n l : length (resize n l) = n.
Proof.
  unfold resize. rewrite length_app, length_take, length_replicate. lia.
Qed.

(** [newSegment] on the two existing files of a base offset, with an
    index file that is not longer than the mapping: a segment is
    returned, no file appears or disappears, and only the index file
    changes, to the length of the mapping. *)
Lemma newSegment_existing dir b c fs :
  is_Some (files fs !! storeName b) -> is_Some (files fs !! indexName b) ->
  0 < int64 (MaxIndexBytes (Segment c)) ->
  len (file_data fs (indexName b)) <= int64 (MaxIndexBytes (Segment c)) ->
  exists s fs',
    newSegment dir b c fs = Ret (inl s, fs')
    /\ (forall n, n <> indexName b -> files fs' !! n = files fs !! n)
    /\ is_Some (files fs' !! indexName b)
    /\ len (file_data fs' (indexName b)) = int64 (MaxIndexBytes (Segment c)).
Proof.
  intros [ds Hs] [dx Hx] Hmax Hlen.
  assert (Hfd : file_data fs (indexName b) = dx).
  { unfold file_data. rewrite Hx. reflexivity. }
  rewrite Hfd in Hlen.
  set (n := int64 (MaxIndexBytes (Segment c))) in *.
  set (m := resize (Z.to_nat n) dx).
  assert (Hm : len m = n).
  { unfold m, len. rewrite length_resize. lia. }
  unfold newSegment, OpenFile, newStore. rewrite Hs. cbn [Name]. rewrite Hs, Hx.
  unfold newIndex. cbn [Name]. rewrite Hx. fold n.
  destruct (n <? 0) eqn:E; [apply Z.ltb_lt in E; lia|]. fold m.
  destruct m as [|x0 m'] eqn:Em.
  { unfold len in Hm. cbn [length] in Hm. lia. }
  rewrite <- Em in Hm |- *.
  pose proof (index_Read_last_returns
                (mkIndex (mkFile (indexName b) false) m (len dx))) as HR.
  cbn [ix_size ix_mmap] in HR.
  assert (Hfiles :
    (forall k, k <> indexName b ->
       files (set_file (indexName b) m fs) !! k = files fs !! k)
    /\ is_Some (files (set_file (indexName b) m fs) !! indexName b)
    /\ len (file_data (set_file (indexName b) m fs) (indexName b)) = n).
  { splits.
    - intros k Hk. apply files_set_file_ne. congruence.
    - rewrite files_set_file_eq. eauto.
    - rewrite file_data_set_file_eq. exact Hm. }
  destruct (index_Read (-1) _) as [[[off pos] [e|]]|].
  - eexists _, _. split; [reflexivity|exact Hfiles].
  - eexists _, _. split; [reflexivity|exact Hfiles].
  - exfalso. apply HR; [|reflexivity]. pose proof (len_nonneg dx). lia.
Qed.

(** [newSegment] in an empty directory with room for two files. *)
Lemma newSegment_empty dir b c fs :
  files fs = ∅ -> (2 <= capacity fs)%nat ->
  0 < int64 (MaxIndexBytes (Segment c)) ->
  exists s fs', newSegment dir b c fs = Ret (inl s, fs').
Proof.
  intros He Hcap Hmax. destruct fs as [fm cap].
  cbn [files capacity] in He, Hcap. subst fm.
  unfold newSegment.
  assert (O1 : OpenFile (storeName b) (mkFS ∅ cap)
               = (inl (mkFile (storeName b) false),
                  set_file (storeName b) [] (mkFS ∅ cap))).
  { unfold OpenFile. cbn [files capacity]. rewrite lookup_empty, map_size_empty.
    destruct (decide (0 < cap)%nat); [reflexivity|lia]. }
  rewrite O1. unfold newStore. cbn [Name]. rewrite files_set_file_eq.
  assert (O2 : OpenFile (indexName b) (set_file (storeName b) [] (mkFS ∅ cap))
               = (inl (mkFile (indexName b) false),
                  set_file (indexName b) []
                    (set_file (storeName b) [] (mkFS ∅ cap)))).
  { unfold OpenFile. rewrite files_set_file_ne by apply storeName_indexName.
    cbn [files capacity set_file]. rewrite lookup_empty, insert_empty.
    rewrite map_size_singleton.
    destruct (decide (1 < cap)%nat); [reflexivity|lia]. }
  rewrite O2.
  unfold newIndex. cbn [Name]. rewrite files_set_file_eq.
  set (n := int64 (MaxIndexBytes (Segment c))) in *.
  destruct (n <? 0) eqn:E; [apply Z.ltb_lt in E; lia|].
  destruct (resize (Z.to_nat n) []) as [|x0 m'] eqn:Em.
  { apply (f_equal length) in Em. rewrite length_resize in Em.
    cbn [length] in Em. lia. }
  unfold index_Read. cbn [ix_size]. unfold len at 1. cbn [length].
  change (Z.of_nat 0 =? 0) with true. cbv iota.
  eexists _, _. reflexivity.
Qed.

(** With the files of every offset of the list in place, the loop of
    [setup] opens its segments without error. *)
Lemma setup_loop_returns L : forall l w,
  0 < int64 (MaxIndexBytes (Segment (Config_ l))) ->
  (forall b, b ∈ L ->
     is_Some (files (w_fs w) !! storeName b)
     /\ is_Some (files (w_fs w) !! indexName b)
     /\ len (file_data (w_fs w) (indexName b))
        <= int64 (MaxIndexBytes (Segment (Config_ l)))) ->
  exists l1 w1, setup_loop (dup L) l w = Ret (None, l1, w1).
Proof.
  induction L as [|b L IH]; intros l w Hmax HL.
  - cbn [dup setup_loop]. eauto.
  - cbn [dup setup_loop].
    destruct (HL b) as (Hs & Hx & Hlen); [left|].
    destruct (newSegment_existing (Dir l) b (Config_ l) (w_fs w) Hs Hx Hmax Hlen)
      as (s & fs' & Hn & Hother & Hx' & Hlen').
    unfold Log_newSegment. rewrite Hn.
    apply IH; cbn [Config_ w_fs]; [exact Hmax|].
    intros b' Hb'. destruct (HL b') as (Hs1 & Hx1 & Hlen1); [right; exact Hb'|].
    splits.
    + rewrite Hother by apply storeName_indexName. exact Hs1.
    + destruct (decide (indexName b' = indexName b)) as [->|Hne];
        [exact Hx'|rewrite Hother by exact Hne; exact Hx1].
    + destruct (decide (indexName b' = indexName b)) as [->|Hne]; [lia|].
      unfold file_data. rewrite Hother by exact Hne. exact Hlen1.
Qed.

Lemma NewLog_unfold dir c w :
  NewLog dir c w = Log_setup (mkLog dir (withDefaults c) None []) w.
Proof. reflexivity. Qed.

Lemma bases_nil l w : bases l w = [] -> segments l = [].
Proof. unfold bases. destruct (segments l); [reflexivity|discriminate]. Qed.

(** C7.  On a directory that holds the store file and the index file
    of every base offset of a duplicate-free list [B], and nothing
    else, a log that opens without error has one segment per offset of
    [B], in strictly ascending order of base offset, and a single
    segment at [InitialOffset] when [B] is empty.  It does open without
    error when no index file is longer than [MaxIndexBytes] and, for an
    empty directory, two files can be created. *)
Theorem C7_setup_one_segment_per_base_offset
    (dir : string) (c : Config) (w : World) (B : list Z) :
  segment_files B (w_fs w) -> NoDup B ->
  Forall (fun b => 0 <= b < 2 ^ 64) B ->
  (forall l w', NewLog dir c w = Ret (None, l, w') ->
     match B with
     | [] => bases l w' = [InitialOffset (Segment c)]
     | _ :: _ => bases l w' ≡ₚ B /\ StronglySorted Z.lt (bases l w')
     end)
  /\ (0 < int64 (MaxIndexBytes (Segment (withDefaults c))) ->
      (forall b, b ∈ B ->
         len (file_data (w_fs w) (indexName b))
         <= int64 (MaxIndexBytes (Segment (withDefaults c)))) ->
      (B = [] -> (2 <= capacity (w_fs w))%nat) ->
      exists l w', NewLog dir c w = Ret (None, l, w')).
Proof.
  intros Hdir Hnd Hr.
  pose proof (sort_twice _ B (ReadDir_segment_files B (w_fs w) Hdir Hnd Hr))
    as Hsort.
  pose proof (merge_sort_Permutation Z.le B) as Hperm.
  set (L := merge_sort Z.le B) in *.
  set (l0 := mkLog dir (withDefaults c) None []).
  assert (Hl0 : Forall (fun p => (p < w_next w)%nat) (segments l0))
    by constructor.
  rewrite NewLog_unfold. unfold Log_setup. fold l0. rewrite Hsort.
  split.
  - intros l w' H.
    destruct (setup_loop (dup L) l0 w) as [[[[e|] l1] w1]|] eqn:S;
      try discriminate.
    apply setup_loop_dup in S as (Hb & Hlt & Hc & _); [|exact Hl0].
    unfold bases at 2 in Hb. unfold l0 in Hb. cbn [segments map app] in Hb.
    destruct (segments l1) as [|p ps] eqn:Hseg.
    + assert (HL : L = []).
      { rewrite <- Hb. unfold bases. rewrite Hseg. reflexivity. }
      rewrite HL in Hperm. apply Permutation_nil_l in Hperm. subst B.
      apply Log_newSegment_ok in H as (s & fs' & Hs & -> & ->).
      apply newSegment_ok in Hs as (_ & _ & Hbase & _).
      unfold bases. cbn [segments w_seg]. rewrite Hseg. cbn [app map].
      rewrite upd_eq, Hbase, Hc. reflexivity.
    + injection H as <- <-.
      destruct B as [|b0 B'].
      * exfalso. apply Permutation_nil_r in Hperm. rewrite Hperm in Hb.
        apply bases_nil in Hb. congruence.
      * rewrite Hb. split; [exact Hperm|].
        apply sorted_le_NoDup_lt.
        -- apply StronglySorted_merge_sort; apply _.
        -- rewrite Hperm. exact Hnd.
  - intros Hmax Hlen Hcap.
    destruct B as [|b0 B'] eqn:EB.
    + assert (HL : L = []) by (apply Permutation_nil_r; exact Hperm).
      rewrite HL. cbn [dup setup_loop segments l0].
      assert (He : files (w_fs w) = ∅).
      { apply map_empty. intros n.
        destruct (files (w_fs w) !! n) as [d|] eqn:E; [|reflexivity].
        destruct (proj1 (Hdir n)) as (b & Hb & _); [eauto|]. inversion Hb. }
      destruct (newSegment_empty dir (InitialOffset (Segment (withDefaults c)))
                  (withDefaults c) (w_fs w) He (Hcap eq_refl) Hmax)
        as (s & fs' & Hs).
      unfold Log_newSegment. cbn [Dir Config_ l0]. rewrite Hs. eauto.
    + destruct (setup_loop_returns L l0 w) as (l1 & w1 & S).
      * exact Hmax.
      * intros b Hb. rewrite Hperm in Hb. splits.
        -- apply Hdir. eauto.
        -- apply Hdir. eauto.
        -- apply Hlen. exact Hb.
      * rewrite S.
        apply setup_loop_dup in S as (Hb & _); [|exact Hl0].
        unfold bases at 2 in Hb. unfold l0 in Hb. cbn [segments map app] in Hb.
        destruct (segments l1) as [|p ps] eqn:Hseg; [|eauto].
        exfalso. unfold bases in Hb. rewrite Hseg in Hb. cbn [map] in Hb.
        rewrite <- Hb in Hperm. apply Permutation_nil_l in Hperm. discriminate.
Qed.

(** ** Closing and reopening a log *)

Lemma File_ReadAt_data f fs f' fs' d n off :
  closed f = false -> closed f' = false ->
  files fs !! Name f = Some d -> files fs' !! Name f' = Some d ->
  File_ReadAt f n off fs = File_ReadAt f' n off fs'.
Proof.
  intros C C' E E'. unfold File_ReadAt. rewrite C, C', E, E'. reflexivity.
Qed.

(** Flushing an open store without a pending error puts its content
    in its file. *)
Lemma bufio_Flush_content s fs :
  st_err s = None -> closed (st_File s) = false ->
  is_Some (files fs !! Name (st_File s)) ->
  exists fs1,
    bufio_Flush s fs = (None, mkStore (st_File s) [] None (st_size s), fs1)
    /\ files fs1 !! Name (st_File s) = Some (store_content fs s)
    /\ (forall n, n <> Name (st_File s) -> files fs1 !! n = files fs !! n).
Proof.
  intros He Hc [d Hd]. destruct s as [f b e sz].
  cbn [st_err st_File st_buf st_size] in *. subst e.
  unfold bufio_Flush, store_content, file_data.
  cbn [st_err st_File st_buf st_size]. rewrite Hd.
  cbn [default from_option id].
  destruct b as [|x b].
  - exists fs. rewrite app_nil_r. auto.
  - unfold File_Write. rewrite Hc, Hd.
    exists (set_file (Name f) (d ++ x :: b) fs). splits.
    + reflexivity.
    + apply files_set_file_eq.
    + intros n Hn. apply files_set_file_ne. congruence.
Qed.

(** What [store.Read] returns is a function of the content of the
    store. *)
Lemma store_Read_content pos s fs s' fs' :
  st_err s = None -> st_err s' = None ->
  closed (st_File s) = false -> closed (st_File s') = false ->
  is_Some (files fs !! Name (st_File s)) ->
  is_Some (files fs' !! Name (st_File s')) ->
  store_content fs s = store_content fs' s' ->
  (store_Read pos s fs).1.1 = (store_Read pos s' fs').1.1.
Proof.
  intros He He' Hc Hc' Hf Hf' E. unfold store_Read.
  destruct (bufio_Flush_content s fs He Hc Hf) as (fs1 & -> & F1 & _).
  destruct (bufio_Flush_content s' fs' He' Hc' Hf') as (fs1' & -> & F1' & _).
  cbn [st_File]. rewrite <- E in F1'.
  rewrite (File_ReadAt_data _ fs1 _ fs1' _ 8 (int64 pos) Hc Hc' F1 F1').
  destruct (File_ReadAt (st_File s') 8 (int64 pos) fs1') as [sz [e|]];
    [reflexivity|].
  rewrite (File_ReadAt_data _ fs1 _ fs1' _ (Z.to_nat (be_value sz))
             (int64 (pos + lenWidth)) Hc Hc' F1 F1').
  destruct (File_ReadAt _ _ _ fs1') as [b [e|]]; reflexivity.
Qed.

Lemma slice_take lo hi n m :
  0 <= lo <= hi -> hi <= n -> n <= len m ->
  slice lo hi (take (Z.to_nat n) m) = slice lo hi m.
Proof.
  intros H1 H2 H3.
  assert (Hlen : len (take (Z.to_nat n) m) = n).
  { unfold len in *. rewrite length_take. lia. }
  rewrite !slice_ok by lia. f_equal.
  rewrite !take_drop_commute, take_take. f_equal. f_equal. lia.
Qed.

(** [index.Read] looks at the entries below the size of the index
    only. *)
Lemma index_Read_ext k i i' :
  ix_size i' = ix_size i ->
  ix_size i <= len (ix_mmap i) -> ix_size i' <= len (ix_mmap i') ->
  take (Z.to_nat (ix_size i)) (ix_mmap i')
    = take (Z.to_nat (ix_size i)) (ix_mmap i) ->
  index_Read k i' = index_Read k i.
Proof.
  intros Hs Hl Hl' Ht. unfold index_Read. rewrite Hs in *.
  destruct (ix_size i =? 0); [reflexivity|].
  set (out := if k =? -1 then uint32 (wrap64 (ix_size i / entWidth - 1))
              else uint32 k).
  assert (Hout : 0 <= out < 2 ^ 32).
  { unfold out. destruct (k =? -1); apply uint32_range. }
  rewrite (wrap64_small (out * entWidth)) by plia.
  rewrite (wrap64_small (out * entWidth + entWidth)) by plia.
  rewrite (wrap64_small (out * entWidth + offWidth)) by plia.
  destruct (ix_size i <? out * entWidth + entWidth) eqn:E; [reflexivity|].
  apply Z.ltb_ge in E.
  rewrite <- (slice_take _ _ (ix_size i) (ix_mmap i')) by plia.
  rewrite <- (slice_take (out * entWidth + offWidth) _ (ix_size i) (ix_mmap i'))
    by plia.
  rewrite <- (slice_take _ _ (ix_size i) (ix_mmap i)) by plia.
  rewrite <- (slice_take (out * entWidth + offWidth) _ (ix_size i) (ix_mmap i))
    by plia.
  rewrite Ht. reflexivity.
Qed.

Section Reopen.

Variable Marshal : Record_ -> option (list byte).
Variable Unmarshal : list byte -> option Record_.

Lemma segment_Read_same off fs s fs2 s2 :
  same_segment fs s fs2 s2 ->
  segment_read_result (segment_Read Unmarshal off s2 fs2)
  = segment_read_result (segment_Read Unmarshal off s fs).
Proof.
  intros (Hb & Hn & He & He2 & Hc & Hc2 & Hf & Hf2 & Hcont & Hsz & Hl & Hl2 & Ht).
  unfold segment_Read. rewrite Hb.
  rewrite (index_Read_ext _ (seg_index s) (seg_index s2) Hsz Hl Hl2 Ht).
  destruct (index_Read _ (seg_index s)) as [[[o pos] [e|]]|]; try reflexivity.
  pose proof (store_Read_content pos (seg_store s2) fs2 (seg_store s) fs
                He2 He Hc2 Hc Hf2 Hf Hcont) as H.
  destruct (store_Read pos (seg_store s2) fs2) as [[[p1 e1] st1] fs1].
  destruct (store_Read pos (seg_store s) fs) as [[[p2 e2] st2] fs2'].
  cbn [fst] in H. injection H as <- <-.
  destruct e1; reflexivity.
Qed.

(** Two logs whose segments correspond one to one answer reads alike
    and have the same lowest and highest offsets. *)
Lemma find_same off fs fs2 (f f2 : nat -> segment) ps ps2 :
  Forall2 (fun p p2 => same_segment fs (f p) fs2 (f2 p2)) ps ps2 ->
  match List.find (fun p => covers off (f p)) ps,
        List.find (fun p => covers off (f2 p)) ps2 with
  | Some p, Some p2 => same_segment fs (f p) fs2 (f2 p2)
  | None, None => True
  | _, _ => False
  end.
Proof.
  induction 1 as [|p p2 ps ps2 Hp Hps IH]; cbn [List.find]; [exact I|].
  assert (Hc : covers off (f2 p2) = covers off (f p)).
  { unfold covers. destruct Hp as (-> & -> & _). reflexivity. }
  rewrite Hc. destruct (covers off (f p)); [exact Hp|exact IH].
Qed.

Lemma Log_same l w l2 w2 :
  Forall2 (fun p p2 => same_segment (w_fs w) (w_seg w p) (w_fs w2) (w_seg w2 p2))
          (segments l) (segments l2) ->
  LowestOffset l2 w2 = LowestOffset l w
  /\ HighestOffset l2 w2 = HighestOffset l w
  /\ forall off, read_result (Log_Read Unmarshal off l2 w2)
                 = read_result (Log_Read Unmarshal off l w).
Proof.
  intros H. splits.
  - unfold LowestOffset. destruct H as [|p p2 ps ps2 (-> & _) _]; reflexivity.
  - unfold HighestOffset.
    induction H as [|p p2 ps ps2 Hp Hps IH]; [reflexivity|].
    destruct Hps as [|q q2 ps ps2 Hq Hps].
    + cbn [last]. destruct Hp as (_ & -> & _). reflexivity.
    + rewrite !last_cons_cons. exact IH.
  - intros off. rewrite !Log_Read_result. unfold find_segment.
    pose proof (find_same off _ _ (w_seg w) (w_seg w2) _ _ H) as F.
    destruct (List.find _ (segments l)) as [p|];
      destruct (List.find _ (segments l2)) as [p2|]; try contradiction.
    + apply segment_Read_same. exact F.
    + reflexivity.
Qed.

Lemma seg_names_ne b b' :
  0 <= b < 2 ^ 64 -> 0 <= b' < 2 ^ 64 -> b <> b' ->
  storeName b <> storeName b' /\ storeName b <> indexName b'
  /\ indexName b <> storeName b' /\ indexName b <> indexName b'.
Proof.
  intros H H' Hne. splits.
  - intros E. apply storeName_inj in E; auto.
  - apply storeName_indexName.
  - intros E. symmetry in E. revert E. apply storeName_indexName.
  - intros E. apply indexName_inj in E; auto.
Qed.

Lemma seg_durable_ext c fs fs' s :
  files fs' !! storeName (baseOffset s) = files fs !! storeName (baseOffset s) ->
  files fs' !! indexName (baseOffset s) = files fs !! indexName (baseOffset s) ->
  seg_durable c fs s -> seg_durable c fs' s.
Proof.
  intros E1 E2. unfold seg_durable. rewrite E1, E2. auto.
Qed.

Lemma msync_same_length m d : length d = length m -> msync m d = m.
Proof.
  intros H. unfold msync. rewrite H, firstn_all, drop_ge by lia.
  apply app_nil_r.
Qed.

Lemma resize_prefix n l :
  (n <= length l)%nat -> resize n l = take n l.
Proof.
  intros H. unfold resize. replace (n - length l)%nat with 0%nat by lia.
  apply app_nil_r.
Qed.

(** Closing a segment of such a log leaves the content of the store
    in the store file and the entries of the index in the index
    file. *)
Lemma segment_Close_durable c s fs s' fs' :
  MaxIndexBytes (Segment c) <= entWidth * 2 ^ 32 ->
  seg_durable c fs s -> segment_Close s fs = (None, s', fs') ->
  files fs' !! storeName (baseOffset s)
    = Some (store_content fs (seg_store s))
  /\ files fs' !! indexName (baseOffset s)
     = Some (take (Z.to_nat (ix_size (seg_index s))) (ix_mmap (seg_index s)))
  /\ (forall n, n <> storeName (baseOffset s) -> n <> indexName (baseOffset s) ->
        files fs' !! n = files fs !! n).
Proof.
  intros Hmax (Fs & Fx & He & Hst & Hsz & Hb & Hn & Hix & Hle & Hlen
               & (d & Hd & Hdl) & _ & _) H.
  apply segment_Close_ok in H as (ix & st & fs1 & HI & HS & _).
  apply index_Close_ok in HI as (_ & _ & _ & d' & Hd' & ->).
  rewrite Fx in Hd'. cbn [Name] in Hd'. rewrite Hd in Hd'. injection Hd' as <-.
  rewrite Fx in HS. cbn [Name] in HS.
  assert (Hsi : storeName (baseOffset s) <> indexName (baseOffset s))
    by apply storeName_indexName.
  rewrite msync_same_length in HS by (unfold len in Hdl; lia).
  rewrite int64_small in HS by plia.
  rewrite resize_prefix in HS by (unfold len in Hle; lia).
  set (fs1 := set_file _ _ fs) in HS.
  apply store_Close_ok in HS as (Hc & _ & HF).
  destruct (bufio_Flush_content (seg_store s) fs1 He Hc) as (fs2 & HF2 & G1 & G2).
  { rewrite Fs. cbn [Name]. unfold fs1.
    rewrite files_set_file_ne by congruence. exact Hst. }
  rewrite HF in HF2. injection HF2 as ->.
  rewrite Fs in G1, G2. cbn [Name] in G1, G2. splits.
  - rewrite G1. f_equal. unfold store_content, file_data. rewrite Fs.
    cbn [Name]. unfold fs1. rewrite files_set_file_ne by congruence.
    reflexivity.
  - rewrite G2 by congruence. unfold fs1. apply files_set_file_eq.
  - intros n N1 N2. rewrite G2 by exact N1. unfold fs1.
    apply files_set_file_ne. congruence.
Qed.

(** The files a closed log leaves: for every segment, the content of
    its store and the entries of its index; every other file as it
    was. *)
Lemma Log_Close_loop_durable c : forall ps w wc,
  MaxIndexBytes (Segment c) <= entWidth * 2 ^ 32 ->
  NoDup ps ->
  (forall p q, p ∈ ps -> q ∈ ps ->
     baseOffset (w_seg w p) = baseOffset (w_seg w q) -> p = q) ->
  Forall (fun p => seg_durable c (w_fs w) (w_seg w p)) ps ->
  Log_Close_loop ps w = (None, wc) ->
  (forall p, p ∈ ps ->
     files (w_fs wc) !! storeName (baseOffset (w_seg w p))
       = Some (store_content (w_fs w) (seg_store (w_seg w p)))
     /\ files (w_fs wc) !! indexName (baseOffset (w_seg w p))
        = Some (take (Z.to_nat (ix_size (seg_index (w_seg w p))))
                     (ix_mmap (seg_index (w_seg w p)))))
  /\ (forall n, (forall p, p ∈ ps ->
                   n <> storeName (baseOffset (w_seg w p))
                   /\ n <> indexName (baseOffset (w_seg w p))) ->
        files (w_fs wc) !! n = files (w_fs w) !! n).
Proof.
  induction ps as [|p ps IH]; intros w wc Hmax Hnd Hinj Hall H.
  - cbn [Log_Close_loop] in H. injection H as <-. split.
    + intros p Hp. inversion Hp.
    + reflexivity.
  - cbn [Log_Close_loop] in H.
    destruct (segment_Close (w_seg w p) (w_fs w)) as [[[e|] s'] fs1] eqn:C;
      [discriminate|].
    apply NoDup_cons in Hnd as [Hnotin Hnd].
    apply Forall_cons in Hall as [Hp Hall]. rewrite Forall_forall in Hall.
    destruct (segment_Close_durable c _ _ _ _ Hmax Hp C) as (C1 & C2 & C3).
    set (w1 := mkWorld fs1 (upd p s' (w_seg w)) (w_next w)) in H.
    assert (Hseg : forall q, q ∈ ps -> w_seg w1 q = w_seg w q).
    { intros q Hq. unfold w1. cbn [w_seg]. apply upd_ne.
      intros ->. contradiction. }
    assert (Hnames : forall q, q ∈ ps ->
      storeName (baseOffset (w_seg w q)) <> storeName (baseOffset (w_seg w p))
      /\ storeName (baseOffset (w_seg w q)) <> indexName (baseOffset (w_seg w p))
      /\ indexName (baseOffset (w_seg w q)) <> storeName (baseOffset (w_seg w p))
      /\ indexName (baseOffset (w_seg w q)) <> indexName (baseOffset (w_seg w p))).
    { intros q Hq.
      destruct Hp as (_ & _ & _ & _ & _ & Bp & Np & _).
      destruct (Hall q Hq) as (_ & _ & _ & _ & _ & Bq & Nq & _).
      apply seg_names_ne; [lia|lia|].
      intros E. assert (q = p).
      { apply Hinj; [right; exact Hq|left|exact E]. }
      subst q. contradiction. }
    destruct (IH w1 wc Hmax Hnd) as [I1 I2]; [| |exact H|].
    + intros q q' Hq Hq'. rewrite !Hseg by assumption.
      intros E. apply Hinj; [right; assumption|right; assumption|exact E].
    + apply Forall_forall. intros q Hq. rewrite Hseg by exact Hq.
      destruct (Hnames q Hq) as (N1 & N2 & N3 & N4).
      apply (seg_durable_ext c (w_fs w)); [| |apply Hall; exact Hq];
        unfold w1; cbn [w_fs]; apply C3; assumption.
    + split.
      * intros q Hq. apply elem_of_cons in Hq as [->|Hq].
        -- rewrite !I2; [unfold w1; cbn [w_fs]; auto| |].
           ++ intros q Hq. rewrite Hseg by exact Hq.
              destruct (Hnames q Hq) as (N1 & N2 & N3 & N4).
              split; congruence.
           ++ intros q Hq. rewrite Hseg by exact Hq.
              destruct (Hnames q Hq) as (N1 & N2 & N3 & N4).
              split; congruence.
        -- destruct (I1 q Hq) as [J1 J2]. rewrite Hseg in J1, J2 by exact Hq.
           split; [|exact J2]. rewrite J1. f_equal.
           unfold store_content, file_data, w1. cbn [w_fs].
           destruct (Hall q Hq) as (Fq & _). rewrite Fq. cbn [Name].
           destruct (Hnames q Hq) as (N1 & N2 & N3 & N4).
           rewrite C3 by assumption. reflexivity.
      * intros n Hn. rewrite I2.
        -- unfold w1. cbn [w_fs]. destruct (Hn p) as [N1 N2]; [left|].
           apply C3; assumption.
        -- intros q Hq. rewrite Hseg by exact Hq. apply Hn. right. exact Hq.
Qed.

Lemma Forall2_impl_elem {A B} (P Q : A -> B -> Prop) l k :
  Forall2 P l k -> (forall x y, x ∈ l -> P x y -> Q x y) -> Forall2 Q l k.
Proof.
  induction 1 as [|x y l k Hxy Hlk IH]; intros H; constructor.
  - apply H; [left|exact Hxy].
  - apply IH. intros x' y' Hx'. apply H. right. exact Hx'.
Qed.

(** The segments [setup] opens, one after the other: each is built
    from the files the directory held at the start, the store files
    stay as they were and no file disappears. *)
Lemma setup_loop_opened L : forall l w l1 w1,
  NoDup L -> Forall (fun b => 0 <= b < 2 ^ 64) L ->
  setup_loop (dup L) l w = Ret (None, l1, w1) ->
  exists ps,
    segments l1 = segments l ++ ps
    /\ Forall2 (fun b p => opened (Config_ l) (w_fs w) b (w_seg w1 p)) L ps
    /\ (forall b, file_data (w_fs w1) (storeName b)
                  = file_data (w_fs w) (storeName b))
    /\ (forall b, b ∉ L -> 0 <= b < 2 ^ 64 ->
          file_data (w_fs w1) (indexName b) = file_data (w_fs w) (indexName b))
    /\ (forall n, is_Some (files (w_fs w) !! n) ->
          is_Some (files (w_fs w1) !! n))
    /\ (forall q, (q < w_next w)%nat -> w_seg w1 q = w_seg w q)
    /\ (w_next w <= w_next w1)%nat.
Proof.
  induction L as [|b L IH]; intros l w l1 w1 Hnd Hr H.
  - cbn [dup setup_loop] in H. injection H as <- <-.
    exists []. rewrite app_nil_r. splits; auto.
  - cbn [dup setup_loop] in H.
    destruct (Log_newSegment b l w) as [[[[e|] l2] w2]|] eqn:N;
      try discriminate.
    apply Log_newSegment_ok in N as (s & fs' & Hs & -> & ->).
    apply NoDup_cons in Hnd as [Hnotin Hnd].
    apply Forall_cons in Hr as [Hb Hr].
    apply newSegment_ok in Hs. cbv zeta in Hs.
    destruct Hs as (S1 & S2 & S3 & S4 & S5 & S6 & S7 & S8 & S9 & S10).
    apply IH in H as (ps & P1 & P2 & P3 & P4 & P5 & P6 & P7);
      [|assumption|assumption].
    cbn [segments Config_ w_fs w_seg w_next] in *.
    assert (Fst : forall b', file_data fs' (storeName b')
                             = file_data (w_fs w) (storeName b')).
    { intros b'. unfold file_data.
      destruct (decide (storeName b' = storeName b)) as [E|E].
      - rewrite E, S8. reflexivity.
      - rewrite S10; [reflexivity|exact E|apply storeName_indexName]. }
    assert (Fix : forall b', b' <> b -> 0 <= b' < 2 ^ 64 ->
              file_data fs' (indexName b') = file_data (w_fs w) (indexName b')).
    { intros b' Hne Hb'. unfold file_data.
      destruct (seg_names_ne b' b Hb' Hb Hne) as (_ & _ & N3 & N4).
      rewrite S10; [reflexivity|exact N3|exact N4]. }
    exists (w_next w :: ps). splits.
    + rewrite P1, <- app_assoc. reflexivity.
    + constructor.
      * rewrite P6 by lia. rewrite upd_eq. unfold opened.
        rewrite S1, S2. splits; auto. rewrite <- S2. exact S5.
      * apply (Forall2_impl_elem _ _ _ _ P2). intros b' p Hb' Hop.
        assert (Hne : b' <> b) by (intros ->; contradiction).
        rewrite Forall_forall in Hr.
        unfold opened in *. rewrite Fst, Fix in Hop by auto. exact Hop.
    + intros b'. rewrite P3. apply Fst.
    + intros b' Hb' Hr'. apply not_elem_of_cons in Hb' as [Hne Hb'].
      rewrite P4 by assumption. apply Fix; assumption.
    + intros n Hn. apply P5.
      destruct (decide (n = storeName b)) as [->|N1]; [rewrite S8; eauto|].
      destruct (decide (n = indexName b)) as [->|N2]; [rewrite S9; eauto|].
      rewrite S10 by assumption. exact Hn.
    + intros q Hq. rewrite P6 by lia. apply upd_ne. lia.
    + lia.
Qed.

Lemma take_resize_take n k m :
  (k <= n)%nat -> (k <= length m)%nat ->
  take k (resize n (take k m)) = take k m.
Proof.
  intros H1 H2. unfold resize. rewrite take_take.
  replace (n `min` k)%nat with k by lia.
  rewrite take_app_le by (rewrite length_take; lia).
  rewrite take_take. f_equal. lia.
Qed.

(** The segment [newSegment] builds from the files a closed segment
    left holds what that segment held. *)
Lemma opened_same c fs s fsc fs2 s2 :
  0 < MaxIndexBytes (Segment c) <= entWidth * 2 ^ 32 ->
  seg_durable c fs s ->
  files fsc !! storeName (baseOffset s)
    = Some (store_content fs (seg_store s)) ->
  files fsc !! indexName (baseOffset s)
    = Some (take (Z.to_nat (ix_size (seg_index s))) (ix_mmap (seg_index s))) ->
  opened c fsc (baseOffset s) s2 ->
  file_data fs2 (storeName (baseOffset s))
    = file_data fsc (storeName (baseOffset s)) ->
  is_Some (files fs2 !! storeName (baseOffset s)) ->
  same_segment fs s fs2 s2.
Proof.
  intros Hmax D C1 C2 (O1 & O2 & O3 & O4) F2 I2.
  destruct D as (Fs & Fx & He & Hst & Hsz & Hb & Hn & Hix & Hle & Hlen
                 & (d & Hd & Hdl) & Hlast & Hc).
  set (m := ix_mmap (seg_index s)) in *.
  set (sz := ix_size (seg_index s)) in *.
  set (b := baseOffset s) in *.
  assert (Hsz0 : 0 <= sz) by plia.
  assert (Hd2 : file_data fsc (indexName b) = take (Z.to_nat sz) m).
  { unfold file_data. rewrite C2. reflexivity. }
  assert (Hlen2 : len (take (Z.to_nat sz) m) = sz).
  { unfold len in *. rewrite length_take. lia. }
  rewrite Hd2, Hlen2 in O2. rewrite int64_small in O2 by plia.
  set (m2 := resize (Z.to_nat (MaxIndexBytes (Segment c)))
                    (take (Z.to_nat sz) m)) in O2.
  assert (Hm2 : len m2 = MaxIndexBytes (Segment c)).
  { unfold m2, len. rewrite length_resize. lia. }
  assert (Htake : take (Z.to_nat sz) m2 = take (Z.to_nat sz) m).
  { unfold m2. apply take_resize_take; unfold len in *; lia. }
  assert (Hnext : nextOffset s2 = nextOffset s).
  { unfold next_after in O4.
    assert (HR : index_Read (-1) (seg_index s2) = index_Read (-1) (seg_index s)).
    { apply index_Read_ext; rewrite ?O2; cbn [ix_size ix_mmap];
        fold sz; fold m; auto; lia. }
    rewrite HR in O4.
    destruct (Z.eq_dec (nextOffset s) b) as [E|E].
    - assert (Hz : sz = 0) by plia.
      unfold index_Read in O4. fold sz in O4. rewrite Hz in O4.
      change (0 =? 0) with true in O4. cbv iota in O4. congruence.
    - rewrite (index_Read_last (nextOffset s - b)) in O4; [|plia|plia|exact Hle].
      rewrite index_Read_at in O4; [|plia|plia|exact Hle].
      replace (entWidth * (nextOffset s - b - 1)) with (sz - entWidth) in O4
        by plia.
      fold m in O4. rewrite Hlast in O4 by lia.
      rewrite wrap64_small in O4 by lia. injection O4 as <-. lia. }
  unfold same_segment. rewrite O1, O2, Fs. cbn [st_err st_File closed Name
    ix_size ix_mmap]. fold b sz m. rewrite O3.
  splits; auto; try lia.
  unfold store_content at 1. cbn [st_File Name st_buf].
  rewrite app_nil_r, F2. unfold file_data.
  rewrite C1. reflexivity.
Qed.

Lemma bases_sorted (f : nat -> segment) ps :
  StronglySorted before (map f ps) ->
  StronglySorted Z.lt (map (fun p => baseOffset (f p)) ps).
Proof.
  induction ps as [|p ps IH]; cbn [map]; intros H; [constructor|].
  apply StronglySorted_cons in H as [Hall H]. constructor; [auto|].
  rewrite Forall_forall in Hall. apply Forall_forall. intros b Hb.
  apply list_elem_of_fmap in Hb as (q & -> & Hq).
  destruct (Hall (f q)) as [_ Hlt]; [|exact Hlt].
  apply list_elem_of_fmap. eauto.
Qed.

Lemma sorted_lt_NoDup l : StronglySorted Z.lt l -> NoDup l.
Proof.
  induction 1 as [|x l Hl IH Hx]; constructor; [|exact IH].
  intros Hin. rewrite Forall_forall in Hx. apply Hx in Hin. lia.
Qed.

Lemma sorted_lt_le l : StronglySorted Z.lt l -> StronglySorted Z.le l.
Proof.
  induction 1 as [|x l Hl IH Hx]; constructor; [exact IH|].
  eapply Forall_impl; [exact Hx|]. cbn beta. intros; lia.
Qed.

Lemma merge_sort_sorted l : StronglySorted Z.lt l -> merge_sort Z.le l = l.
Proof.
  intros H. apply (StronglySorted_unique Z.le).
  - apply StronglySorted_merge_sort; apply _.
  - apply sorted_lt_le. exact H.
  - apply merge_sort_Permutation.
Qed.

(** Closing such a log and opening a log on what it left gives the
    segments back. *)
Lemma durable_reopen dir c0 l w wc l2 w2 :
  durable (withDefaults c0) l w ->
  Log_Close l w = (None, wc) ->
  NewLog dir c0 wc = Ret (None, l2, w2) ->
  Forall2 (fun p p2 =>
             same_segment (w_fs w) (w_seg w p) (w_fs w2) (w_seg w2 p2))
          (segments l) (segments l2).
Proof.
  intros (Hact & Hne & Hc & Hmax & Hlt & Hall & Hsort & Hfiles) HC HN.
  set (c := withDefaults c0) in *.
  pose proof (bases_sorted _ _ Hsort) as HBlt. fold (bases l w) in HBlt.
  pose proof (sorted_lt_NoDup _ HBlt) as HBnd.
  set (B := bases l w) in *.
  assert (Hin : forall b, b ∈ B ->
            exists p, p ∈ segments l /\ b = baseOffset (w_seg w p)).
  { intros b Hb. apply list_elem_of_fmap in Hb as (p & -> & Hp). eauto. }
  rewrite Forall_forall in Hall.
  assert (Hr : Forall (fun b => 0 <= b < 2 ^ 64) B).
  { apply Forall_forall. intros b Hb. destruct (Hin b Hb) as (p & Hp & ->).
    destruct (Hall p Hp) as (_ & _ & _ & _ & _ & Bp & Np & _). lia. }
  destruct (Log_Close_loop_durable c (segments l) w wc) as [K1 K2].
  { lia. }
  { eapply NoDup_fmap_1. exact HBnd. }
  { intros p q Hp Hq E.
    apply (NoDup_map_inj (fun p => baseOffset (w_seg w p)) (segments l));
      assumption. }
  { apply Forall_forall. exact Hall. }
  { exact HC. }
  assert (Hfc : segment_files B (w_fs wc)).
  { intros n. split.
    - intros Hn.
      destruct (decide (n ∈ map storeName B ++ map indexName B)) as [Hl|Hl].
      + apply elem_of_app in Hl as [Hl|Hl];
          apply list_elem_of_fmap in Hl as (b & -> & Hb); eauto.
      + apply Hfiles. rewrite <- K2; [exact Hn|].
        intros p Hp. split; intros ->; apply Hl, elem_of_app.
        * left. apply list_elem_of_fmap. eexists. split; [reflexivity|].
          apply list_elem_of_fmap. eauto.
        * right. apply list_elem_of_fmap. eexists. split; [reflexivity|].
          apply list_elem_of_fmap. eauto.
    - intros (b & Hb & Hname). destruct (Hin b Hb) as (p & Hp & ->).
      destruct (K1 p Hp) as [J1 J2].
      destruct Hname as [->| ->]; [rewrite J1|rewrite J2]; eauto. }
  rewrite NewLog_unfold in HN. unfold Log_setup in HN.
  rewrite (sort_twice _ B (ReadDir_segment_files B _ Hfc HBnd Hr)) in HN.
  rewrite (merge_sort_sorted B HBlt) in HN.
  destruct (setup_loop (dup B) _ wc) as [[[[e|] l1] w1]|] eqn:S;
    try discriminate.
  apply setup_loop_opened in S as (ps & P1 & P2 & P3 & _ & P5 & _);
    [|exact HBnd|exact Hr].
  cbn [segments app Config_] in P1, P2. fold c in P2.
  assert (Hps : ps <> []).
  { intros ->. apply Forall2_nil_inv_r in P2.
    apply Hne. unfold B, bases in P2. destruct (segments l); [auto|discriminate]. }
  rewrite P1 in HN. destruct ps as [|p0 ps0] eqn:Eps; [congruence|].
  injection HN as <- <-. rewrite P1.
  unfold B, bases in P2. apply Forall2_fmap_l in P2.
  apply (Forall2_impl_elem _ _ _ _ P2). intros p p2 Hp Hop. cbn beta in Hop.
  destruct (K1 p Hp) as [J1 J2].
  eapply opened_same; eauto.
Qed.

(** A segment created on two absent files is such a segment. *)
Lemma newSegment_durable dir b c fs s fs' :
  newSegment dir b c fs = Ret (inl s, fs') ->
  absent (storeName b) fs -> absent (indexName b) fs ->
  0 <= b < 2 ^ 64 -> 0 < MaxIndexBytes (Segment c) < 2 ^ 63 ->
  seg_durable c fs' s /\ baseOffset s = b /\ nextOffset s = b
  /\ (forall n, n <> storeName b -> n <> indexName b ->
        files fs' !! n = files fs !! n)
  /\ is_Some (files fs' !! storeName b)
  /\ is_Some (files fs' !! indexName b).
Proof.
  intros H As Ai Hb Hmax.
  pose proof (newSegment_fresh _ _ _ _ _ _ H As Ai)
    as (B1 & B2 & B3 & B4 & B5 & _).
  apply newSegment_ok in H. cbv zeta in H.
  destruct H as (S1 & S2 & _ & _ & _ & S6 & S7 & S8 & S9 & S10).
  rewrite int64_small in * by lia.
  assert (Hlen : len (ix_mmap (seg_index s)) = MaxIndexBytes (Segment c)).
  { rewrite S2. cbn [ix_mmap]. unfold len. rewrite length_resize. lia. }
  splits; eauto.
  unfold seg_durable. rewrite B1, B2, B3, B4, B5, Hlen, S8.
  rewrite S1 at 1 2. rewrite S2 at 1. cbn [st_File st_err ix_file].
  splits; eauto; try lia.
  rewrite S9. eexists. split; [reflexivity|].
  unfold len. rewrite length_resize. lia.
Qed.

(** A successful append keeps a segment such a segment. *)
Lemma segment_Append_durable c r s fs o s' fs' :
  seg_durable c fs s -> MaxIndexBytes (Segment c) <= entWidth * 2 ^ 32 ->
  nextOffset s + 1 < 2 ^ 64 ->
  segment_Append Marshal r s fs = Ret ((o, None), s', fs') ->
  seg_durable c fs' s' /\ baseOffset s' = baseOffset s
  /\ nextOffset s' = nextOffset s + 1 /\ o = nextOffset s
  /\ (forall n, n <> storeName (baseOffset s) -> files fs' !! n = files fs !! n).
Proof.
  intros (Fs & Fx & He & Hst & Hsz & Hb & Hn & Hix & Hle & Hlen
          & (d & Hd & Hdl) & Hlast & Hc) Hmax Hnext H.
  apply segment_Append_ok in H
    as (p & _ & -> & Hb' & Hn' & Hc' & HA & I0 & I1 & I2 & HI).
  apply store_Append_ok in HA as (_ & _ & _ & He' & Hf' & Hs' & _ & Hfr & His).
  rewrite wrap64_small in Hn' by lia.
  rewrite Fs in Hfr, His. cbn [Name] in Hfr, His.
  assert (Hcount : 0 <= nextOffset s - baseOffset s < 2 ^ 32) by plia.
  rewrite wrap64_small, uint32_small in HI by lia.
  splits; auto.
  unfold seg_durable. rewrite Hb', Hn', Hc', He', Hf', Hs', HI.
  cbn [ix_file ix_mmap ix_size].
  assert (Hpl : len (put_entry (ix_size (seg_index s))
                       (nextOffset s - baseOffset s) (st_size (seg_store s))
                       (ix_mmap (seg_index s)))
                = len (ix_mmap (seg_index s))).
  { unfold len. rewrite put_entry_length by assumption. reflexivity. }
  rewrite Hpl. splits; auto; try lia; try apply wrap64_range.
  - rewrite Hfr by apply not_eq_sym, storeName_indexName. eauto.
  - intros _.
    replace (ix_size (seg_index s) + entWidth - entWidth)
      with (ix_size (seg_index s)) by lia.
    rewrite get_put_entry by (assumption || lia). cbn [fst]. lia.
Qed.

(** In a sorted list of segments that ends with [a], the segments
    before [a] are other segments and lie before it. *)
Lemma sorted_init_before (f : nat -> segment) init a :
  StronglySorted before (map f (init ++ [a])) ->
  forall q, q ∈ init -> q <> a /\ before (f q) (f a).
Proof.
  intros H q Hq. rewrite map_app in H.
  assert (B : before (f q) (f a)).
  { eapply (StronglySorted_app_1_elem_of before); [exact H| |].
    - apply list_elem_of_fmap. eauto.
    - cbn [map]. left. }
  split; [|exact B]. intros ->. destruct B. lia.
Qed.

(** The step of [Log.Append] on the active segment keeps the log such
    a log. *)
Lemma durable_update c r l w a o s fs1 :
  durable c l w -> activeSegment l = Some a ->
  segment_Append Marshal r (w_seg w a) (w_fs w) = Ret ((o, None), s, fs1) ->
  o + 1 < 2 ^ 64 ->
  durable c l (mkWorld fs1 (upd a s (w_seg w)) (w_next w))
  /\ nextOffset s = o + 1 /\ baseOffset s < o + 1.
Proof.
  intros (Hact & Hne & Hc & Hmax & Hlt & Hall & Hsort & Hfiles) Ha HS Ho.
  pose proof Hact as Hlast. rewrite Ha in Hlast. symmetry in Hlast.
  apply last_Some in Hlast as [init Hseg].
  rewrite Forall_forall in Hall.
  assert (Hain : a ∈ segments l).
  { rewrite Hseg. apply elem_of_app. right. left. }
  pose proof (Hall a Hain) as Da.
  pose proof (segment_Append_ok _ _ _ _ _ _ _ HS) as (_ & _ & Eo & _).
  destruct (segment_Append_durable c r _ _ _ _ _ Da ltac:(lia) ltac:(lia) HS)
    as (D' & Hb' & Hn' & _ & Hfr).
  rewrite Hseg in Hsort.
  pose proof (sorted_init_before _ _ _ Hsort) as Hinit.
  assert (Ra : 0 <= baseOffset (w_seg w a) <= nextOffset (w_seg w a)
               /\ nextOffset (w_seg w a) < 2 ^ 64).
  { destruct Da as (_ & _ & _ & _ & _ & Ba & Na & _). lia. }
  assert (Hother : forall q, q ∈ segments l -> q <> a ->
            storeName (baseOffset (w_seg w q)) <> storeName (baseOffset (w_seg w a))
            /\ indexName (baseOffset (w_seg w q))
               <> storeName (baseOffset (w_seg w a))).
  { intros q Hq Hne'. rewrite Hseg in Hq. apply elem_of_app in Hq as [Hq|Hq].
    - destruct (Hinit q Hq) as [_ [B1 B2]].
      destruct (Hall q) as (_ & _ & _ & _ & _ & Bq & Nq & _).
      { rewrite Hseg. apply elem_of_app. left. exact Hq. }
      destruct (seg_names_ne (baseOffset (w_seg w q)) (baseOffset (w_seg w a)))
        as (N1 & N2 & N3 & N4); auto; lia.
    - apply list_elem_of_singleton in Hq. contradiction. }
  assert (Hbases : bases l (mkWorld fs1 (upd a s (w_seg w)) (w_next w))
                   = bases l w).
  { unfold bases. cbn [w_seg]. apply map_ext_in. intros p _.
    destruct (decide (p = a)) as [->|Hne'];
      [rewrite upd_eq|rewrite upd_ne by exact Hne']; auto. }
  split; [|lia].
  unfold durable. cbn [w_fs w_seg w_next].
  splits; auto; try (destruct Hmax; assumption).
  - apply Forall_forall. intros p Hp.
    destruct (decide (p = a)) as [->|Hne']; [rewrite upd_eq; exact D'|].
    rewrite upd_ne by exact Hne'. destruct (Hother p Hp Hne') as [N1 N2].
    apply (seg_durable_ext c (w_fs w)); auto.
  - rewrite Hseg, map_app. cbn [map]. rewrite upd_eq.
    replace (map (upd a s (w_seg w)) init) with (map (w_seg w) init).
    2:{ apply map_ext_in. intros q Hq. apply list_elem_of_In in Hq.
        destruct (Hinit q Hq) as [Hne' _]. rewrite upd_ne by exact Hne'.
        reflexivity. }
    rewrite map_app in Hsort. apply StronglySorted_app_2.
    + intros x1 x2 H1 H2. apply list_elem_of_singleton in H2. subst x2.
      apply list_elem_of_fmap in H1 as (q & -> & Hq).
      destruct (Hinit q Hq) as [_ [B1 B2]]. unfold before. lia.
    + exact (StronglySorted_app_1_l before _ _ Hsort).
    + repeat constructor.
  - rewrite Hbases. intros n. rewrite <- (Hfiles n).
    destruct (decide (n = storeName (baseOffset (w_seg w a)))) as [->|Hn].
    + destruct Da as (_ & _ & _ & Is & _).
      destruct D' as (_ & _ & _ & Is' & _). rewrite Hb' in Is'. tauto.
    + rewrite Hfr by exact Hn. tauto.
Qed.

(** The rollover of [Log.Append], to the offset after the last one of
    the active segment, keeps the log such a log. *)
Lemma durable_rollover c l w a b l' w' :
  durable c l w -> activeSegment l = Some a ->
  nextOffset (w_seg w a) = b -> baseOffset (w_seg w a) < b -> b < 2 ^ 64 ->
  Log_newSegment b l w = Ret (None, l', w') ->
  durable c l' w'.
Proof.
  intros (Hact & Hne & Hc & Hmax & Hlt & Hall & Hsort & Hfiles) Ha Hnb Hbb Hb H.
  pose proof Hact as Hlast. rewrite Ha in Hlast. symmetry in Hlast.
  apply last_Some in Hlast as [init Hseg].
  rewrite Forall_forall in Hall, Hlt.
  assert (Hain : a ∈ segments l).
  { rewrite Hseg. apply elem_of_app. right. left. }
  pose proof Hsort as Hsort'. rewrite Hseg in Hsort'.
  pose proof (sorted_init_before _ _ _ Hsort') as Hinit.
  assert (Hlow : forall q, q ∈ segments l ->
            0 <= baseOffset (w_seg w q) < b /\ nextOffset (w_seg w q) <= b).
  { intros q Hq.
    destruct (Hall q Hq) as (_ & _ & _ & _ & _ & Bq & Nq & _).
    rewrite Hseg in Hq. apply elem_of_app in Hq as [Hq|Hq].
    - destruct (Hinit q Hq) as [_ [B1 B2]]. lia.
    - apply list_elem_of_singleton in Hq. subst q. lia. }
  assert (Hb0 : 0 <= b) by (destruct (Hlow a Hain); lia).
  assert (Hnew : forall n, n = storeName b \/ n = indexName b ->
            absent n (w_fs w)).
  { intros n Hn. unfold absent.
    destruct (files (w_fs w) !! n) as [d|] eqn:E; [exfalso|reflexivity].
    destruct (proj1 (Hfiles n)) as (b' & Hb' & Hn'); [eauto|].
    apply list_elem_of_fmap in Hb' as (q & -> & Hq).
    destruct (Hlow q Hq) as [Hq1 Hq2].
    destruct (seg_names_ne b (baseOffset (w_seg w q)))
      as (N1 & N2 & N3 & N4); [lia|lia|lia|].
    destruct Hn as [->| ->]; destruct Hn' as [E'|E']; congruence. }
  apply Log_newSegment_ok in H as (s & fs' & HN & -> & ->).
  rewrite Hc in HN.
  destruct (newSegment_durable _ _ _ _ _ _ HN) as (D & B1 & B2 & N4 & N5 & N6);
    [apply Hnew; auto|apply Hnew; auto|lia|plia|].
  set (p := w_next w) in *.
  assert (Hold : forall q, q ∈ segments l -> upd p s (w_seg w) q = w_seg w q).
  { intros q Hq. apply upd_ne. apply Hlt in Hq. unfold p. lia. }
  assert (Hmap : map (upd p s (w_seg w)) (segments l)
                 = map (w_seg w) (segments l)).
  { apply map_ext_in. intros q Hq. apply Hold, list_elem_of_In, Hq. }
  unfold durable. cbn [activeSegment segments Config_ w_fs w_seg w_next].
  splits; auto; try (destruct Hmax; assumption).
  - rewrite last_snoc. reflexivity.
  - intros E. apply app_eq_nil in E as [_ E]. discriminate.
  - apply Forall_app. split.
    + apply Forall_forall. intros q Hq. apply Hlt in Hq. lia.
    + repeat constructor.
  - apply Forall_app. split.
    + apply Forall_forall. intros q Hq. rewrite Hold by exact Hq.
      destruct (Hlow q Hq) as [Hq1 Hq2].
      destruct (seg_names_ne (baseOffset (w_seg w q)) b)
        as (M1 & M2 & M3 & M4); [lia|lia|lia|].
      apply (seg_durable_ext c (w_fs w)); auto.
    + apply Forall_cons. split; [rewrite upd_eq; exact D|constructor].
  - rewrite map_app, Hmap. cbn [map]. rewrite upd_eq.
    apply StronglySorted_app_2.
    + intros x1 x2 H1 H2. apply list_elem_of_singleton in H2. subst x2.
      apply list_elem_of_fmap in H1 as (q & -> & Hq).
      destruct (Hlow q Hq). unfold before. lia.
    + exact Hsort.
    + repeat constructor.
  - assert (Hbs : bases (mkLog (Dir l) (Config_ l) (Some p) (segments l ++ [p]))
                        (mkWorld fs' (upd p s (w_seg w)) (S p))
                  = bases l w ++ [b]).
    { unfold bases. cbn [segments w_seg]. rewrite map_app. cbn [map].
      rewrite upd_eq, B1. f_equal.
      apply map_ext_in. intros q Hq. rewrite Hold; [reflexivity|].
      apply list_elem_of_In, Hq. }
    rewrite Hbs. intros n. split.
    + intros Hn.
      destruct (decide (n = storeName b)) as [->|M1].
      { exists b. split; [apply elem_of_app; right; left|auto]. }
      destruct (decide (n = indexName b)) as [->|M2].
      { exists b. split; [apply elem_of_app; right; left|auto]. }
      rewrite N4 in Hn by assumption.
      destruct (proj1 (Hfiles n) Hn) as (b' & Hb' & Hn').
      exists b'. split; [apply elem_of_app; left; exact Hb'|exact Hn'].
    + intros (b' & Hb' & Hn'). apply elem_of_app in Hb' as [Hb'|Hb'].
      * assert (Hs : is_Some (files (w_fs w) !! n)) by (apply Hfiles; eauto).
        apply list_elem_of_fmap in Hb' as (q & -> & Hq).
        destruct (Hlow q Hq) as [Hq1 Hq2].
        destruct (seg_names_ne (baseOffset (w_seg w q)) b)
          as (M1 & M2 & M3 & M4); [lia|lia|lia|].
        rewrite N4; [exact Hs| |]; destruct Hn' as [->| ->]; assumption.
      * apply list_elem_of_singleton in Hb'. subst b'.
        destruct Hn' as [->| ->]; assumption.
Qed.

(** A successful [Log.Append] that does not wrap the counter keeps the
    log such a log. *)
Lemma durable_step c r l w o l' w' :
  durable c l w -> o + 1 < 2 ^ 64 ->
  Log_Append Marshal r l w = Ret ((o, None), l', w') ->
  durable c l' w'.
Proof.
  intros D Ho H.
  apply Log_Append_ok in H as (a & s & fs1 & Ha & HS & H).
  destruct (durable_update c r l w a o s fs1 D Ha HS Ho) as (D1 & Hn & Hb).
  cbv zeta in H. destruct H as [(_ & -> & ->)|(_ & HN)]; [exact D1|].
  rewrite wrap64_small in HN.
  - eapply (durable_rollover c l _ a (o + 1)); eauto; cbn [w_seg];
      rewrite upd_eq; assumption.
  - destruct D1 as (_ & _ & _ & _ & _ & Hall & _).
    rewrite Forall_forall in Hall. cbn [w_seg w_fs] in Hall.
    destruct D as (Hact & _). rewrite Ha in Hact. symmetry in Hact.
    apply last_Some in Hact as [init Hseg].
    destruct (Hall a) as (_ & _ & _ & _ & _ & Ba & _).
    { rewrite Hseg. apply elem_of_app. right. left. }
    rewrite upd_eq in Ba. lia.
Qed.

(** [NewLog] on an empty directory gives such a log. *)
Lemma NewLog_durable dir c w0 l w :
  files (w_fs w0) = ∅ -> Config_typed c ->
  MaxIndexBytes (Segment (withDefaults c)) <= entWidth * 2 ^ 32 ->
  NewLog dir c w0 = Ret (None, l, w) ->
  durable (withDefaults c) l w.
Proof.
  intros Hempty (Hms & Hmi & Hi0) Hmax. rewrite NewLog_unfold.
  unfold Log_setup, ReadDir. cbn [w_fs]. rewrite Hempty, map_to_list_empty.
  change (merge_sort Z.le (map name_offset ([] : list (string * list byte)).*1))
    with (@nil Z).
  cbn [setup_loop segments Config_].
  intros H. apply Log_newSegment_ok in H as (s & fs' & HN & -> & ->).
  cbn [Dir Config_ segments app w_fs w_seg w_next] in *.
  assert (Hab : forall n, absent n (w_fs w0))
    by (intros n; unfold absent; rewrite Hempty; apply lookup_empty).
  assert (D2 : 0 < MaxIndexBytes (Segment (withDefaults c))).
  { unfold withDefaults. cbn [MaxIndexBytes Segment].
    destruct (MaxIndexBytes (Segment c) =? 0) eqn:E; [lia|].
    apply Z.eqb_neq in E. lia. }
  destruct (newSegment_durable _ _ _ _ _ _ HN) as (D & B1 & B2 & N4 & N5 & N6);
    [apply Hab|apply Hab|exact Hi0|plia|].
  cbn [InitialOffset Segment withDefaults] in B1, B2, N4, N5, N6.
  unfold durable. cbn [activeSegment segments Config_ w_fs w_seg w_next].
  splits; auto; try lia.
  - apply Forall_cons. split; [rewrite upd_eq; exact D|constructor].
  - cbn [map]. repeat constructor.
  - unfold bases. cbn [segments map w_seg]. rewrite upd_eq, B1.
    intros n. split.
    + intros Hn.
      destruct (decide (n = storeName (InitialOffset (Segment c)))) as [->|M1].
      { eexists. split; [left|auto]. }
      destruct (decide (n = indexName (InitialOffset (Segment c)))) as [->|M2].
      { eexists. split; [left|auto]. }
      rewrite N4 in Hn by assumption. destruct Hn as [d Hd].
      rewrite (Hab n) in Hd. discriminate.
    + intros (b & Hb & Hn). apply list_elem_of_singleton in Hb. subst b.
      destruct Hn as [->| ->]; assumption.
Qed.

Lemma durable_appends c rs : forall i0 k l w outs l' w',
  fresh_inv i0 k l w -> durable c l w -> 0 <= i0 -> 0 <= k ->
  i0 + k + len rs < 2 ^ 64 ->
  Log_Appends Marshal rs l w = Ret (outs, l', w') ->
  all_ok outs ->
  durable c l' w'.
Proof.
  induction rs as [|r rs IH]; intros i0 k l w outs l' w' Hinv D Hi0 Hk Hlim.
  - cbn [Log_Appends]. intros [= <- <- <-] _. exact D.
  - cbn [Log_Appends].
    destruct (Log_Append Marshal r l w) as [[[[o e] l1] w1]|] eqn:A;
      [|discriminate].
    destruct (Log_Appends Marshal rs l1 w1) as [[[os l2] w2]|] eqn:As;
      [|discriminate].
    intros [= <- <- <-] Hok. inversion Hok as [|? ? He Hok']; subst.
    cbn [snd] in He. subst e.
    assert (Hlen : len (r :: rs) = 1 + len rs)
      by (unfold len; cbn [length]; lia).
    pose proof (len_nonneg rs) as Hrs. rewrite Hlen in Hlim.
    destruct (fresh_inv_step Marshal _ _ _ _ _ _ _ _ Hinv Hi0 Hk A)
      as [-> Hnext].
    apply (IH i0 (k + 1) l1 w1 os l2 w2); auto; try lia.
    + apply Hnext. lia.
    + eapply durable_step; [exact D| |exact A]. lia.
Qed.

(** C3, as amended.  For a log opened against an empty directory with
    an index of at most [2^32] entries per segment, whose appends all
    succeeded without wrapping the 64-bit offset counter
    ([InitialOffset + n < 2^64]): after a [Close()] without error and a
    [NewLog] with the same configuration on the same directory,
    [LowestOffset()] and [HighestOffset()] return what they returned
    before the close, and [Read] of every offset returns what it
    returned before, the record or the error. *)
Theorem C3_reopen_preserves_offsets_and_records
    (dir : string) (c : Config) (w0 : World) (rs : list Record_)
    (l0 : Log) (w1 : World) (outs : list (Z * option error))
    (l : Log) (w wc : World) (l2 : Log) (w2 : World) :
  files (w_fs w0) = ∅ ->
  Config_typed c ->
  MaxIndexBytes (Segment (withDefaults c)) <= entWidth * 2 ^ 32 ->
  InitialOffset (Segment c) + len rs < 2 ^ 64 ->
  NewLog dir c w0 = Ret (None, l0, w1) ->
  Log_Appends Marshal rs l0 w1 = Ret (outs, l, w) ->
  all_ok outs ->
  Log_Close l w = (None, wc) ->
  NewLog dir c wc = Ret (None, l2, w2) ->
  LowestOffset l2 w2 = LowestOffset l w
  /\ HighestOffset l2 w2 = HighestOffset l w
  /\ forall off, read_result (Log_Read Unmarshal off l2 w2)
                 = read_result (Log_Read Unmarshal off l w).
Proof.
  intros Hempty Hc Hmax Hlim HN HA Hok HC HR.
  pose proof Hc as (Hms & Hmi & Hi0).
  destruct (NewLog_fresh dir c w0 l0 w1 Hempty Hi0 ltac:(lia) ltac:(lia) HN)
    as (Hinv & _).
  pose proof (NewLog_durable dir c w0 l0 w1 Hempty Hc Hmax HN) as D0.
  pose proof (durable_appends _ rs _ 0 _ _ _ _ _ Hinv D0 ltac:(lia) ltac:(lia)
                ltac:(lia) HA Hok) as D.
  apply Log_same. eapply durable_reopen; eauto.
Qed.

End Reopen.

(** ** What a failed append leaves *)



Section AppendErrorEffects.

Variable Marshal : Record_ -> option (list byte).
Variable Unmarshal : list byte -> option Record_.






End AppendErrorEffects.


(** ** The theorems on sample runs *)

Ltac run := vm_compute; reflexivity.

Ltac decide_wf := apply (bool_decide_unpack (log_wf _ _)); vm_compute; exact I.

Ltac sample_codec :=
  let p := fresh "p" in
  let Hp := fresh "Hp" in
  intros p Hp; vm_compute in Hp; injection Hp as <-;
  split; [run|]; eexists; split; [run|]; split; reflexivity.



(** C2, the claim as stated fails on a log whose [InitialOffset] is the
    last [uint64]: two successful appends return [2^64 - 1] and then
    0. *)
Lemma C2_counterexample_offsets_wrap :
  NewLog "log" (sample_config 1024 0 maxUint64) (empty_world 8)
  = Ret (None, (opened_log (sample_config 1024 0 maxUint64) 8).1,
               (opened_log (sample_config 1024 0 maxUint64) 8).2)
  /\ exists l w,
       Log_Appends wire_Marshal [hello; hello]
         (opened_log (sample_config 1024 0 maxUint64) 8).1
         (opened_log (sample_config 1024 0 maxUint64) 8).2
       = Ret ([(maxUint64, None); (0, None)], l, w).
Proof. split; [run|]. eexists _, _. run. Qed.

(** C2 on three appends to a fresh log whose segments hold 32 bytes:
    the offsets are 0, 1, 2. *)
Lemma C2_witness :
  (appended_offsets [hello; hello; hello] (opened_log (sample_config 32 0 0) 8))
  = seqZ 0 3
  /\ StronglySorted Z.lt
       (appended_offsets [hello; hello; hello]
          (opened_log (sample_config 32 0 0) 8)).
Proof.
  apply (C2_offsets_consecutive wire_Marshal "log" (sample_config 32 0 0)
           (empty_world 8) [hello; hello; hello]
           (opened_log (sample_config 32 0 0) 8).1
           (opened_log (sample_config 32 0 0) 8).2
           (appended_outs [hello; hello; hello]
              (opened_log (sample_config 32 0 0) 8))
           (appended [hello; hello; hello]
              (opened_log (sample_config 32 0 0) 8)).1
           (appended [hello; hello; hello]
              (opened_log (sample_config 32 0 0) 8)).2).
  - reflexivity.
  - unfold Config_typed. cbn. lia.
  - vm_compute. discriminate.
  - run.
  - run.
  - unfold all_ok. vm_compute. repeat constructor.
Defined.

(** C3, the claim as stated fails when the offsets wrap: a log that
    starts at [2^64 - 2] with segments of 32 bytes rolls over after
    each of two successful appends, the second time to a segment at
    offset 0; before the close [LowestOffset()] is [2^64 - 2], after
    the close and the reopening with the same configuration it is 0. *)
Lemma C3_counterexample_lowest_offset_changes :
  exists l w,
    Log_Appends wire_Marshal [hello; hello]
      (opened_log (sample_config 32 0 (2 ^ 64 - 2)) 8).1
      (opened_log (sample_config 32 0 (2 ^ 64 - 2)) 8).2
    = Ret ([(2 ^ 64 - 2, None); (2 ^ 64 - 1, None)], l, w)
    /\ NewLog "log" (sample_config 32 0 (2 ^ 64 - 2)) (empty_world 8)
       = Ret (None, (opened_log (sample_config 32 0 (2 ^ 64 - 2)) 8).1,
                    (opened_log (sample_config 32 0 (2 ^ 64 - 2)) 8).2)
    /\ LowestOffset l w = Ret (2 ^ 64 - 2)
    /\ exists wc l2 w2,
         Log_Close l w = (None, wc)
         /\ NewLog "log" (sample_config 32 0 (2 ^ 64 - 2)) wc
            = Ret (None, l2, w2)
         /\ LowestOffset l2 w2 = Ret 0.
Proof.
  eexists _, _. split; [run|]. split; [run|]. split; [run|].
  eexists _, _, _. split; [run|]. split; run.
Qed.

(** C3 on three appends to a fresh log at offset 0 whose segments hold
    32 bytes. *)
Lemma C3_witness :
  LowestOffset
    (reopened_log (sample_config 32 0 0)
       (appended [hello; hello; hello] (opened_log (sample_config 32 0 0) 8))).1
    (reopened_log (sample_config 32 0 0)
       (appended [hello; hello; hello] (opened_log (sample_config 32 0 0) 8))).2
  = LowestOffset
      (appended [hello; hello; hello] (opened_log (sample_config 32 0 0) 8)).1
      (appended [hello; hello; hello] (opened_log (sample_config 32 0 0) 8)).2
  /\ HighestOffset
       (reopened_log (sample_config 32 0 0)
          (appended [hello; hello; hello]
             (opened_log (sample_config 32 0 0) 8))).1
       (reopened_log (sample_config 32 0 0)
          (appended [hello; hello; hello]
             (opened_log (sample_config 32 0 0) 8))).2
     = HighestOffset
         (appended [hello; hello; hello] (opened_log (sample_config 32 0 0) 8)).1
         (appended [hello; hello; hello] (opened_log (sample_config 32 0 0) 8)).2
  /\ forall off,
       read_result
         (Log_Read wire_Unmarshal off
            (reopened_log (sample_config 32 0 0)
               (appended [hello; hello; hello]
                  (opened_log (sample_config 32 0 0) 8))).1
            (reopened_log (sample_config 32 0 0)
               (appended [hello; hello; hello]
                  (opened_log (sample_config 32 0 0) 8))).2)
       = read_result
           (Log_Read wire_Unmarshal off
              (appended [hello; hello; hello]
                 (opened_log (sample_config 32 0 0) 8)).1
              (appended [hello; hello; hello]
                 (opened_log (sample_config 32 0 0) 8)).2).
Proof.
  apply (C3_reopen_preserves_offsets_and_records wire_Marshal wire_Unmarshal
           "log" (sample_config 32 0 0) (empty_world 8) [hello; hello; hello]
           (opened_log (sample_config 32 0 0) 8).1
           (opened_log (sample_config 32 0 0) 8).2
           (appended_outs [hello; hello; hello]
              (opened_log (sample_config 32 0 0) 8))
           _ _
           (closed_log (appended [hello; hello; hello]
                          (opened_log (sample_config 32 0 0) 8)))).
  - reflexivity.
  - unfold Config_typed. cbn. lia.
  - vm_compute. discriminate.
  - run.
  - run.
  - run.
  - unfold all_ok. vm_compute. repeat constructor.
  - run.
  - run.
Defined.



(** C6, the claim as stated fails after failed appends: with an index
    of 13 bytes, which holds one entry, the appends after the first
    fail with [io.EOF] but grow the store; once the store has its 64
    bytes the active segment is maxed, no rollover follows, and the
    next append is delegated to that maxed segment, whose store grows
    again. *)
Lemma C6_counterexample_append_to_maxed_segment :
  appended_outs [hello; hello; hello; hello]
    (opened_log (sample_config 64 13 0) 8)
  = [(0, None); (0, Some (ErrIO EOF)); (0, Some (ErrIO EOF));
     (0, Some (ErrIO EOF))]
  /\ activeSegment
       (appended [hello; hello; hello] (opened_log (sample_config 64 13 0) 8)).1
     = Some 0%nat
  /\ IsMaxed
       ((w_seg (appended [hello; hello; hello]
                  (opened_log (sample_config 64 13 0) 8)).2) 0%nat)
     = true
  /\ exists s fs,
       segment_Append wire_Marshal hello
         ((w_seg (appended [hello; hello; hello]
                    (opened_log (sample_config 64 13 0) 8)).2) 0%nat)
         (w_fs (appended [hello; hello; hello]
                  (opened_log (sample_config 64 13 0) 8)).2)
       = Ret ((0, Some (ErrIO EOF)), s, fs)
       /\ Log_Append wire_Marshal hello
            (appended [hello; hello; hello]
               (opened_log (sample_config 64 13 0) 8)).1
            (appended [hello; hello; hello]
               (opened_log (sample_config 64 13 0) 8)).2
          = Ret ((0, Some (ErrIO EOF)),
                 (appended [hello; hello; hello]
                    (opened_log (sample_config 64 13 0) 8)).1,
                 mkWorld fs
                   (upd 0%nat s
                      (w_seg (appended [hello; hello; hello]
                                (opened_log (sample_config 64 13 0) 8)).2))
                   (w_next (appended [hello; hello; hello]
                              (opened_log (sample_config 64 13 0) 8)).2))
       /\ st_size (seg_store s) = 90.
Proof.
  split; [run|]. split; [run|]. split; [run|].
  eexists _, _. split; [run|]. split; run.
Qed.

Lemma segment_files_dom B fs :
  dom (files fs) = list_to_set (map storeName B ++ map indexName B) ->
  segment_files B fs.
Proof.
  intros H n. rewrite <- elem_of_dom, H, elem_of_list_to_set, elem_of_app.
  rewrite !list_elem_of_fmap. split.
  - intros [(b & -> & Hb)|(b & -> & Hb)]; eauto.
  - intros (b & Hb & [->| ->]); eauto.
Qed.

(** C7 on the directory a closed log of two segments left: the files
    of the base offsets 2 and 0. *)
Lemma C7_witness :
  (forall l w',
     NewLog "log" (sample_config 32 0 0)
       (closed_log (appended [hello; hello; hello]
                      (opened_log (sample_config 32 0 0) 8)))
     = Ret (None, l, w') ->
     bases l w' ≡ₚ [2; 0] /\ StronglySorted Z.lt (bases l w'))
  /\ (0 < int64 (MaxIndexBytes (Segment (withDefaults (sample_config 32 0 0)))) ->
      (forall b, b ∈ [2; 0] ->
         len (file_data
                (w_fs (closed_log (appended [hello; hello; hello]
                                     (opened_log (sample_config 32 0 0) 8))))
                (indexName b))
         <= int64 (MaxIndexBytes (Segment (withDefaults (sample_config 32 0 0))))) ->
      ([2; 0] = [] ->
       (2 <= capacity
               (w_fs (closed_log (appended [hello; hello; hello]
                                    (opened_log (sample_config 32 0 0) 8)))))%nat) ->
      exists l w',
        NewLog "log" (sample_config 32 0 0)
          (closed_log (appended [hello; hello; hello]
                         (opened_log (sample_config 32 0 0) 8)))
        = Ret (None, l, w')).
Proof.
  apply (C7_setup_one_segment_per_base_offset "log" (sample_config 32 0 0)
           (closed_log (appended [hello; hello; hello]
                          (opened_log (sample_config 32 0 0) 8)))
           [2; 0]).
  - apply segment_files_dom.
    apply (bool_decide_unpack (_ = _)). vm_compute. exact I.
  - apply (bool_decide_unpack (NoDup _)). vm_compute. exact I.
  - repeat constructor; lia.
Defined.

(** C8, the claim as stated fails in two ways.  The test of
    [Truncate(k)] is [nextOffset <= k + 1] in 64-bit arithmetic: at
    [k = 2^64 - 1] the sum wraps to 0, and the one segment of a log
    with one record, whose [nextOffset] is 1, is kept.  And a read
    below [LowestOffset()] can return a record when the offsets of
    the log have wrapped: a log opened at [InitialOffset = 2^64 - 2]
    with one record per segment holds, after four appends, the
    segments [2^64-2, 2^64-1), [2^64-1, 0), [0, 1), [1, 2) and
    [2, 2); [Truncate(0)] removes the second and the third,
    [LowestOffset()] is [2^64 - 2], and [Read(1)] returns the record
    that was appended last. *)
Lemma C8_counterexample_wrapped_offsets :
  (map (fun p => nextOffset (w_seg one_record.2 p)) (segments one_record.1)
   = [1]
   /\ Log_Truncate maxUint64 one_record.1 one_record.2
      = (None, one_record.1, one_record.2))
  /\ NewLog "log" (sample_config 1 1024 (2 ^ 64 - 2)) (empty_world 16)
     = Ret (None, wrapped_log.1, wrapped_log.2)
  /\ Log_Appends wire_Marshal [hello; hello; hello; hello]
       wrapped_log.1 wrapped_log.2
     = Ret ([(2 ^ 64 - 2, None); (2 ^ 64 - 1, None); (0, None); (1, None)],
            (appended [hello; hello; hello; hello] wrapped_log).1,
            (appended [hello; hello; hello; hello] wrapped_log).2)
  /\ map (fun p =>
            (baseOffset
               (w_seg (appended [hello; hello; hello; hello] wrapped_log).2 p),
             nextOffset
               (w_seg (appended [hello; hello; hello; hello] wrapped_log).2 p)))
         (segments (appended [hello; hello; hello; hello] wrapped_log).1)
     = [(2 ^ 64 - 2, 2 ^ 64 - 1); (2 ^ 64 - 1, 0); (0, 1); (1, 2); (2, 2)]
  /\ Log_Truncate 0
       (appended [hello; hello; hello; hello] wrapped_log).1
       (appended [hello; hello; hello; hello] wrapped_log).2
     = (None,
        (truncated 0 (appended [hello; hello; hello; hello] wrapped_log)).1,
        (truncated 0 (appended [hello; hello; hello; hello] wrapped_log)).2)
  /\ LowestOffset
       (truncated 0 (appended [hello; hello; hello; hello] wrapped_log)).1
       (truncated 0 (appended [hello; hello; hello; hello] wrapped_log)).2
     = Ret (2 ^ 64 - 2)
  /\ read_result
       (Log_Read wire_Unmarshal 1
          (truncated 0 (appended [hello; hello; hello; hello] wrapped_log)).1
          (truncated 0 (appended [hello; hello; hello; hello] wrapped_log)).2)
     = Some (inl (mkRecord (Value hello) 1)).
Proof. splits; run. Qed.

(** C8 on a log of the segments [0, 2) and [2, 3): [Truncate(1)]
    keeps the second one; [LowestOffset()] is then 2, [Read(0)] is
    out of range and [Read(2)] returns the record it returned
    before. *)
Lemma C8_witness :
  segments
    (truncated 1 (appended [hello; hello; hello]
                    (opened_log (sample_config 32 0 0) 8))).1
  = filter (fun p =>
              wrap64 (1 + 1)
              < nextOffset
                  (w_seg (appended [hello; hello; hello]
                            (opened_log (sample_config 32 0 0) 8)).2 p))
           (segments (appended [hello; hello; hello]
                        (opened_log (sample_config 32 0 0) 8)).1)
  /\ read_result
       (Log_Read wire_Unmarshal 0
          (truncated 1 (appended [hello; hello; hello]
                          (opened_log (sample_config 32 0 0) 8))).1
          (truncated 1 (appended [hello; hello; hello]
                          (opened_log (sample_config 32 0 0) 8))).2)
     = Some (inr (ErrOffsetOutOfRange 0))
  /\ read_result
       (Log_Read wire_Unmarshal 2
          (truncated 1 (appended [hello; hello; hello]
                          (opened_log (sample_config 32 0 0) 8))).1
          (truncated 1 (appended [hello; hello; hello]
                          (opened_log (sample_config 32 0 0) 8))).2)
     = Some (inl (mkRecord (Value hello) 2)).
Proof.
  assert (H : Log_Truncate 1
                (appended [hello; hello; hello]
                   (opened_log (sample_config 32 0 0) 8)).1
                (appended [hello; hello; hello]
                   (opened_log (sample_config 32 0 0) 8)).2
              = (None,
                 (truncated 1 (appended [hello; hello; hello]
                                 (opened_log (sample_config 32 0 0) 8))).1,
                 (truncated 1 (appended [hello; hello; hello]
                                 (opened_log (sample_config 32 0 0) 8))).2))
    by run.
  destruct (C8_truncate_removes_low_segments wire_Unmarshal 1 _ _ _ _ H)
    as (E & _ & _ & Hrd).
  assert (Hwf : log_wf
                  (appended [hello; hello; hello]
                     (opened_log (sample_config 32 0 0) 8)).1
                  (appended [hello; hello; hello]
                     (opened_log (sample_config 32 0 0) 8)).2) by decide_wf.
  assert (Hlo : LowestOffset
                  (truncated 1 (appended [hello; hello; hello]
                                  (opened_log (sample_config 32 0 0) 8))).1
                  (truncated 1 (appended [hello; hello; hello]
                                  (opened_log (sample_config 32 0 0) 8))).2
                = Ret 2) by run.
  destruct (Hrd Hwf 2 Hlo) as [Hlow Hhigh].
  split; [exact E|]. split.
  - apply Hlow. run.
  - apply Hhigh; [vm_compute; discriminate|run].
Defined.

(** C10 on a log of one segment with one record: [Truncate(100)]
    removes the segment and leaves it the active one; the next
    [Append] goes to the removed segment and returns the offset 1,
    and [Read(1)] is out of range.  On a log without records the
    [Append] after the truncation faults. *)
Lemma C10_witness :
  (Dir (truncated 100 one_record).1 = Dir one_record.1
   /\ Config_ (truncated 100 one_record).1 = Config_ one_record.1
   /\ activeSegment (truncated 100 one_record).1 = activeSegment one_record.1)
  /\ segments (truncated 100 one_record).1 = []
  /\ removed (w_seg (truncated 100 one_record).2 0%nat) (w_fs (truncated 100
      one_record).2)
  /\ (exists s2,
        segment_Append wire_Marshal hello (w_seg (truncated 100 one_record).2
            0%nat) (w_fs (truncated 100 one_record).2)
        = Ret ((nextOffset (w_seg one_record.2 0%nat), None), s2, w_fs
            (truncated 100 one_record).2))
  /\ read_result
       (Log_Read wire_Unmarshal (nextOffset (w_seg one_record.2 0%nat))
          (appended [hello] (truncated 100 one_record)).1 (appended [hello]
              (truncated 100 one_record)).2)
     = Some (inr (ErrOffsetOutOfRange (nextOffset (w_seg one_record.2
         0%nat))))
  /\ Log_Append wire_Marshal hello (truncated 0 no_record).1 (truncated 0
      no_record).2 = Panic.
Proof.
  assert (H : Log_Truncate 100 one_record.1 one_record.2 = (None, (truncated
      100 one_record).1, (truncated 100 one_record).2)) by run.
  destruct (C10_truncate_keeps_active_segment wire_Marshal wire_Unmarshal
              100 _ _ None _ _ H) as [Hsame Hall].
  assert (F : Forall (fun p => nextOffset (w_seg one_record.2 p) <= wrap64
      (100 + 1))
                (segments one_record.1)).
  { apply (bool_decide_unpack (Forall _ _)). vm_compute. exact I. }
  assert (Ha : activeSegment one_record.1 = Some 0%nat) by run.
  assert (Hin : 0%nat ∈ segments one_record.1).
  { apply (bool_decide_unpack (_ ∈ _)). vm_compute. exact I. }
  destruct (Hall 0%nat eq_refl F Ha Hin) as (Hnil & Hrem & _ & Hfit & Hread).
  clear Hall.
  split; [exact Hsame|]. split; [exact Hnil|]. split; [exact Hrem|]. split.
  - assert (HM : wire_Marshal
                   (mkRecord (Value hello) (nextOffset (w_seg one_record.2
                       0%nat)))
                 = Some (default []
                           (wire_Marshal
                              (mkRecord (Value hello)
                                 (nextOffset (w_seg one_record.2 0%nat))))))
                                     by run.
    pose proof (Hfit hello _ HM) as Hf.
    assert (C : (ix_size (seg_index (w_seg one_record.2 0%nat)) + entWidth
                 <=? page_end (ix_size (seg_index (w_seg one_record.2
                     0%nat))))
                = true) by run.
    rewrite C in Hf. clear C.
    destruct Hf as (s2 & E & _);
      [vm_compute; discriminate|vm_compute; discriminate
      |vm_compute; discriminate|run|].
    exists s2. exact E.
  - assert (HA : Log_Append wire_Marshal hello (truncated 100 one_record).1
      (truncated 100 one_record).2
                 = Ret ((nextOffset (w_seg one_record.2 0%nat), None),
                        (appended [hello] (truncated 100 one_record)).1,
                            (appended [hello] (truncated 100 one_record)).2))
      by run.
    split; [exact (proj1 (proj2 (Hread hello _ _ _ HA)))|].
    assert (H0 : Log_Truncate 0 no_record.1 no_record.2 = (None, (truncated 0
        no_record).1, (truncated 0 no_record).2)) by run.
    destruct (C10_truncate_keeps_active_segment wire_Marshal wire_Unmarshal
                0 _ _ None _ _ H0) as [_ Hall0].
    assert (F0 : Forall (fun p => nextOffset (w_seg no_record.2 p) <= wrap64
        (0 + 1))
                   (segments no_record.1)).
    { apply (bool_decide_unpack (Forall _ _)). vm_compute. exact I. }
    assert (Ha0 : activeSegment no_record.1 = Some 0%nat) by run.
    assert (Hin0 : 0%nat ∈ segments no_record.1).
    { apply (bool_decide_unpack (_ ∈ _)). vm_compute. exact I. }
    destruct (Hall0 0%nat eq_refl F0 Ha0 Hin0) as (_ & _ & _ & Hfit0 & _).
    assert (HM0 : wire_Marshal
                    (mkRecord (Value hello) (nextOffset (w_seg no_record.2
                        0%nat)))
                  = Some (default []
                            (wire_Marshal
                               (mkRecord (Value hello)
                                  (nextOffset (w_seg no_record.2 0%nat))))))
                                      by run.
    pose proof (Hfit0 hello _ HM0) as Hf.
    assert (C : (ix_size (seg_index (w_seg no_record.2 0%nat)) + entWidth
                 <=? page_end (ix_size (seg_index (w_seg no_record.2 0%nat))))
                = false) by run.
    rewrite C in Hf. clear C.
    destruct Hf as [_ E];
      [vm_compute; discriminate|vm_compute; discriminate
      |vm_compute; discriminate|run|].
    exact E.
Defined.


(** ** The store *)

(** A successful [store.Append(p)] returns the number of bytes of the
    frame, [len(p) + 8], and the size the store had as the position;
    the size grows by the frame (in 64-bit arithmetic), and
    [store.Read] at the returned position returns [p], whether the
    frame is still in the buffer or not. *)
Theorem store_Append_Read_round_trip (p : list byte) (s : store) (fs : FS)
    (n pos : Z) (s' : store) (fs' : FS) :
  closed (st_File s) = false ->
  is_Some (files fs !! Name (st_File s)) ->
  st_size s = len (store_content fs s) ->
  st_size s + lenWidth < 2 ^ 63 -> len p < 2 ^ 64 ->
  store_Append p s fs = ((n, pos, None), s', fs') ->
  n = len p + lenWidth /\ pos = st_size s
  /\ st_size s' = wrap64 (st_size s + n)
  /\ exists fs'',
       store_Read pos s' fs'
       = ((p, None), mkStore (st_File s') [] None (st_size s'), fs'').
Proof.
  intros Hc Hf Hsz Hlim Hp H.
  apply store_Append_ok in H as (-> & -> & He & He' & HF & Hs' & Hcont & _ & His).
  splits; auto.
  destruct (His Hf) as [d Hd]. rewrite <- HF in Hd.
  destruct (store_Read_frame (st_size s) s' fs' d (store_content fs s) p [])
    as (fs2 & HR & _); auto.
  - rewrite HF. exact Hc.
  - rewrite Hcont, app_nil_r. reflexivity.
  - eauto.
Qed.

Lemma store_Append_Read_round_trip_witness :
  exists n pos s' fs',
    store_Append (Value hello) (sample_store "0.store") (sample_fs "0.store")
    = ((n, pos, None), s', fs')
    /\ n = 19 /\ pos = 0
    /\ exists fs'',
         store_Read pos s' fs'
         = ((Value hello, None), mkStore (st_File s') [] None (st_size s'), fs'').
Proof.
  eexists _, _, _, _. split; [run|].
  destruct (store_Append_Read_round_trip (Value hello) (sample_store "0.store")
              (sample_fs "0.store") 19 0
              (mkStore (mkFile "0.store" false)
                 (be_bytes 8 11 ++ Value hello) None 19)
              (sample_fs "0.store"))
    as (_ & _ & _ & R); try run; [eexists; run|].
  split; [reflexivity|]. split; [reflexivity|]. exact R.
Defined.

Lemma drop_take_length {A} (l : list A) n k :
  (length (take n (drop k l)) <? n)%nat = (length l - k <? n)%nat.
Proof.
  rewrite length_take, length_drop.
  destruct (Nat.ltb_spec (n `min` (length l - k)) n);
    destruct (Nat.ltb_spec (length l - k) n); auto; lia.
Qed.

Lemma store_ReadAt_content (n : nat) (off : Z) (s : store) (fs : FS) :
  store_open fs s -> 0 <= off ->
  exists fs',
    store_ReadAt n off s fs
    = ((take n (drop (Z.to_nat off) (store_content fs s)),
        if (length (store_content fs s) - Z.to_nat off <? n)%nat
        then Some EOF else None),
       mkStore (st_File s) [] None (st_size s), fs')
    /\ store_content fs' (mkStore (st_File s) [] None (st_size s))
       = store_content fs s
    /\ store_open fs' (mkStore (st_File s) [] None (st_size s)).
Proof.
  intros (He & Hc & Hf) Hoff. unfold store_ReadAt.
  destruct (bufio_Flush_content s fs He Hc Hf) as (fs1 & -> & F1 & _).
  exists fs1. cbn [st_File]. split; [|split].
  3:{ unfold store_open. cbn [st_err st_File]. rewrite F1. eauto. }
  - unfold File_ReadAt. rewrite Hc, F1.
    destruct (off <? 0) eqn:E; [apply Z.ltb_lt in E; lia|].
    destruct (Nat.eqb_spec n 0) as [->|Hn].
    + rewrite take_0. reflexivity.
    + rewrite drop_take_length.
      destruct (length (store_content fs s) - Z.to_nat off <? n)%nat;
        reflexivity.
  - unfold store_content at 1, file_data. cbn [st_File st_buf].
    rewrite F1. apply app_nil_r.
Qed.

(** [store.ReadAt] reads the content of the store, buffered bytes
    included: the [n] bytes at [off], or, past the end, the bytes
    there are with [io.EOF]; the content is unchanged and the buffer
    is empty afterwards. *)
Theorem store_ReadAt_reads_content (n : nat) (off : Z) (s : store) (fs : FS) :
  store_open fs s -> 0 <= off ->
  exists fs',
    store_ReadAt n off s fs
    = ((take n (drop (Z.to_nat off) (store_content fs s)),
        if (length (store_content fs s) - Z.to_nat off <? n)%nat
        then Some EOF else None),
       mkStore (st_File s) [] None (st_size s), fs')
    /\ store_content fs' (mkStore (st_File s) [] None (st_size s))
       = store_content fs s
    /\ store_open fs' (mkStore (st_File s) [] None (st_size s)).
Proof. apply store_ReadAt_content. Qed.

Lemma store_ReadAt_reads_content_witness :
  exists fs',
    store_ReadAt 4 8
      (mkStore (mkFile "0.store" false) (be_bytes 8 11 ++ Value hello) None 19)
      (sample_fs "0.store")
    = ((take 4 (Value hello), None), sample_store_after, fs').
Proof.
  destruct (store_ReadAt_reads_content 4 8
              (mkStore (mkFile "0.store" false)
                 (be_bytes 8 11 ++ Value hello) None 19)
              (sample_fs "0.store")) as (fs' & H & _).
  - split; [reflexivity|]. split; [reflexivity|]. eexists. run.
  - lia.
  - exists fs'. exact H.
Defined.


(** Two successive reads of an [originReader] return consecutive
    pieces of the content of the store, and the reader advances by
    what it returned. *)
Theorem originReader_Read_advances (n m : nat) (o : originReader) (fs : FS) :
  store_open fs (or_store o) -> 0 <= or_off o ->
  or_off o + Z.of_nat n + Z.of_nat m <= len (store_content fs (or_store o)) ->
  len (store_content fs (or_store o)) < 2 ^ 63 ->
  exists o1 fs1 o2 fs2,
    originReader_Read n o fs
    = ((take n (drop (Z.to_nat (or_off o)) (store_content fs (or_store o))),
        None), o1, fs1)
    /\ originReader_Read m o1 fs1
       = ((take m (drop (Z.to_nat (or_off o) + n)
                        (store_content fs (or_store o))), None), o2, fs2)
    /\ or_off o2 = or_off o + Z.of_nat n + Z.of_nat m.
Proof.
  intros Ho Hoff Hlen Hlim. unfold len in Hlen, Hlim.
  set (c := store_content fs (or_store o)) in *.
  destruct (store_ReadAt_content n (or_off o) (or_store o) fs Ho Hoff)
    as (fs1 & R1 & C1 & O1). fold c in R1, C1.
  replace (length c - Z.to_nat (or_off o) <? n)%nat with false in R1
    by (symmetry; apply Nat.ltb_ge; lia).
  assert (L1 : len (take n (drop (Z.to_nat (or_off o)) c)) = Z.of_nat n).
  { unfold len. rewrite length_take, length_drop. lia. }
  set (s1 := mkStore (st_File (or_store o)) [] None (st_size (or_store o))) in *.
  destruct (store_ReadAt_content m (or_off o + Z.of_nat n) s1 fs1 O1
              ltac:(lia)) as (fs2 & R2 & C2 & O2).
  rewrite C1 in R2.
  replace (length c - Z.to_nat (or_off o + Z.of_nat n) <? m)%nat with false in R2
    by (symmetry; apply Nat.ltb_ge; lia).
  replace (Z.to_nat (or_off o + Z.of_nat n)) with (Z.to_nat (or_off o) + n)%nat
    in R2 by lia.
  assert (L2 : len (take m (drop (Z.to_nat (or_off o) + n) c)) = Z.of_nat m).
  { unfold len. rewrite length_take, length_drop. lia. }
  eexists _, _, _, _. unfold originReader_Read. rewrite R1.
  split; [reflexivity|]. cbn [or_store or_off]. rewrite L1.
  rewrite (int64_small (or_off o + Z.of_nat n)) by lia.
  cbn [st_File st_size] in R2. rewrite R2.
  split; [reflexivity|]. cbn [or_off]. rewrite L2.
  apply int64_small. lia.
Qed.

Lemma originReader_Read_advances_witness :
  exists o1 fs1 o2 fs2,
    originReader_Read 8
      (mkOriginReader
         (mkStore (mkFile "0.store" false) (be_bytes 8 11 ++ Value hello) None 19)
         0)
      (sample_fs "0.store")
    = ((be_bytes 8 11, None), o1, fs1)
    /\ originReader_Read 11 o1 fs1 = ((Value hello, None), o2, fs2)
    /\ or_off o2 = 19.
Proof.
  destruct (originReader_Read_advances 8 11
              (mkOriginReader
                 (mkStore (mkFile "0.store" false)
                    (be_bytes 8 11 ++ Value hello) None 19) 0)
              (sample_fs "0.store"))
    as (o1 & fs1 & o2 & fs2 & R1 & R2 & E).
  - split; [reflexivity|]. split; [reflexivity|]. eexists. run.
  - cbn. lia.
  - vm_compute. discriminate.
  - run.
  - exists o1, fs1, o2, fs2. split; [exact R1|]. split; [exact R2|exact E].
Defined.

(** ** The index *)

Lemma get_entry_take at_ n m :
  0 <= at_ -> at_ + entWidth <= Z.of_nat n ->
  get_entry at_ (take n m) = get_entry at_ m.
Proof.
  intros H0 H1. unfold get_entry.
  rewrite !take_drop_commute, !take_take.
  unfold entWidth, offWidth, posWidth in *.
  f_equal; f_equal; f_equal; f_equal; lia.
Qed.

(** A successful [index.Write(off, pos)] on an index of [k] entries
    makes [(off, pos)] entry [k]: [index.Read(k)] and [index.Read(-1)]
    return it, and the entries before it read as they did. *)
Theorem index_Write_Read_round_trip (off pos : Z) (i i' : index) (k : Z) :
  ix_size i = entWidth * k -> 0 <= k < 2 ^ 32 ->
  0 <= off < 2 ^ 32 -> 0 <= pos < 2 ^ 64 ->
  index_Write off pos i = Ret (None, i') ->
  ix_size i' = entWidth * (k + 1)
  /\ index_Read k i' = Ret (off, pos, None)
  /\ index_Read (-1) i' = Ret (off, pos, None)
  /\ forall j, 0 <= j < k -> index_Read j i' = index_Read j i.
Proof.
  intros Hk Hkr Hoff Hpos H.
  apply index_Write_inv in H as [(? & _)|(_ & H0 & H1 & H2 & ->)];
    [discriminate|].
  cbn [ix_size].
  assert (Hlen : len (put_entry (ix_size i) off pos (ix_mmap i))
                 = len (ix_mmap i)).
  { unfold len. rewrite put_entry_length by assumption. reflexivity. }
  assert (Rk : index_Read k
                 (mkIndex (ix_file i)
                    (put_entry (ix_size i) off pos (ix_mmap i))
                    (ix_size i + entWidth))
               = Ret (off, pos, None)).
  { rewrite index_Read_at; cbn [ix_size ix_mmap]; try plia.
    rewrite <- Hk, get_put_entry by assumption. reflexivity. }
  splits.
  - plia.
  - exact Rk.
  - rewrite (index_Read_last (k + 1)); cbn [ix_size ix_mmap]; try plia.
    replace (k + 1 - 1) with k by lia. exact Rk.
  - intros j Hj.
    rewrite !index_Read_at; cbn [ix_size ix_mmap]; try plia.
    rewrite <- (get_entry_take (entWidth * j) (Z.to_nat (ix_size i))
                  (put_entry _ _ _ _)) by plia.
    rewrite put_entry_take by assumption.
    rewrite get_entry_take by plia. reflexivity.
Qed.

Lemma index_Write_Read_round_trip_witness :
  exists i',
    index_Write 0 19 (sample_index 24) = Ret (None, i')
    /\ ix_size i' = 12
    /\ index_Read 0 i' = Ret (0, 19, None)
    /\ index_Read (-1) i' = Ret (0, 19, None).
Proof.
  eexists. split; [run|].
  destruct (index_Write_Read_round_trip 0 19 (sample_index 24)
              (mkIndex (mkFile "0.index" false)
                 (put_entry 0 0 19 (replicate 24 x00)) 12) 0)
    as (E & R1 & R2 & _); try run; try lia.
  split; [exact E|]. split; [exact R1|exact R2].
Defined.

(** [index.Write] on a full index (no room for 12 more bytes in the
    mapping) returns [io.EOF] and leaves the index as it was;
    otherwise it succeeds and the index grows by one entry within the
    same mapping.  The one exception is an index that was closed: its
    file was cut under the mapping, and a write that is not full but
    reaches past the last page of that file faults. *)
Theorem index_Write_full_or_grows (off pos : Z) (i : index) :
  0 <= ix_size i -> ix_size i + entWidth < 2 ^ 64 ->
  if len (ix_mmap i) <? ix_size i + entWidth
  then index_Write off pos i = Ret (Some EOF, i)
  else if negb (closed (ix_file i))
          || (ix_size i + entWidth <=? page_end (ix_size i))
  then exists i',
         index_Write off pos i = Ret (None, i')
         /\ ix_size i' = ix_size i + entWidth
         /\ len (ix_mmap i') = len (ix_mmap i)
         /\ ix_file i' = ix_file i
  else index_Write off pos i = Panic.
Proof.
  intros H0 H1.
  destruct (len (ix_mmap i) <? ix_size i + entWidth) eqn:E.
  - unfold index_Write. rewrite wrap64_small by plia. rewrite E. reflexivity.
  - apply Z.ltb_ge in E. rewrite index_Write_room by assumption.
    unfold backed. destruct (negb _ || _); [|reflexivity].
    eexists. split; [reflexivity|]. cbn [ix_size ix_mmap ix_file].
    splits; auto. unfold len. rewrite put_entry_length by assumption.
    reflexivity.
Qed.

Lemma index_Write_full_or_grows_witness :
  index_Write 1 38 (mkIndex (mkFile "0.index" false) (replicate 13 x00) 12)
  = Ret (Some EOF, mkIndex (mkFile "0.index" false) (replicate 13 x00) 12).
Proof.
  apply (index_Write_full_or_grows 1 38
           (mkIndex (mkFile "0.index" false) (replicate 13 x00) 12));
    [vm_compute; discriminate|run].
Defined.


(** Closing an index and mapping its file again, with a
    [MaxIndexBytes] that has room for its entries, gives the entries
    back: the file holds exactly the entries, the new index has the
    size of the old one and every [index.Read] returns what it
    returned. *)
Theorem index_Close_newIndex_round_trip (i : index) (fs : FS) (d : list byte)
    (i' : index) (fs' : FS) (c : Config) (i2 : index) (fs2 : FS) :
  files fs !! Name (ix_file i) = Some d -> len d = len (ix_mmap i) ->
  0 <= ix_size i <= len (ix_mmap i) ->
  ix_size i <= MaxIndexBytes (Segment c) < 2 ^ 63 ->
  index_Close i fs = (None, i', fs') ->
  newIndex (mkFile (Name (ix_file i)) false) c fs' = (inl i2, fs2) ->
  files fs' !! Name (ix_file i)
    = Some (take (Z.to_nat (ix_size i)) (ix_mmap i))
  /\ ix_size i2 = ix_size i
  /\ forall k, index_Read k i2 = index_Read k i.
Proof.
  intros Hd Hdl Hsz Hmax HC HN.
  apply index_Close_ok in HC as (_ & _ & _ & d' & Hd' & ->).
  rewrite Hd in Hd'. injection Hd' as <-.
  rewrite msync_same_length in * by (unfold len in Hdl; lia).
  rewrite int64_small in * by lia.
  rewrite resize_prefix in * by (unfold len in Hsz; lia).
  assert (F : files (set_file (Name (ix_file i))
                       (take (Z.to_nat (ix_size i)) (ix_mmap i)) fs)
              !! Name (ix_file i)
              = Some (take (Z.to_nat (ix_size i)) (ix_mmap i)))
    by apply files_set_file_eq.
  split; [exact F|].
  apply newIndex_ok in HN as (d2 & Hd2 & _ & -> & _ & _).
  cbn [Name] in Hd2. rewrite F in Hd2. injection Hd2 as <-.
  rewrite int64_small by lia.
  assert (L : len (take (Z.to_nat (ix_size i)) (ix_mmap i)) = ix_size i).
  { unfold len in *. rewrite length_take. lia. }
  cbn [ix_size]. split; [exact L|].
  intros k. apply index_Read_ext; cbn [ix_size ix_mmap]; rewrite ?L; try lia.
  - unfold len. rewrite length_resize. lia.
  - apply take_resize_take; unfold len in *; lia.
Qed.

Lemma index_Close_newIndex_round_trip_witness :
  exists i' fs' i2 fs2,
    index_Close
      (mkIndex (mkFile "0.index" false) (put_entry 0 0 19 (replicate 24 x00)) 12)
      (mkFS {[ "0.index" := replicate 24 x00 ]} 8)
    = (None, i', fs')
    /\ newIndex (mkFile "0.index" false) (sample_config 32 24 0) fs'
       = (inl i2, fs2)
    /\ ix_size i2 = 12
    /\ index_Read 0 i2 = Ret (0, 19, None).
Proof.
  eexists _, _, _, _. split; [run|]. split; [run|].
  destruct (index_Close_newIndex_round_trip
              (mkIndex (mkFile "0.index" false)
                 (put_entry 0 0 19 (replicate 24 x00)) 12)
              (mkFS {[ "0.index" := replicate 24 x00 ]} 8)
              (replicate 24 x00)
              (mkIndex (mkFile "0.index" true)
                 (put_entry 0 0 19 (replicate 24 x00)) 12)
              (mkFS {[ "0.index" := take 12 (put_entry 0 0 19 (replicate 24 x00)) ]} 8)
              (sample_config 32 24 0)
              (mkIndex (mkFile "0.index" false)
                 (resize 24 (take 12 (put_entry 0 0 19 (replicate 24 x00)))) 12)
              (mkFS {[ "0.index" :=
                       resize 24 (take 12 (put_entry 0 0 19 (replicate 24 x00))) ]} 8))
    as (_ & E & R); try run.
  - split; vm_compute; discriminate.
  - split; [vm_compute; discriminate|run].
  - split; [exact E|]. rewrite R. run.
Defined.

(** ** Segments *)

Section SegmentRead.

Variable Unmarshal : list byte -> option Record_.

(** [segment.Read(off)] for an offset after the last one of the
    segment (and less than [2^32] from its base) returns [io.EOF],
    the error of the index, and touches neither the store nor the
    files. *)
Theorem segment_Read_past_end (off : Z) (s : segment) (fs : FS) :
  0 <= baseOffset s <= nextOffset s ->
  ix_size (seg_index s) = entWidth * (nextOffset s - baseOffset s) ->
  nextOffset s <= off < baseOffset s + 2 ^ 32 -> off < 2 ^ 64 ->
  segment_Read Unmarshal off s fs = Ret (inr (ErrIO EOF), s, fs).
Proof.
  intros Hb Hix Hoff Hlim. unfold segment_Read.
  rewrite wrap64_small, int64_small by lia.
  unfold index_Read.
  destruct (ix_size (seg_index s) =? 0); [reflexivity|].
  replace (off - baseOffset s =? -1) with false
    by (symmetry; apply Z.eqb_neq; lia).
  rewrite uint32_small by lia.
  rewrite (wrap64_small ((off - baseOffset s) * entWidth)) by plia.
  rewrite (wrap64_small ((off - baseOffset s) * entWidth + entWidth)) by plia.
  replace (ix_size (seg_index s)
           <? (off - baseOffset s) * entWidth + entWidth) with true
    by (symmetry; apply Z.ltb_lt; plia).
  reflexivity.
Qed.

End SegmentRead.

Lemma segment_Read_past_end_witness :
  segment_Read wire_Unmarshal 1
    (w_seg (appended [hello] (opened_log (sample_config 1024 0 0) 8)).2 0%nat)
    (w_fs (appended [hello] (opened_log (sample_config 1024 0 0) 8)).2)
  = Ret (inr (ErrIO EOF),
         w_seg (appended [hello] (opened_log (sample_config 1024 0 0) 8)).2 0%nat,
         w_fs (appended [hello] (opened_log (sample_config 1024 0 0) 8)).2).
Proof.
  apply (segment_Read_past_end wire_Unmarshal 1).
  - split; vm_compute; discriminate.
  - run.
  - split; [vm_compute; discriminate|run].
  - run.
Defined.

(** ** File names *)

(** The names [newSegment] gives the files of a base offset are read
    back by [setup] as that base offset, the two names of an offset
    differ by their extension, and different offsets have different
    names. *)
Theorem segment_file_names_round_trip (b b' : Z) :
  0 <= b < 2 ^ 64 -> 0 <= b' < 2 ^ 64 ->
  name_offset (storeName b) = b /\ name_offset (indexName b) = b
  /\ path_Ext (storeName b) = ".store"%string
  /\ path_Ext (indexName b) = ".index"%string
  /\ (storeName b = storeName b' -> b = b')
  /\ (indexName b = indexName b' -> b = b').
Proof.
  intros H H'. splits.
  - apply name_offset_storeName. exact H.
  - apply name_offset_indexName. exact H.
  - apply path_Ext_storeName.
  - apply path_Ext_indexName.
  - apply storeName_inj; assumption.
  - apply indexName_inj; assumption.
Qed.

Lemma segment_file_names_round_trip_witness :
  name_offset (storeName maxUint64) = maxUint64
  /\ name_offset (indexName maxUint64) = maxUint64
  /\ path_Ext (storeName maxUint64) = ".store"%string
  /\ path_Ext (indexName maxUint64) = ".index"%string
  /\ (storeName maxUint64 = storeName 0 -> maxUint64 = 0)
  /\ (indexName maxUint64 = indexName 0 -> maxUint64 = 0).
Proof.
  apply (segment_file_names_round_trip maxUint64 0);
    split; vm_compute; (discriminate || reflexivity).
Defined.


(** ** Opening a log on any directory *)

Lemma setup_loop_every_other L :
  (forall l w l1 w1,
     Forall (fun p => (p < w_next w)%nat) (segments l) ->
     setup_loop L l w = Ret (None, l1, w1) ->
     bases l1 w1 = bases l w ++ every_other L
     /\ Forall (fun p => (p < w_next w1)%nat) (segments l1)
     /\ Config_ l1 = Config_ l)
  /\ (forall x l w l1 w1,
        Forall (fun p => (p < w_next w)%nat) (segments l) ->
        setup_loop (x :: L) l w = Ret (None, l1, w1) ->
        bases l1 w1 = bases l w ++ every_other (x :: L)
        /\ Forall (fun p => (p < w_next w1)%nat) (segments l1)
        /\ Config_ l1 = Config_ l).
Proof.
  induction L as [|y L [IH1 IH2]].
  - split.
    + intros l w l1 w1 Hlt H. cbn [setup_loop] in H. injection H as <- <-.
      cbn [every_other]. rewrite app_nil_r. auto.
    + intros x l w l1 w1 Hlt H.
      destruct (setup_loop_dup [x] l w l1 w1 Hlt H) as (A & B & C & _).
      auto.
  - split; [apply IH2|].
    intros x l w l1 w1 Hlt H. cbn [setup_loop] in H.
    destruct (Log_newSegment x l w) as [[[[e|] l2] w2]|] eqn:N;
      try discriminate.
    apply Log_newSegment_ok in N as (s & fs' & Hs & -> & ->).
    apply newSegment_ok in Hs as (_ & _ & Hb & _).
    apply IH1 in H; cbn [segments w_next w_seg].
    + destruct H as (H1 & H2 & H3). splits; auto.
      rewrite H1. unfold bases. cbn [segments w_seg every_other].
      rewrite map_app, <- app_assoc. cbn [map app].
      rewrite upd_eq, Hb. f_equal.
      apply map_ext_in. intros p Hp. rewrite upd_ne; [reflexivity|].
      rewrite Forall_forall in Hlt. apply list_elem_of_In in Hp.
      apply Hlt in Hp. lia.
    + apply Forall_app. split.
      * eapply Forall_impl; [exact Hlt|]. cbn beta. intros; lia.
      * constructor; [lia|constructor].
Qed.

(** Whatever the directory holds, a log that opens without error has
    a segment for every other entry of the sorted list of the offsets
    parsed from the file names (a name that does not parse counts as
    offset 0), and a segment at [InitialOffset] only when the
    directory is empty. *)
Theorem NewLog_opens_every_other_offset
    (dir : string) (c : Config) (w : World) (l : Log) (w' : World) :
  NewLog dir c w = Ret (None, l, w') ->
  bases l w'
  = match every_other (merge_sort Z.le (map name_offset (ReadDir (w_fs w)))) with
    | [] => [InitialOffset (Segment c)]
    | b :: bs => b :: bs
    end
  /\ Config_ l = withDefaults c.
Proof.
  rewrite NewLog_unfold. unfold Log_setup.
  set (L := merge_sort Z.le (map name_offset (ReadDir (w_fs w)))).
  set (l0 := mkLog dir (withDefaults c) None []).
  destruct (setup_loop L l0 w) as [[[[e|] l1] w1]|] eqn:S; try discriminate.
  apply (proj1 (setup_loop_every_other L)) in S as (Hb & Hlt & Hc);
    [|constructor].
  unfold bases at 2 in Hb. unfold l0 in Hb, Hc. cbn [segments map app Config_] in *.
  destruct (segments l1) as [|p ps] eqn:Hseg.
  - assert (HE : every_other L = []).
    { rewrite <- Hb. unfold bases. rewrite Hseg. reflexivity. }
    rewrite HE. intros H.
    apply Log_newSegment_ok in H as (s & fs' & Hs & -> & ->).
    apply newSegment_ok in Hs as (_ & _ & Hbase & _).
    unfold bases. cbn [segments w_seg Config_]. rewrite Hseg. cbn [app map].
    rewrite upd_eq, Hbase, Hc. split; reflexivity.
  - intros [= <- <-]. rewrite Hb. split; [|exact Hc].
    destruct (every_other L) eqn:HE; [|reflexivity].
    apply bases_nil in Hb. congruence.
Qed.

(** A directory that holds one foreign file: the log starts at offset
    0, not at its [InitialOffset] 7. *)
Lemma NewLog_opens_every_other_offset_witness :
  bases
    (state_of (NewLog "log" (sample_config 32 0 7)
                 (mkWorld (sample_fs "notes.txt") (fun _ => no_segment) 0))).1
    (state_of (NewLog "log" (sample_config 32 0 7)
                 (mkWorld (sample_fs "notes.txt") (fun _ => no_segment) 0))).2
  = [0]
  /\ Config_
       (state_of (NewLog "log" (sample_config 32 0 7)
                    (mkWorld (sample_fs "notes.txt") (fun _ => no_segment) 0))).1
     = withDefaults (sample_config 32 0 7).
Proof.
  apply (NewLog_opens_every_other_offset "log" (sample_config 32 0 7)
           (mkWorld (sample_fs "notes.txt") (fun _ => no_segment) 0)).
  run.
Defined.

(** ** After [Close] *)

Lemma Log_Close_loop_other ps : forall w e wc,
  Log_Close_loop ps w = (e, wc) ->
  w_next wc = w_next w
  /\ (forall q, q ∉ ps -> w_seg wc q = w_seg w q)
  /\ (forall q, same_data (w_seg w q) (w_seg wc q)).
Proof.
  induction ps as [|p ps IH]; intros w e wc H; cbn [Log_Close_loop] in H.
  - injection H as <- <-. splits; auto. intros q. apply same_data_refl.
  - destruct (segment_Close (w_seg w p) (w_fs w)) as [[e1 s'] fs1] eqn:C.
    pose proof (segment_Close_names _ _ _ _ _ C) as Hsame.
    assert (Hupd : forall q, same_data (w_seg w q) (upd p s' (w_seg w) q)).
    { intros q. destruct (decide (q = p)) as [->|Hne].
      - rewrite upd_eq. exact Hsame.
      - rewrite upd_ne by exact Hne. apply same_data_refl. }
    destruct e1 as [e1|].
    + injection H as <- <-. cbn [w_next w_seg]. splits; auto.
      intros q Hq. apply upd_ne. intros ->. apply Hq. left.
    + apply IH in H as (H1 & H2 & H3). cbn [w_next w_seg] in *. splits; auto.
      * intros q Hq. apply not_elem_of_cons in Hq as [Hne Hq].
        rewrite H2 by exact Hq. apply upd_ne. exact Hne.
      * intros q. eapply same_data_trans; [apply Hupd|apply H3].
Qed.

Lemma segment_Close_closed s fs s' fs' :
  segment_Close s fs = (None, s', fs') -> seg_closed s'.
Proof.
  intros H. apply segment_Close_ok in H as (ix & st & fs1 & HI & HS & ->).
  apply index_Close_ok in HI as (_ & _ & -> & _).
  apply store_Close_ok in HS as (_ & -> & _).
  unfold seg_closed. cbn. auto.
Qed.

Lemma Log_Close_loop_closed ps : forall w wc,
  Log_Close_loop ps w = (None, wc) ->
  forall p, p ∈ ps -> seg_closed (w_seg wc p).
Proof.
  induction ps as [|p ps IH]; intros w wc H q Hq; [inversion Hq|].
  cbn [Log_Close_loop] in H.
  destruct (segment_Close (w_seg w p) (w_fs w)) as [[[e1|] s'] fs1] eqn:C;
    [discriminate|].
  destruct (decide (q ∈ ps)) as [Hin|Hout].
  - eapply IH; eauto.
  - apply elem_of_cons in Hq as [->|Hq]; [|contradiction].
    apply Log_Close_loop_other in H as (_ & H2 & _).
    rewrite H2 by exact Hout. cbn [w_seg]. rewrite upd_eq.
    eapply segment_Close_closed; eauto.
Qed.

(** [Close] is not idempotent: on a log that has a segment, a second
    [Close()] after a successful one returns [os.ErrClosed], from the
    index of the first segment. *)
Theorem Log_Close_twice (l : Log) (w wc : World) :
  segments l <> [] -> Log_Close l w = (None, wc) ->
  exists w2, Log_Close l wc = (Some ErrClosed, w2).
Proof.
  unfold Log_Close. intros Hne H.
  destruct (segments l) as [|p ps] eqn:Hseg; [congruence|].
  destruct (Log_Close_loop_closed _ _ _ H p) as (_ & Hc & _); [left|].
  cbn [Log_Close_loop]. unfold segment_Close, index_Close. rewrite Hc.
  eexists. reflexivity.
Qed.

Lemma Log_Close_twice_witness :
  exists w2,
    Log_Close (appended [hello] (opened_log (sample_config 1024 0 0) 8)).1
      (closed_log (appended [hello] (opened_log (sample_config 1024 0 0) 8)))
    = (Some ErrClosed, w2).
Proof.
  apply (Log_Close_twice _
           (appended [hello] (opened_log (sample_config 1024 0 0) 8)).2).
  - vm_compute. discriminate.
  - run.
Defined.

Lemma be_value_nonneg bs : 0 <= be_value bs.
Proof.
  unfold be_value.
  assert (H : forall a, 0 <= a ->
            0 <= fold_left (fun acc b => acc * 256 + Z_of_byte b) bs a).
  { induction bs as [|b bs IH]; intros a Ha; cbn [fold_left]; [exact Ha|].
    apply IH. pose proof (Z_of_byte_range b). lia. }
  apply H. lia.
Qed.

Lemma index_Read_same k i i' :
  ix_size i' = ix_size i -> ix_mmap i' = ix_mmap i ->
  index_Read k i' = index_Read k i.
Proof. intros E1 E2. unfold index_Read. rewrite E1, E2. reflexivity. Qed.

Section AfterClose.

Variable Marshal : Record_ -> option (list byte).
Variable Unmarshal : list byte -> option Record_.

(** After a successful [Close()], [Read] of an offset that a segment
    covers returns [os.ErrClosed] from the store, not a record and not
    the out-of-range error. *)
Theorem Log_Read_after_Close (off : Z) (l : Log) (w wc : World) (p : nat) :
  log_wf l w -> Log_Close l w = (None, wc) ->
  find_segment off l w = Some p ->
  index_points_inside (w_seg w p) ->
  read_result (Log_Read Unmarshal off l wc) = Some (inr (ErrIO ErrClosed)).
Proof.
  intros (_ & _ & _ & Hwf & _) HC Hfind Hin.
  unfold Log_Close in HC.
  pose proof (Log_Close_loop_other _ _ _ _ HC) as (_ & _ & Hsame).
  destruct (find_segment_Some _ _ _ _ Hfind) as (b & a & Hs & Hc & _).
  assert (Hp : p ∈ segments l) by (rewrite Hs; apply elem_of_app; right; left).
  rewrite Forall_forall in Hwf.
  destruct (Hwf p Hp) as (_ & _ & _ & _ & _ & Hss & Bp & Np & Hix & Hle & Hm).
  destruct (Log_Close_loop_closed _ _ _ HC p Hp) as (C1 & C2 & C3 & C4).
  destruct (Hsame p) as (S1 & S2 & S3 & S4 & S5 & S6 & S7 & S8).
  rewrite Log_Read_result.
  rewrite (find_segment_ext off l w wc), Hfind.
  2:{ intros q. destruct (Hsame q) as (_ & _ & E3 & E4 & _). auto. }
  unfold covers in Hc. apply andb_prop in Hc as [Hc1 Hc2].
  apply Z.leb_le in Hc1. apply Z.ltb_lt in Hc2.
  unfold segment_Read. rewrite S3.
  rewrite (index_Read_same _ (seg_index (w_seg w p))) by assumption.
  rewrite wrap64_small, int64_small by plia.
  rewrite index_Read_at by plia.
  set (pos := snd (get_entry _ _)).
  assert (Hpos : 0 <= pos /\ pos + lenWidth <= st_size (seg_store (w_seg w p))).
  { split; [apply be_value_nonneg|].
    unfold index_points_inside in Hin. rewrite Forall_forall in Hin.
    apply Hin. apply elem_of_seqZ. lia. }
  unfold store_Read, bufio_Flush. rewrite C4, C3.
  unfold File_ReadAt. rewrite int64_small by plia.
  replace (pos <? 0) with false by (symmetry; apply Z.ltb_ge; lia).
  cbn [Nat.eqb]. rewrite C1. reflexivity.
Qed.


End AfterClose.


Lemma Log_Read_after_Close_witness :
  read_result
    (Log_Read wire_Unmarshal 0
       (appended [hello] (opened_log (sample_config 1024 0 0) 8)).1
       (closed_log (appended [hello] (opened_log (sample_config 1024 0 0) 8))))
  = Some (inr (ErrIO ErrClosed)).
Proof.
  apply (Log_Read_after_Close wire_Unmarshal 0
           (appended [hello] (opened_log (sample_config 1024 0 0) 8)).1
           (appended [hello] (opened_log (sample_config 1024 0 0) 8)).2
           (closed_log (appended [hello] (opened_log (sample_config 1024 0 0) 8)))
           0%nat).
  - decide_wf.
  - run.
  - run.
  - apply (bool_decide_unpack (index_points_inside _)). vm_compute. exact I.
Defined.



(** ** The history of a log of successful appends *)

Lemma durable_below c l w a :
  durable c l w -> activeSegment l = Some a ->
  a ∈ segments l
  /\ forall q, q ∈ segments l ->
       0 <= baseOffset (w_seg w q) <= baseOffset (w_seg w a)
       /\ baseOffset (w_seg w a) <= nextOffset (w_seg w a) < 2 ^ 64
       /\ st_File (seg_store (w_seg w q))
          = mkFile (storeName (baseOffset (w_seg w q))) false
       /\ (q <> a -> baseOffset (w_seg w q) < baseOffset (w_seg w a)).
Proof.
  intros (Hact & Hne & Hc & Hmax & Hlt & Hall & Hsort & Hfiles) Ha.
  rewrite Ha in Hact. symmetry in Hact.
  apply last_Some in Hact as [init Hseg].
  rewrite Forall_forall in Hall.
  assert (Hain : a ∈ segments l).
  { rewrite Hseg. apply elem_of_app. right. left. }
  split; [exact Hain|]. intros q Hq.
  rewrite Hseg in Hsort.
  pose proof (sorted_init_before _ _ _ Hsort) as Hinit.
  destruct (Hall a Hain) as (_ & _ & _ & _ & _ & Ba & Na & _).
  destruct (Hall q Hq) as (Fq & _ & _ & _ & _ & Bq & Nq & _).
  rewrite Hseg in Hq. apply elem_of_app in Hq as [Hq|Hq].
  - destruct (Hinit q Hq) as [_ [B1 B2]]. splits; auto; lia.
  - apply list_elem_of_singleton in Hq. subst q. splits; auto; try lia.
Qed.

Lemma durable_absent c l w b :
  durable c l w ->
  (forall q, q ∈ segments l -> 0 <= baseOffset (w_seg w q) < b) ->
  b < 2 ^ 64 ->
  absent (storeName b) (w_fs w) /\ absent (indexName b) (w_fs w).
Proof.
  intros (_ & _ & _ & _ & _ & _ & _ & Hfiles) Hlow Hb.
  assert (Hnew : forall n, n = storeName b \/ n = indexName b ->
            absent n (w_fs w)).
  { intros n Hn. unfold absent.
    destruct (files (w_fs w) !! n) as [d|] eqn:E; [exfalso|reflexivity].
    destruct (proj1 (Hfiles n)) as (b' & Hb' & Hn'); [eauto|].
    apply list_elem_of_fmap in Hb' as (q & -> & Hq).
    destruct (Hlow q Hq) as [Hq1 Hq2].
    destruct (seg_names_ne b (baseOffset (w_seg w q)))
      as (N1 & N2 & N3 & N4); [lia|lia|lia|].
    destruct Hn as [->| ->]; destruct Hn' as [E'|E']; congruence. }
  split; apply Hnew; auto.
Qed.

Section History.

Variable Marshal : Record_ -> option (list byte).

Lemma history_step c i0 r l w o l' w' :
  durable c l w -> starts_at i0 l w -> o + 1 < 2 ^ 64 ->
  Log_Append Marshal r l w = Ret ((o, None), l', w') ->
  starts_at i0 l' w'
  /\ exists pl, Marshal (mkRecord (Value r) o) = Some pl
                /\ stream l' w' = stream l w ++ frame pl.
Proof.
  intros D (p0 & rest & Hp0 & Hi0) Ho H.
  pose proof D as (Hact & Hne & Hc & Hmax & Hlt & Hall & Hsort & Hfiles).
  apply Log_Append_ok in H as (a & s & fs1 & Ha & HS & H).
  destruct (durable_update Marshal c r l w a o s fs1 D Ha HS Ho)
    as (D1 & Hn & Hb).
  destruct (durable_below c l w a D Ha) as (Hain & Hbelow).
  pose proof (segment_Append_ok _ _ _ _ _ _ _ HS)
    as (pl & HM & Eo & Hb' & Hn' & Hc' & HA & _).
  apply store_Append_ok in HA as (_ & _ & _ & _ & HF & _ & Hcont & Hfr & _).
  rewrite <- Eo in HM.
  destruct (Hbelow a Hain) as (Ba & Na & Fa & _).
  rewrite Fa in Hfr. cbn [Name] in Hfr.
  set (w1 := mkWorld fs1 (upd a s (w_seg w)) (w_next w)) in *.
  assert (Hcontent : forall q, q ∈ segments l -> q <> a ->
            store_content fs1 (seg_store (w_seg w q))
            = store_content (w_fs w) (seg_store (w_seg w q))).
  { intros q Hq Hne'. destruct (Hbelow q Hq) as (Bq & _ & Fq & Lq).
    unfold store_content, file_data. rewrite Fq. cbn [Name].
    rewrite Hfr; [reflexivity|].
    intros E. apply storeName_inj in E; [|lia|lia]. specialize (Lq Hne'). lia. }
  assert (Hstream1 : stream l w1 = stream l w ++ frame pl).
  { pose proof Hact as Hlast. rewrite Ha in Hlast. symmetry in Hlast.
    apply last_Some in Hlast as [init Hseg].
    assert (Hinit : forall q, q ∈ init -> q ∈ segments l /\ q <> a).
    { intros q Hq. split; [rewrite Hseg; apply elem_of_app; auto|].
      rewrite Hseg in Hsort.
      apply (sorted_init_before _ _ _ Hsort q Hq). }
    unfold stream, w1. cbn [w_fs w_seg]. rewrite Hseg, !map_app, !concat_app.
    cbn [map concat]. rewrite upd_eq, Hcont, !app_nil_r, <- app_assoc.
    f_equal. f_equal. apply map_ext_in. intros q Hq.
    apply list_elem_of_In in Hq. destruct (Hinit q Hq) as [Hq1 Hq2].
    rewrite upd_ne by exact Hq2. apply Hcontent; assumption. }
  assert (Hhead1 : baseOffset (w_seg w1 p0) = i0).
  { unfold w1. cbn [w_seg]. destruct (decide (p0 = a)) as [->|Hne'].
    - rewrite upd_eq. congruence.
    - rewrite upd_ne by exact Hne'. exact Hi0. }
  cbv zeta in H. fold w1 in H. destruct H as [(_ & -> & ->)|(_ & HN)].
  - split; [exists p0, rest; auto|]. exists pl. auto.
  - rewrite wrap64_small in HN by lia.
    pose proof D1 as (_ & _ & Hc1 & _ & Hlt1 & _).
    rewrite Forall_forall in Hlt1.
    assert (Hlow : forall q, q ∈ segments l ->
              0 <= baseOffset (w_seg w1 q) < o + 1).
    { intros q Hq. unfold w1. cbn [w_seg].
      destruct (Hbelow q Hq) as (Bq & _ & _ & _).
      destruct (decide (q = a)) as [->|Hne'].
      - rewrite upd_eq. lia.
      - rewrite upd_ne by exact Hne'. lia. }
    destruct (durable_absent c l w1 (o + 1) D1 Hlow ltac:(lia)) as [As Ai].
    apply Log_newSegment_ok in HN as (sn & fs2 & HNS & -> & ->).
    pose proof (newSegment_other _ _ _ _ _ _ (storeName 0) HNS) as _.
    assert (Hother : forall n, n <> storeName (o + 1) ->
              n <> indexName (o + 1) -> files fs2 !! n = files (w_fs w1) !! n).
    { intros n N1 N2. eapply newSegment_other; eauto. }
    apply newSegment_ok in HNS. cbv zeta in HNS.
    destruct HNS as (S1 & _ & _ & _ & _ & _ & _ & S8 & _).
    assert (Hold : forall q, q ∈ segments l ->
              upd (w_next w1) sn (w_seg w1) q = w_seg w1 q).
    { intros q Hq. apply upd_ne. apply Hlt1 in Hq. lia. }
    split.
    + exists p0, (rest ++ [w_next w1]). cbn [segments w_seg].
      rewrite Hp0. split; [reflexivity|].
      rewrite Hold; [exact Hhead1|]. rewrite Hp0. left.
    + exists pl. split; [exact HM|]. rewrite <- Hstream1.
      unfold stream. cbn [segments w_fs w_seg].
      rewrite map_app, concat_app. cbn [map concat]. rewrite upd_eq.
      replace (store_content fs2 (seg_store sn)) with (@nil byte).
      2:{ unfold store_content, file_data. rewrite S1. cbn [st_File Name st_buf].
          rewrite S8. unfold file_data. unfold absent in As. rewrite As.
          reflexivity. }
      rewrite !app_nil_r. f_equal. apply map_ext_in. intros q Hq.
      apply list_elem_of_In in Hq. rewrite Hold by exact Hq.
      unfold store_content, file_data.
      assert (Fq : st_File (seg_store (w_seg w1 q))
                   = mkFile (storeName (baseOffset (w_seg w1 q))) false).
      { destruct D1 as (_ & _ & _ & _ & _ & Hall1 & _).
        rewrite Forall_forall in Hall1. destruct (Hall1 q Hq) as (F & _).
        exact F. }
      rewrite Fq. cbn [Name]. destruct (Hlow q Hq) as [L1 L2].
      destruct (seg_names_ne (baseOffset (w_seg w1 q)) (o + 1))
        as (N1 & N2 & _); [lia|lia|lia|].
      rewrite Hother by assumption. reflexivity.
Qed.

Lemma history_appends c i0 rs : forall k l w outs l' w',
  fresh_inv i0 k l w -> durable c l w -> starts_at i0 l w ->
  0 <= i0 -> 0 <= k -> i0 + k + len rs < 2 ^ 64 ->
  Log_Appends Marshal rs l w = Ret (outs, l', w') ->
  all_ok outs ->
  fresh_inv i0 (k + len rs) l' w' /\ durable c l' w' /\ starts_at i0 l' w'
  /\ stream l' w' = stream l w ++ frames Marshal (i0 + k) rs.
Proof.
  induction rs as [|r rs IH]; intros k l w outs l' w' Hinv D Hs Hi0 Hk Hlim.
  - cbn [Log_Appends]. intros [= <- <- <-] _. cbn [frames].
    change (len (@nil Record_)) with 0. rewrite Z.add_0_r, app_nil_r. auto.
  - cbn [Log_Appends].
    destruct (Log_Append Marshal r l w) as [[[[o e] l1] w1]|] eqn:A;
      [|discriminate].
    destruct (Log_Appends Marshal rs l1 w1) as [[[os l2] w2]|] eqn:As;
      [|discriminate].
    intros [= <- <- <-] Hok. inversion Hok as [|? ? He Hok']; subst.
    cbn [snd] in He. subst e.
    assert (Hlen : len (r :: rs) = 1 + len rs)
      by (unfold len; cbn [length]; lia).
    pose proof (len_nonneg rs) as Hrs. rewrite Hlen in Hlim |- *.
    destruct (fresh_inv_step Marshal _ _ _ _ _ _ _ _ Hinv Hi0 Hk A)
      as [-> Hnext].
    destruct (history_step c i0 r l w (i0 + k) l1 w1 D Hs ltac:(lia) A)
      as (Hs1 & pl & HM & Hst).
    assert (D1 : durable c l1 w1).
    { eapply (durable_step Marshal); [exact D| |exact A]. lia. }
    destruct (IH (k + 1) l1 w1 os l2 w2 (Hnext ltac:(lia)) D1 Hs1 Hi0
                ltac:(lia) ltac:(lia) As Hok') as (I1 & I2 & I3 & I4).
    replace (k + (1 + len rs)) with (k + 1 + len rs) by lia.
    splits; auto.
    rewrite I4, Hst. cbn [frames]. rewrite HM, <- app_assoc.
    replace (i0 + (k + 1)) with (i0 + k + 1) by lia. reflexivity.
Qed.

Lemma durable_stores_readable c l w :
  durable c l w -> stores_readable (segments l) w.
Proof.
  intros (_ & _ & _ & _ & _ & Hall & Hsort & _).
  rewrite Forall_forall in Hall. split.
  - apply Forall_forall. intros p Hp.
    destruct (Hall p Hp) as (Fs & _ & He & Hf & _).
    unfold store_open. rewrite Fs. cbn [closed Name]. auto.
  - pose proof (sorted_lt_NoDup _ (bases_sorted _ _ Hsort)) as Hnd.
    apply NoDup_fmap_2_strong.
    + intros p q Hp Hq E.
      destruct (Hall p Hp) as (Fp & _ & _ & _ & _ & Bp & Np & _).
      destruct (Hall q Hq) as (Fq & _ & _ & _ & _ & Bq & Nq & _).
      rewrite Fp, Fq in E. cbn [Name] in E.
      apply storeName_inj in E; [|lia|lia].
      apply (NoDup_map_inj (fun p => baseOffset (w_seg w p)) (segments l));
        assumption.
    + eapply NoDup_fmap_1. exact Hnd.
Qed.

(** On a log opened on an empty directory whose appends all succeeded
    without wrapping the offset counter, the reader returns exactly
    the frames of the appended records, in order: for each record the
    8-byte length and the encoding of the record with its assigned
    offset. *)
Theorem Log_Reader_returns_the_frames
    (dir : string) (c : Config) (w0 : World) (rs : list Record_)
    (l0 : Log) (w1 : World) (outs : list (Z * option error))
    (l : Log) (w : World) :
  files (w_fs w0) = ∅ ->
  Config_typed c ->
  MaxIndexBytes (Segment (withDefaults c)) <= entWidth * 2 ^ 32 ->
  InitialOffset (Segment c) + len rs < 2 ^ 64 ->
  NewLog dir c w0 = Ret (None, l0, w1) ->
  Log_Appends Marshal rs l0 w1 = Ret (outs, l, w) ->
  all_ok outs ->
  exists w',
    Log_Reader_ReadAll l w
    = ((frames Marshal (InitialOffset (Segment c)) rs, None), w').
Proof.
  intros Hempty Hc Hmax Hlim HN HA Hok.
  pose proof Hc as (Hms & Hmi & Hi0).
  destruct (NewLog_fresh dir c w0 l0 w1 Hempty Hi0 ltac:(lia) ltac:(lia) HN)
    as (Hinv & Hseg & _ & Hbase).
  pose proof (NewLog_durable dir c w0 l0 w1 Hempty Hc Hmax HN) as D0.
  assert (Hs0 : starts_at (InitialOffset (Segment c)) l0 w1).
  { exists (w_next w0), []. auto. }
  destruct (history_appends _ _ rs 0 _ _ _ _ _ Hinv D0 Hs0 ltac:(lia)
              ltac:(lia) ltac:(lia) HA Hok) as (_ & D & _ & Hst).
  assert (Hst0 : stream l0 w1 = []).
  { unfold stream. rewrite Hseg. cbn [map concat]. rewrite app_nil_r.
    destruct D0 as (_ & _ & _ & _ & _ & Hall & _).
    rewrite Forall_forall in Hall.
    destruct (Hall (w_next w0)) as (Fs & _); [rewrite Hseg; left|].
    destruct Hinv as (a & Ha & _).
    pose proof (Log_newSegment_ok) as _.
    revert HN. rewrite NewLog_unfold. unfold Log_setup, ReadDir.
    rewrite Hempty, map_to_list_empty.
    change (merge_sort Z.le
              (map name_offset ([] : list (string * list byte)).*1))
      with (@nil Z).
    cbn [setup_loop segments Config_]. intros HN.
    apply Log_newSegment_ok in HN as (s & fs' & HNS & _ & ->).
    cbn [w_fs w_seg w_next]. rewrite upd_eq.
    apply newSegment_ok in HNS. cbv zeta in HNS.
    destruct HNS as (S1 & _ & _ & _ & _ & _ & _ & S8 & _).
    unfold store_content, file_data. rewrite S1. cbn [st_File Name st_buf].
    rewrite S8. unfold file_data. cbn [w_fs].
    rewrite Hempty, lookup_empty. reflexivity. }
  rewrite Hst0, Z.add_0_r in Hst. cbn [app] in Hst.
  destruct (Reader_loop_ok (segments l) [] w (durable_stores_readable _ _ _ D))
    as [w' E].
  exists w'. unfold Log_Reader_ReadAll. rewrite E. cbn [app].
  fold (stream l w). rewrite Hst. reflexivity.
Qed.

(** On such a log [LowestOffset()] is the [InitialOffset] and
    [HighestOffset()] is the offset of the last record; for a log
    without records it is [InitialOffset - 1], and 0 when
    [InitialOffset] is 0, which is also what a log holding one record
    at offset 0 returns. *)
Theorem Log_offsets_after_appends
    (dir : string) (c : Config) (w0 : World) (rs : list Record_)
    (l0 : Log) (w1 : World) (outs : list (Z * option error))
    (l : Log) (w : World) :
  files (w_fs w0) = ∅ ->
  Config_typed c ->
  MaxIndexBytes (Segment (withDefaults c)) <= entWidth * 2 ^ 32 ->
  InitialOffset (Segment c) + len rs < 2 ^ 64 ->
  NewLog dir c w0 = Ret (None, l0, w1) ->
  Log_Appends Marshal rs l0 w1 = Ret (outs, l, w) ->
  all_ok outs ->
  LowestOffset l w = Ret (InitialOffset (Segment c))
  /\ HighestOffset l w
     = Ret (if InitialOffset (Segment c) + len rs =? 0 then 0
            else InitialOffset (Segment c) + len rs - 1).
Proof.
  intros Hempty Hc Hmax Hlim HN HA Hok.
  pose proof Hc as (Hms & Hmi & Hi0).
  destruct (NewLog_fresh dir c w0 l0 w1 Hempty Hi0 ltac:(lia) ltac:(lia) HN)
    as (Hinv & Hseg & _ & Hbase).
  pose proof (NewLog_durable dir c w0 l0 w1 Hempty Hc Hmax HN) as D0.
  assert (Hs0 : starts_at (InitialOffset (Segment c)) l0 w1).
  { exists (w_next w0), []. auto. }
  pose proof (len_nonneg rs) as Hrs.
  destruct (history_appends _ _ rs 0 _ _ _ _ _ Hinv D0 Hs0 ltac:(lia)
              ltac:(lia) ltac:(lia) HA Hok)
    as ((a & Ha & Hn & _) & (Hact & _) & (p & rest & Hp & Hb) & _).
  split.
  - unfold LowestOffset. rewrite Hp, Hb. reflexivity.
  - unfold HighestOffset. rewrite <- Hact, Ha. cbv zeta. rewrite Hn.
    rewrite Z.add_0_l.
    destruct (InitialOffset (Segment c) + len rs =? 0) eqn:E; [reflexivity|].
    apply Z.eqb_neq in E. rewrite wrap64_small by lia. reflexivity.
Qed.

End History.

Lemma Log_Reader_returns_the_frames_witness :
  exists w',
    Log_Reader_ReadAll
      (appended [hello; hello; hello] (opened_log (sample_config 32 0 0) 8)).1
      (appended [hello; hello; hello] (opened_log (sample_config 32 0 0) 8)).2
    = ((frames wire_Marshal (InitialOffset (Segment (sample_config 32 0 0)))
          [hello; hello; hello], None), w').
Proof.
  apply (Log_Reader_returns_the_frames wire_Marshal "log"
           (sample_config 32 0 0) (empty_world 8) [hello; hello; hello]
           (opened_log (sample_config 32 0 0) 8).1
           (opened_log (sample_config 32 0 0) 8).2
           (appended_outs [hello; hello; hello]
              (opened_log (sample_config 32 0 0) 8))).
  - reflexivity.
  - unfold Config_typed. cbn. lia.
  - vm_compute. discriminate.
  - run.
  - run.
  - run.
  - unfold all_ok. vm_compute. repeat constructor.
Defined.

(** A log without records at [InitialOffset] 0: both offsets are 0. *)
Lemma Log_offsets_after_appends_witness :
  LowestOffset (opened_log (sample_config 32 0 0) 8).1
               (opened_log (sample_config 32 0 0) 8).2
  = Ret (InitialOffset (Segment (sample_config 32 0 0)))
  /\ HighestOffset (opened_log (sample_config 32 0 0) 8).1
                   (opened_log (sample_config 32 0 0) 8).2
     = Ret (if InitialOffset (Segment (sample_config 32 0 0))
               + len (@nil Record_) =? 0
            then 0
            else InitialOffset (Segment (sample_config 32 0 0))
                 + len (@nil Record_) - 1).
Proof.
  apply (Log_offsets_after_appends wire_Marshal "log"
           (sample_config 32 0 0) (empty_world 8) []
           (opened_log (sample_config 32 0 0) 8).1
           (opened_log (sample_config 32 0 0) 8).2 []).
  - reflexivity.
  - unfold Config_typed. cbn. lia.
  - vm_compute. discriminate.
  - run.
  - run.
  - reflexivity.
  - constructor.
Defined.


(** ** The in-memory log of the HTTP server *)

(** [server.Log.Append] returns the number of records the log held as
    the offset, stores the record with that offset whatever offset the
    caller had set, and [Read] of the returned offset returns it;
    every other offset reads as before. *)
Theorem server_Append_Read_round_trip (r : Record_) (c : server.Log) :
  len (server.records c) + 1 < 2 ^ 64 ->
  (server.Append r c).1 = (len (server.records c), None)
  /\ server.Read (len (server.records c)) (server.Append r c).2
     = Ret (inl (mkRecord (Value r) (len (server.records c))))
  /\ forall k, 0 <= k -> k <> len (server.records c) ->
       server.Read k (server.Append r c).2 = server.Read k c.
Proof.
  intros Hlen. pose proof (len_nonneg (server.records c)) as H0.
  unfold server.Append, server.Read. cbn [fst snd Offset server.records].
  rewrite len_app. change (len [_]) with 1.
  rewrite !wrap64_small by lia. splits.
  - reflexivity.
  - replace (len (server.records c) + 1 <=? len (server.records c)) with false
      by (symmetry; apply Z.leb_gt; lia).
    unfold len. rewrite Nat2Z.id.
    rewrite lookup_app_r by lia. rewrite Nat.sub_diag. reflexivity.
  - intros k Hk Hne.
    destruct (len (server.records c) <=? k) eqn:E.
    + apply Z.leb_le in E.
      replace (len (server.records c) + 1 <=? k) with true
        by (symmetry; apply Z.leb_le; lia).
      reflexivity.
    + apply Z.leb_gt in E.
      replace (len (server.records c) + 1 <=? k) with false
        by (symmetry; apply Z.leb_gt; lia).
      rewrite lookup_app_l by (unfold len in E; lia). reflexivity.
Qed.

Lemma server_Append_Read_round_trip_witness :
  (server.Append (mkRecord (Value hello) 42) server.NewLog).1
  = (len (server.records server.NewLog), None)
  /\ server.Read (len (server.records server.NewLog))
       (server.Append (mkRecord (Value hello) 42) server.NewLog).2
     = Ret (inl (mkRecord (Value (mkRecord (Value hello) 42))
                          (len (server.records server.NewLog))))
  /\ forall k, 0 <= k -> k <> len (server.records server.NewLog) ->
       server.Read k (server.Append (mkRecord (Value hello) 42) server.NewLog).2
       = server.Read k server.NewLog.
Proof.
  apply (server_Append_Read_round_trip (mkRecord (Value hello) 42)
           server.NewLog).
  run.
Defined.

Lemma server_Appends_spec rs : forall c,
  len (server.records c) + len rs < 2 ^ 64 ->
  (server.Appends rs c).1 = seqZ (len (server.records c)) (len rs)
  /\ server.records (server.Appends rs c).2
     = server.records c
       ++ zip_with (fun r k => mkRecord (Value r) k) rs
                   (seqZ (len (server.records c)) (len rs)).
Proof.
  induction rs as [|r rs IH]; intros c Hlen.
  - cbn [server.Appends fst snd]. change (len (@nil Record_)) with 0.
    rewrite seqZ_nil by lia. cbn [zip_with]. rewrite app_nil_r. auto.
  - assert (Hl : len (r :: rs) = 1 + len rs)
      by (unfold len; cbn [length]; lia).
    pose proof (len_nonneg rs) as Hrs.
    pose proof (len_nonneg (server.records c)) as H0.
    rewrite Hl in *. cbn [server.Appends].
    unfold server.Append at 1 2. cbn [Offset].
    destruct (server.Appends rs _) as [os c2] eqn:E.
    specialize (IH (server.mkLog
                      (server.records c
                       ++ [mkRecord (Value r)
                             (wrap64 (len (server.records c)))]))).
    rewrite E in IH. cbn [fst snd server.records] in IH |- *.
    rewrite len_app in IH. change (len [_]) with 1 in IH.
    destruct IH as [I1 I2]; [lia|].
    rewrite wrap64_small in * by lia.
    rewrite seqZ_cons by lia.
    replace (Z.pred (1 + len rs)) with (len rs) by lia.
    replace (Z.succ (len (server.records c)))
      with (len (server.records c) + 1) by lia.
    cbn [zip_with]. rewrite I1, I2, <- app_assoc. auto.
Qed.

(** A log built from [NewLog()] by appending the records [rs]: the
    offsets returned are 0, 1, ..., [Read(k)] returns the [k]-th
    record with [Offset = k], and [Read] of any offset from the number
    of records on returns [ErrOffsetNotFound]. *)
Theorem server_Appends_then_Read (rs : list Record_) :
  len rs < 2 ^ 64 ->
  (server.Appends rs server.NewLog).1 = seqZ 0 (len rs)
  /\ (forall k r, rs !! k = Some r ->
        server.Read (Z.of_nat k) (server.Appends rs server.NewLog).2
        = Ret (inl (mkRecord (Value r) (Z.of_nat k))))
  /\ (forall off, len rs <= off ->
        server.Read off (server.Appends rs server.NewLog).2
        = Ret (inr server.ErrOffsetNotFound)).
Proof.
  intros Hlen.
  destruct (server_Appends_spec rs server.NewLog) as [E1 E2].
  { cbn. change (len (@nil Record_)) with 0. lia. }
  cbn [server.NewLog server.records app] in E1, E2.
  change (len (@nil Record_)) with 0 in E1, E2.
  assert (Hl : len (server.records (server.Appends rs server.NewLog).2)
               = len rs).
  { rewrite E2. unfold len. rewrite length_zip_with, length_seqZ. lia. }
  pose proof (len_nonneg rs) as Hrs.
  splits.
  - exact E1.
  - intros k r Hk. unfold server.Read. rewrite Hl.
    pose proof (lookup_lt_Some _ _ _ Hk) as Hlt.
    rewrite wrap64_small by lia.
    replace (len rs <=? Z.of_nat k) with false
      by (symmetry; apply Z.leb_gt; unfold len; lia).
    rewrite Nat2Z.id, E2, lookup_zip_with, Hk. cbn [mbind option_bind].
    rewrite lookup_seqZ_lt by (unfold len; lia).
    cbn [mbind option_bind]. rewrite Z.add_0_l. reflexivity.
  - intros off Hoff. unfold server.Read. rewrite Hl.
    rewrite wrap64_small by lia.
    replace (len rs <=? off) with true by (symmetry; apply Z.leb_le; lia).
    reflexivity.
Qed.

Lemma server_Appends_then_Read_witness :
  (server.Appends [hello; mkRecord [] 9] server.NewLog).1
  = seqZ 0 (len [hello; mkRecord [] 9])
  /\ (forall k r, [hello; mkRecord [] 9] !! k = Some r ->
        server.Read (Z.of_nat k)
          (server.Appends [hello; mkRecord [] 9] server.NewLog).2
        = Ret (inl (mkRecord (Value r) (Z.of_nat k))))
  /\ (forall off, len [hello; mkRecord [] 9] <= off ->
        server.Read off (server.Appends [hello; mkRecord [] 9] server.NewLog).2
        = Ret (inr server.ErrOffsetNotFound)).
Proof.
  apply (server_Appends_then_Read [hello; mkRecord [] 9]). run.
Defined.


(** ** Reading every record of a log of successful appends *)

Section EveryRecord.

Variable Marshal : Record_ -> option (list byte).
Variable Unmarshal : list byte -> option Record_.

(** What a successful [Log.Append] does to the segments of such a
    log: the active segment gets the frame and the index entry, the
    other segments and their stores stay as they were, and a rollover
    adds an empty segment at the next offset. *)
Lemma Log_Append_effect c r l w o l' w' :
  durable c l w -> o + 1 < 2 ^ 64 ->
  Log_Append Marshal r l w = Ret ((o, None), l', w') ->
  exists a pl,
    activeSegment l = Some a /\ a ∈ segments l
    /\ Marshal (mkRecord (Value r) o) = Some pl
    /\ o = nextOffset (w_seg w a)
    /\ baseOffset (w_seg w' a) = baseOffset (w_seg w a)
    /\ nextOffset (w_seg w' a) = o + 1
    /\ seg_index (w_seg w' a)
       = mkIndex (ix_file (seg_index (w_seg w a)))
           (put_entry (ix_size (seg_index (w_seg w a)))
              (o - baseOffset (w_seg w a))
              (st_size (seg_store (w_seg w a)))
              (ix_mmap (seg_index (w_seg w a))))
           (ix_size (seg_index (w_seg w a)) + entWidth)
    /\ st_size (seg_store (w_seg w' a))
       = wrap64 (st_size (seg_store (w_seg w a)) + (len pl + lenWidth))
    /\ store_content (w_fs w') (seg_store (w_seg w' a))
       = store_content (w_fs w) (seg_store (w_seg w a)) ++ frame pl
    /\ ix_size (seg_index (w_seg w a)) + entWidth
       <= len (ix_mmap (seg_index (w_seg w a)))
    /\ (forall q, q ∈ segments l -> q <> a ->
          w_seg w' q = w_seg w q
          /\ store_content (w_fs w') (seg_store (w_seg w q))
             = store_content (w_fs w) (seg_store (w_seg w q)))
    /\ (segments l' = segments l
        \/ exists pn,
             segments l' = segments l ++ [pn] /\ (pn ∉ segments l)
             /\ baseOffset (w_seg w' pn) = o + 1
             /\ nextOffset (w_seg w' pn) = o + 1
             /\ st_size (seg_store (w_seg w' pn)) = 0
             /\ store_content (w_fs w') (seg_store (w_seg w' pn)) = []).
Proof.
  intros D Ho H.
  pose proof D as (Hact & Hne & Hc & Hmax & Hlt & Hall & Hsort & Hfiles).
  apply Log_Append_ok in H as (a & s & fs1 & Ha & HS & H).
  destruct (durable_update Marshal c r l w a o s fs1 D Ha HS Ho)
    as (D1 & Hn & Hb).
  destruct (durable_below c l w a D Ha) as (Hain & Hbelow).
  pose proof (segment_Append_ok _ _ _ _ _ _ _ HS)
    as (pl & HM & Eo & Hb' & Hn' & Hc' & HA & I0 & I1 & I2 & HI).
  apply store_Append_ok in HA as (_ & _ & _ & _ & HF & Hsz & Hcont & Hfr & _).
  rewrite <- Eo in HM.
  destruct (Hbelow a Hain) as (Ba & Na & Fa & _).
  rewrite Fa in Hfr. cbn [Name] in Hfr.
  rewrite Forall_forall in Hall.
  assert (Hcount : 0 <= o - baseOffset (w_seg w a) < 2 ^ 32).
  { destruct (Hall a Hain) as (_ & _ & _ & _ & _ & _ & _ & Hix & Hle & Hlen & _).
    plia. }
  rewrite <- Eo in HI. rewrite wrap64_small, uint32_small in HI by lia.
  set (w1 := mkWorld fs1 (upd a s (w_seg w)) (w_next w)) in *.
  assert (Hcontent : forall q, q ∈ segments l -> q <> a ->
            store_content fs1 (seg_store (w_seg w q))
            = store_content (w_fs w) (seg_store (w_seg w q))).
  { intros q Hq Hne'. destruct (Hbelow q Hq) as (Bq & _ & Fq & Lq).
    unfold store_content, file_data. rewrite Fq. cbn [Name].
    rewrite Hfr; [reflexivity|].
    intros E. apply storeName_inj in E; [|lia|lia]. specialize (Lq Hne'). lia. }
  exists a, pl.
  cbv zeta in H. fold w1 in H. destruct H as [(_ & -> & ->)|(_ & HN)].
  - unfold w1. cbn [w_seg w_fs]. rewrite upd_eq. splits; auto.
    intros q Hq Hne'. rewrite upd_ne by exact Hne'. auto.
  - rewrite wrap64_small in HN by lia.
    pose proof D1 as (_ & _ & Hc1 & _ & Hlt1 & Hall1 & _).
    rewrite Forall_forall in Hlt1, Hall1.
    assert (Hlow : forall q, q ∈ segments l ->
              0 <= baseOffset (w_seg w1 q) < o + 1).
    { intros q Hq. unfold w1. cbn [w_seg].
      destruct (Hbelow q Hq) as (Bq & _ & _ & _).
      destruct (decide (q = a)) as [->|Hne'].
      - rewrite upd_eq. lia.
      - rewrite upd_ne by exact Hne'. lia. }
    destruct (durable_absent c l w1 (o + 1) D1 Hlow ltac:(lia)) as [As Ai].
    apply Log_newSegment_ok in HN as (sn & fs2 & HNS & -> & ->).
    assert (Hother : forall n, n <> storeName (o + 1) ->
              n <> indexName (o + 1) -> files fs2 !! n = files (w_fs w1) !! n).
    { intros n N1 N2. eapply newSegment_other; eauto. }
    pose proof (newSegment_fresh _ _ _ _ _ _ HNS As Ai)
      as (B1 & B2 & _ & B4 & _).
    apply newSegment_ok in HNS. cbv zeta in HNS.
    destruct HNS as (S1 & _ & _ & _ & _ & _ & _ & S8 & _).
    assert (Hold : forall q, q ∈ segments l ->
              upd (w_next w1) sn (w_seg w1) q = w_seg w1 q).
    { intros q Hq. apply upd_ne. apply Hlt1 in Hq. lia. }
    assert (Hkeep : forall q, q ∈ segments l ->
              store_content fs2 (seg_store (w_seg w1 q))
              = store_content fs1 (seg_store (w_seg w1 q))).
    { intros q Hq. unfold store_content, file_data.
      destruct (Hall1 q Hq) as (Fq & _). cbn [w_seg] in Fq.
      rewrite Fq. cbn [Name]. destruct (Hlow q Hq) as [L1 L2].
      destruct (seg_names_ne (baseOffset (w_seg w1 q)) (o + 1))
        as (N1 & N2 & _); [lia|lia|lia|].
      rewrite Hother by assumption. reflexivity. }
    cbn [segments w_seg w_fs]. rewrite (Hold a Hain).
    pose proof (Hkeep a Hain) as Ka.
    unfold w1 in Ka |- *. cbn [w_seg w_fs] in Ka |- *.
    rewrite upd_eq in Ka |- *. rewrite Ka. splits; auto.
    + intros q Hq Hne'. pose proof (Hold q Hq) as Oq.
      pose proof (Hkeep q Hq) as Kq. unfold w1 in Oq, Kq.
      cbn [w_seg w_fs w_next] in Oq, Kq.
      rewrite (upd_ne a s (w_seg w) q Hne') in Oq, Kq.
      cbn [w_next]. rewrite Kq. split; [exact Oq|auto].
    + right. exists (w_next w). rewrite upd_eq. splits; auto.
      * intros Hin. apply Hlt1 in Hin. unfold w1 in Hin.
        cbn [w_next] in Hin. lia.
      * unfold store_content, file_data. rewrite S1.
        cbn [st_File Name st_buf]. rewrite S8. unfold file_data.
        unfold absent in As. rewrite As. reflexivity.
Qed.

Lemma get_entry_put_other b at_ off pos m :
  0 <= b -> b + entWidth <= at_ -> at_ + entWidth <= len m ->
  at_ + entWidth < 2 ^ 64 ->
  get_entry b (put_entry at_ off pos m) = get_entry b m.
Proof.
  intros Hb Hle Hm Hw.
  assert (Hn : b + entWidth <= Z.of_nat (Z.to_nat at_)) by plia.
  rewrite <- (get_entry_take b (Z.to_nat at_) m Hb Hn).
  rewrite <- (get_entry_take b (Z.to_nat at_) (put_entry at_ off pos m) Hb Hn).
  rewrite put_entry_take by plia. reflexivity.
Qed.

Lemma payload_at_app i0 done r o pl :
  payload_at Marshal i0 done o = Some pl ->
  payload_at Marshal i0 (done ++ [r]) o = Some pl.
Proof.
  unfold payload_at.
  destruct (done !! Z.to_nat (o - i0)) as [x|] eqn:E; [|discriminate].
  rewrite (lookup_app_l_Some _ _ _ _ E). auto.
Qed.

Lemma payload_at_last i0 done r :
  payload_at Marshal i0 (done ++ [r]) (i0 + len done)
  = Marshal (mkRecord (Value r) (i0 + len done)).
Proof.
  unfold payload_at.
  replace (Z.to_nat (i0 + len done - i0)) with (length done)
    by (unfold len; lia).
  rewrite list_lookup_middle by reflexivity. reflexivity.
Qed.

Lemma seg_holds_keep i0 done r fs s fs' :
  seg_holds Marshal i0 done fs s ->
  store_content fs' (seg_store s) = store_content fs (seg_store s) ->
  seg_holds Marshal i0 (done ++ [r]) fs' s.
Proof.
  intros (Hsz & Hb & Hn & Hent) E. unfold seg_holds.
  rewrite E, len_app. pose proof (len_nonneg [r]) as Hr.
  splits; auto; [lia|].
  intros o Ho. destruct (Hent o Ho) as (pl & pre & post & P1 & P2 & P3 & P4).
  exists pl, pre, post. splits; auto; try tauto.
  apply payload_at_app. exact P1.
Qed.

(** One successful append keeps the history readable. *)
Lemma holds_step c i0 done r l w o l' w' :
  fresh_inv i0 (len done) l w -> durable c l w ->
  log_holds Marshal i0 done l w ->
  MaxStoreBytes (Segment c) + lenWidth <= 2 ^ 63 ->
  (forall pl, Marshal (mkRecord (Value r) (i0 + len done)) = Some pl ->
     len pl < 2 ^ 63) ->
  0 <= i0 -> i0 + len done + 1 < 2 ^ 64 ->
  Log_Append Marshal r l w = Ret ((o, None), l', w') ->
  log_holds Marshal i0 (done ++ [r]) l' w'.
Proof.
  intros Hinv D [Hsegs Hcov] Hms Hpl Hi0 Hlim HA.
  pose proof (len_nonneg done) as Hd.
  destruct (fresh_inv_step Marshal _ _ _ _ _ _ _ _ Hinv Hi0 Hd HA)
    as [-> _].
  assert (D1 : durable c l' w').
  { eapply (durable_step Marshal); [exact D| |exact HA]. lia. }
  destruct Hinv as (a0 & Ha0 & Hn0 & Hm0 & Hc0 & _).
  destruct (Log_Append_effect c r l w (i0 + len done) l' w' D ltac:(lia) HA)
    as (a & pl & Ha & Hain & HM & Eo & Eb & En & Eix & Esz & Econt & Hroom
        & Hoth & Hnew).
  rewrite Ha in Ha0. injection Ha0 as <-.
  specialize (Hpl pl HM).
  pose proof D as (_ & _ & Hc & Hmax & _ & Hall & _).
  rewrite Forall_forall in Hall, Hsegs.
  destruct (Hall a Hain)
    as (_ & _ & _ & _ & Hst & Hbn & Hn64 & Hix & Hixl & Hlen & _).
  destruct (Hsegs a Hain) as (Ssz & Sb & Sn & Sent).
  assert (Hfull : st_size (seg_store (w_seg w a)) < MaxStoreBytes (Segment c)).
  { unfold IsMaxed in Hm0. apply orb_false_iff in Hm0 as [Hm0 _].
    apply Z.leb_gt in Hm0. rewrite Hc0, Hc in Hm0. exact Hm0. }
  assert (Hcount : 0 <= i0 + len done - baseOffset (w_seg w a) < 2 ^ 32)
    by plia.
  pose proof (len_nonneg pl) as Hpl0.
  assert (Ha' : seg_holds Marshal i0 (done ++ [r]) (w_fs w') (w_seg w' a)).
  { unfold seg_holds. rewrite Esz, Econt, Eb, En, Eix, !len_app.
    cbn [ix_mmap]. unfold frame. rewrite len_app.
    replace (len (be_bytes 8 (len pl))) with 8
      by (unfold len; rewrite be_bytes_length; reflexivity).
    change (len [r]) with 1.
    splits.
    - rewrite wrap64_small by plia. plia.
    - exact Sb.
    - lia.
    - intros o Ho.
      destruct (decide (o = i0 + len done)) as [->|Hne].
      + exists pl, (store_content (w_fs w) (seg_store (w_seg w a))), [].
        rewrite payload_at_last, app_nil_r, Hix, Hn0, <- Ssz.
        rewrite Hix, Hn0 in Hroom.
        splits; auto; [|plia].
        apply get_put_entry; plia.
      + destruct (Sent o ltac:(lia)) as (pl1 & pre & post & P1 & P2 & P3 & P4).
        exists pl1, pre, (post ++ be_bytes 8 (len pl) ++ pl).
        splits; try tauto.
        * apply payload_at_app. exact P1.
        * rewrite P2, <- !app_assoc. reflexivity.
        * rewrite get_entry_put_other by plia. exact P3. }
  assert (Hkeep : forall q, q ∈ segments l -> q <> a ->
            seg_holds Marshal i0 (done ++ [r]) (w_fs w') (w_seg w' q)).
  { intros q Hq Hne. destruct (Hoth q Hq Hne) as [E1 E2]. rewrite E1.
    apply (seg_holds_keep i0 done r (w_fs w)); auto. }
  assert (Hold : forall q, q ∈ segments l ->
            seg_holds Marshal i0 (done ++ [r]) (w_fs w') (w_seg w' q)).
  { intros q Hq. destruct (decide (q = a)) as [->|Hne]; auto. }
  assert (Hcov' : forall o, i0 <= o < i0 + len (done ++ [r]) ->
            exists p, p ∈ segments l /\ covers o (w_seg w' p) = true).
  { intros o. rewrite len_app. change (len [r]) with 1. intros Ho.
    destruct (decide (o = i0 + len done)) as [->|Hne].
    - exists a. split; [exact Hain|]. unfold covers. rewrite Eb, En.
      apply andb_true_iff. split; [apply Z.leb_le|apply Z.ltb_lt]; lia.
    - destruct (Hcov o ltac:(lia)) as (p & Hp & Hcp).
      exists p. split; [exact Hp|].
      destruct (decide (p = a)) as [->|Hpa].
      + unfold covers in Hcp |- *. rewrite Eb, En.
        apply andb_true_iff in Hcp as [C1 C2].
        apply Z.leb_le in C1. apply Z.ltb_lt in C2.
        apply andb_true_iff. split; [apply Z.leb_le|apply Z.ltb_lt]; lia.
      + destruct (Hoth p Hp Hpa) as [-> _]. exact Hcp. }
  split.
  - apply Forall_forall. intros q Hq.
    destruct Hnew as [E|(pn & E & Hfresh & B1 & B2 & B3 & B4)];
      rewrite E in Hq; auto.
    apply elem_of_app in Hq as [Hq|Hq]; auto.
    apply list_elem_of_singleton in Hq. subst q.
    unfold seg_holds. rewrite B1, B2, B3, B4, len_app.
    change (len [r]) with 1. change (len (@nil byte)) with 0.
    splits; auto; try lia.
  - intros o Ho. destruct (Hcov' o Ho) as (p & Hp & Hcp).
    exists p. split; [|exact Hcp].
    destruct Hnew as [->|(pn & -> & _)]; auto.
    apply elem_of_app. left. exact Hp.
Qed.

(** A run of successful appends keeps the history readable. *)
Lemma holds_appends c i0 rs : forall done l w outs l' w',
  fresh_inv i0 (len done) l w -> durable c l w ->
  log_holds Marshal i0 done l w ->
  MaxStoreBytes (Segment c) + lenWidth <= 2 ^ 63 ->
  (forall k r pl, rs !! k = Some r ->
     Marshal (mkRecord (Value r) (i0 + len done + Z.of_nat k)) = Some pl ->
     len pl < 2 ^ 63) ->
  0 <= i0 -> i0 + len done + len rs < 2 ^ 64 ->
  Log_Appends Marshal rs l w = Ret (outs, l', w') ->
  all_ok outs ->
  durable c l' w' /\ log_holds Marshal i0 (done ++ rs) l' w'.
Proof.
  induction rs as [|r rs IH];
    intros done l w outs l' w' Hinv D Hh Hms Hpl Hi0 Hlim.
  - cbn [Log_Appends]. intros [= <- <- <-] _. rewrite app_nil_r. auto.
  - cbn [Log_Appends].
    destruct (Log_Append Marshal r l w) as [[[[o e] l1] w1]|] eqn:A;
      [|discriminate].
    destruct (Log_Appends Marshal rs l1 w1) as [[[os l2] w2]|] eqn:As;
      [|discriminate].
    intros [= <- <- <-] Hok. inversion Hok as [|? ? He Hok']; subst.
    cbn [snd] in He. subst e.
    assert (Hlen : len (r :: rs) = 1 + len rs)
      by (unfold len; cbn [length]; lia).
    pose proof (len_nonneg rs) as Hrs. pose proof (len_nonneg done) as Hd.
    rewrite Hlen in Hlim.
    destruct (fresh_inv_step Marshal _ _ _ _ _ _ _ _ Hinv Hi0 Hd A)
      as [-> Hnext].
    assert (D1 : durable c l1 w1).
    { eapply (durable_step Marshal); [exact D| |exact A]. lia. }
    assert (H1 : log_holds Marshal i0 (done ++ [r]) l1 w1).
    { eapply holds_step; eauto; [|lia].
      intros pl HM. apply (Hpl 0%nat r pl); [reflexivity|].
      rewrite Z.add_0_r. exact HM. }
    assert (Hl1 : len (done ++ [r]) = len done + 1)
      by (rewrite len_app; reflexivity).
    replace (done ++ r :: rs) with ((done ++ [r]) ++ rs)
      by (rewrite <- app_assoc; reflexivity).
    eapply (IH (done ++ [r]) l1 w1 os l2 w2); auto.
    + rewrite Hl1. apply Hnext. lia.
    + intros k r' pl Hk HM. apply (Hpl (S k) r' pl); [exact Hk|].
      rewrite Hl1 in HM. rewrite <- HM. do 2 f_equal. lia.
    + rewrite Hl1. lia.
Qed.

(** Reading an offset of the history returns its record. *)
Lemma holds_read c i0 done l w o r :
  durable c l w -> log_holds Marshal i0 done l w ->
  i0 <= o < i0 + len done ->
  done !! Z.to_nat (o - i0) = Some r ->
  codec_ok Marshal Unmarshal (mkRecord (Value r) o) ->
  exists r',
    read_result (Log_Read Unmarshal o l w) = Some (inl r')
    /\ Value r' = Value r /\ Offset r' = o.
Proof.
  intros D [Hsegs Hcov] Ho Hr Hcodec.
  pose proof D as (_ & _ & _ & Hmax & _ & Hall & _).
  rewrite Forall_forall in Hall, Hsegs.
  destruct (find_segment o l w) as [p|] eqn:F.
  - pose proof (find_segment_Some _ _ _ _ F) as (bf & af & Hl & Hc & _).
    assert (Hp : p ∈ segments l).
    { rewrite Hl. apply elem_of_app. right. left. }
    destruct (Hall p Hp)
      as (Fs & _ & He & [d Hf] & Hst & Hbn & Hn64 & Hix & Hixl & Hlen & _).
    destruct (Hsegs p Hp) as (Ssz & Sb & Sn & Sent).
    unfold covers in Hc. apply andb_true_iff in Hc as [C1 C2].
    apply Z.leb_le in C1. apply Z.ltb_lt in C2.
    destruct (Sent o ltac:(lia)) as (pl & pre & post & P1 & P2 & P3 & P4 & P5).
    unfold payload_at in P1. rewrite Hr in P1.
    destruct (Hcodec pl P1) as (_ & r' & HU & HV & HO).
    assert (Hk : 0 <= o - baseOffset (w_seg w p) < 2 ^ 32) by plia.
    unfold Log_Read. rewrite F. unfold segment_Read.
    rewrite wrap64_small, int64_small by lia.
    rewrite index_Read_at by plia. rewrite P3. cbn [fst snd].
    destruct (store_Read_frame (len pre) (seg_store (w_seg w p)) (w_fs w)
                d pre pl post) as (fs' & HR & _); auto; try lia.
    + rewrite Fs. reflexivity.
    + rewrite Fs. exact Hf.
    + rewrite HR, HU. cbn [read_result]. exists r'. auto.
  - exfalso. apply find_segment_None in F. rewrite Forall_forall in F.
    destruct (Hcov o Ho) as (p & Hp & Hc). rewrite (F p Hp) in Hc.
    discriminate.
Qed.

(** Outside the history every read is out of range. *)
Lemma holds_out_of_range i0 done l w o :
  log_holds Marshal i0 done l w ->
  ~ (i0 <= o < i0 + len done) ->
  read_result (Log_Read Unmarshal o l w)
  = Some (inr (ErrOffsetOutOfRange o)).
Proof.
  intros [Hsegs _] Ho. apply Log_Read_out_of_range.
  apply find_segment_None. rewrite Forall_forall in Hsegs.
  apply Forall_forall. intros p Hp.
  destruct (Hsegs p Hp) as (_ & Sb & Sn & _).
  unfold covers. apply andb_false_iff.
  destruct (Z.leb_spec (baseOffset (w_seg w p)) o) as [L|L]; [|left; reflexivity].
  right. apply Z.ltb_ge. lia.
Qed.

Lemma NewLog_holds dir c w0 l w :
  files (w_fs w0) = ∅ ->
  NewLog dir c w0 = Ret (None, l, w) ->
  log_holds Marshal (InitialOffset (Segment c)) [] l w.
Proof.
  intros Hempty. rewrite NewLog_unfold. unfold Log_setup, ReadDir.
  rewrite Hempty, map_to_list_empty.
  change (merge_sort Z.le (map name_offset ([] : list (string * list byte)).*1))
    with (@nil Z).
  cbn [setup_loop segments Config_ InitialOffset Segment withDefaults].
  intros HN. apply Log_newSegment_ok in HN as (s & fs' & HNS & -> & ->).
  assert (Hab : forall n, absent n (w_fs w0)).
  { intros n. unfold absent. rewrite Hempty. apply lookup_empty. }
  pose proof (newSegment_fresh _ _ _ _ _ _ HNS (Hab _) (Hab _))
    as (B1 & B2 & _ & B4 & _).
  apply newSegment_ok in HNS. cbv zeta in HNS.
  destruct HNS as (S1 & _ & _ & _ & _ & _ & _ & S8 & _).
  split.
  - cbn [segments w_fs w_seg app]. constructor; [|constructor].
    rewrite upd_eq. unfold seg_holds. rewrite B1, B2, B4.
    unfold store_content, file_data. rewrite S1. cbn [st_File Name st_buf].
    rewrite S8. unfold file_data. rewrite Hempty, lookup_empty.
    change (len (@nil Record_)) with 0.
    splits; try reflexivity; try lia.
  - intros o Ho. change (len (@nil Record_)) with 0 in Ho. lia.
Qed.

(** On a log opened on an empty directory whose appends all succeeded
    without wrapping the offset counter, every appended record can be
    read back: [Read] of the offset of the [k]-th record returns a
    record with its value and that offset, whichever segment it went
    to, and [Read] of any other offset returns
    [ErrOffsetOutOfRange].  The codec has to round-trip the records,
    and the store limit has to leave the positions in [int64]. *)
Theorem Log_Read_every_record
    (dir : string) (c : Config) (w0 : World) (rs : list Record_)
    (l0 : Log) (w1 : World) (outs : list (Z * option error))
    (l : Log) (w : World) :
  files (w_fs w0) = ∅ ->
  Config_typed c ->
  MaxIndexBytes (Segment (withDefaults c)) <= entWidth * 2 ^ 32 ->
  MaxStoreBytes (Segment (withDefaults c)) + lenWidth <= 2 ^ 63 ->
  InitialOffset (Segment c) + len rs < 2 ^ 64 ->
  (forall k r, rs !! k = Some r ->
     codec_ok Marshal Unmarshal
       (mkRecord (Value r) (InitialOffset (Segment c) + Z.of_nat k))) ->
  NewLog dir c w0 = Ret (None, l0, w1) ->
  Log_Appends Marshal rs l0 w1 = Ret (outs, l, w) ->
  all_ok outs ->
  (forall k r, rs !! k = Some r ->
     exists r',
       read_result
         (Log_Read Unmarshal (InitialOffset (Segment c) + Z.of_nat k) l w)
       = Some (inl r')
       /\ Value r' = Value r
       /\ Offset r' = InitialOffset (Segment c) + Z.of_nat k)
  /\ (forall off,
        ~ (InitialOffset (Segment c) <= off
           < InitialOffset (Segment c) + len rs) ->
        read_result (Log_Read Unmarshal off l w)
        = Some (inr (ErrOffsetOutOfRange off))).
Proof.
  intros Hempty Hc Hmax Hms Hlim Hcodec HN HA Hok.
  pose proof Hc as (Hms0 & Hmi & Hi0).
  destruct (NewLog_fresh dir c w0 l0 w1 Hempty Hi0 ltac:(lia) ltac:(lia) HN)
    as (Hinv & _).
  pose proof (NewLog_durable dir c w0 l0 w1 Hempty Hc Hmax HN) as D0.
  pose proof (NewLog_holds dir c w0 l0 w1 Hempty HN) as H0.
  assert (Hpl : forall k r pl, rs !! k = Some r ->
            Marshal (mkRecord (Value r)
                       (InitialOffset (Segment c) + len (@nil Record_)
                        + Z.of_nat k)) = Some pl ->
            len pl < 2 ^ 63).
  { intros k r pl Hk HM. change (len (@nil Record_)) with 0 in HM.
    rewrite Z.add_0_r in HM. apply (Hcodec k r Hk pl HM). }
  assert (Hl : InitialOffset (Segment c) + len (@nil Record_) + len rs
               < 2 ^ 64)
    by (change (len (@nil Record_)) with 0; lia).
  destruct (holds_appends (withDefaults c) (InitialOffset (Segment c)) rs []
              l0 w1 outs l w Hinv D0 H0 Hms Hpl (proj1 Hi0) Hl HA Hok)
    as [D H].
  cbn [app] in H. split.
  - intros k r Hk. pose proof (lookup_lt_Some _ _ _ Hk) as Hlt.
    apply (holds_read (withDefaults c) (InitialOffset (Segment c)) rs);
      auto.
    + unfold len. lia.
    + replace (Z.to_nat (InitialOffset (Segment c) + Z.of_nat k
                         - InitialOffset (Segment c))) with k by lia.
      exact Hk.
  - intros off Hoff.
    apply (holds_out_of_range (InitialOffset (Segment c)) rs); assumption.
Qed.

End EveryRecord.

(** Three records over several segments: the second one is read back
    at offset 1. *)
Lemma Log_Read_every_record_witness :
  exists r',
    read_result
      (Log_Read wire_Unmarshal
         (InitialOffset (Segment (sample_config 32 0 0)) + Z.of_nat 1)
         (appended [hello; hello; hello]
            (opened_log (sample_config 32 0 0) 8)).1
         (appended [hello; hello; hello]
            (opened_log (sample_config 32 0 0) 8)).2)
    = Some (inl r')
    /\ Value r' = Value hello
    /\ Offset r' = InitialOffset (Segment (sample_config 32 0 0)) + Z.of_nat 1.
Proof.
  refine (proj1 (Log_Read_every_record wire_Marshal wire_Unmarshal "log"
                   (sample_config 32 0 0) (empty_world 8)
                   [hello; hello; hello]
                   (opened_log (sample_config 32 0 0) 8).1
                   (opened_log (sample_config 32 0 0) 8).2
                   (appended_outs [hello; hello; hello]
                      (opened_log (sample_config 32 0 0) 8))
                   (appended [hello; hello; hello]
                      (opened_log (sample_config 32 0 0) 8)).1
                   (appended [hello; hello; hello]
                      (opened_log (sample_config 32 0 0) 8)).2
                   _ _ _ _ _ _ _ _ _) 1%nat hello eq_refl).
  - reflexivity.
  - unfold Config_typed. cbn. lia.
  - vm_compute. discriminate.
  - vm_compute. discriminate.
  - run.
  - intros k r Hk. destruct k as [|[|[|k]]]; inversion Hk; subst;
      sample_codec.
  - run.
  - run.
  - unfold all_ok. vm_compute. repeat constructor.
Defined.
